(** * Timers and test helpers of lib/common (Timer.cpp, Test.cpp)

    A shallow embedding of [Timers] (the process-wide timer set, its
    [Reschedule] algorithm, [Add], [Remove], [Init], [Cleanup]) and of the
    [Timer] value (constructor, copy, assignment, destructor, [OnExpire]),
    followed by the properties that the design document states about them
    and by further properties of the code; then the same for the helpers of
    the test programs in Test.cpp that look at files and wait for a server.

    The embedding is of the debug build (NDEBUG undefined), in which both
    ASSERT and the TRACEn statements are active. Calls take the process as
    a [World] and return a [Result]; the loop of the expiry pass, which need
    not end when an [OnExpire] puts timers into the set, runs on fuel. *)

From Stdlib Require Import Ascii.
From stdpp Require Import gmap list strings.

Local Open Scope Z_scope.

(** ** Box time (BoxTime.h) *)

Module BoxTime.

(** Modelled from the spec: BoxTime.h is not part of the sources. Box time
    is "a 64-bit count of microseconds"; its arithmetic is taken modulo
    2^64 and read back as a signed quantity, which is what the [int64_t]
    variables of Timer.cpp do with it. *)
Definition to_int64 (x : Z) : Z := (x + 2 ^ 63) mod 2 ^ 64 - 2 ^ 63.

Definition MICRO_SEC_IN_SEC : Z := 1000000.

(** Modelled from the spec: "SecondsToBoxTime(s) = s * 10^6". *)
Definition SecondsToBoxTime (Seconds : Z) : Z :=
  to_int64 (Seconds * MICRO_SEC_IN_SEC).

(** Modelled from the spec: "BoxTimeToSeconds(t) = t / 10^6 (truncating)". *)
Definition BoxTimeToSeconds (Time : Z) : Z := Z.quot Time MICRO_SEC_IN_SEC.

(** Modelled from the spec: "BoxTimeToMicros(t) = t". *)
Definition BoxTimeToMicroSeconds (Time : Z) : Z := Time.

Definition in_range (x : Z) : Prop := 0 <= x < 2 ^ 63.

#[export] Instance in_range_dec x : Decision (in_range x).
Proof. unfold in_range. apply _. Defined.

End BoxTime.
Import BoxTime.

(** ** Data *)

(** Timers are referred to by address (a [nat]): the set holds [Timer*].

    A [Timer] object. [vptr] is its dynamic type: [None] for a plain
    [Timer], [Some k] for the subclass [k], whose [OnExpire] override is
    user code. *)
Record Timer : Type := mkTimer {
  mExpires : Z;
  mExpired : bool;
  vptr : option nat;
}.

Definition GetExpiryTime (t : Timer) : Z := mExpires t.

Definition set_mExpires (e : Z) (t : Timer) : Timer :=
  {| mExpires := e; mExpired := mExpired t; vptr := vptr t |}.
Definition set_mExpired (b : bool) (t : Timer) : Timer :=
  {| mExpires := mExpires t; mExpired := b; vptr := vptr t |}.

(** The TRACEn statements of Timer.cpp, one constructor per message. The
    wall-clock stamp that the constructors and [OnExpire] print is left out. *)
Inductive TraceEvent : Type :=
| TrExpired (timeNow : Z) (p : nat)
    (* "timer %p has expired, triggering it" *)
| TrNotExpired (timeNow : Z) (p : nat) (timeToExpiry : Z)
    (* "timer %p has not expired, triggering in %d.%d seconds" *)
| TrSetitimerWarning
    (* "WARNING: couldn't initialise timer" *)
| TrInitNoFire (p : nat) (timeoutSecs : Z)
    (* "timer %p initialised for %d secs, will not fire" *)
| TrInit (p : nat) (timeoutSecs : Z) (expires : Z)
    (* "timer %p initialised for %d secs, to fire at %d.%d" *)
| TrDestroyed (p : nat)
    (* "timer %p destroyed, will not fire" *)
| TrFromExpired (p src : nat)
    (* "timer %p initialised from timer %p, already expired, will not fire" *)
| TrFromNoFire (p src : nat)
    (* "timer %p initialised from timer %p, will not fire" *)
| TrFromInit (p src : nat) (expires : Z)
    (* "timer %p initialised from timer %p, to fire at %d.%d" *)
| TrFired (p : nat).
    (* "timer %p fired" *)

(** The process: the objects alive, the two statics of [Timers], and the
    part of the environment the code talks to.
    - [clock]: what [GetCurrentBoxTime] returns; the code only reads it.
    - [itimer]: [it_value] of ITIMER_REAL as last programmed
      ([tv_sec], [tv_usec]); [(0, 0)] is a disarmed timer.
    - [handler]: whether SIGALRM is routed to [Timers::SignalHandler]
      ([false]: SIG_DFL).
    - [setitimer_ok]: whether the OS accepts [setitimer].
    - [signals]: asynchronous SIGALRM notifications still to come, one
      entry per interruption point that is reached ([true]: the signal
      handler runs there).
    - [trace]: the trace sink, newest event first. *)
Record World : Type := mkWorld {
  heap : gmap nat Timer;
  spTimers : option (list nat);
  sRescheduleNeeded : bool;
  clock : Z;
  itimer : Z * Z;
  handler : bool;
  setitimer_ok : bool;
  signals : list bool;
  trace : list TraceEvent;
}.

Definition set_heap (h : gmap nat Timer) (w : World) : World :=
  {| heap := h; spTimers := spTimers w;
     sRescheduleNeeded := sRescheduleNeeded w; clock := clock w;
     itimer := itimer w; handler := handler w;
     setitimer_ok := setitimer_ok w; signals := signals w;
     trace := trace w |}.
Definition set_spTimers (v : option (list nat)) (w : World) : World :=
  {| heap := heap w; spTimers := v;
     sRescheduleNeeded := sRescheduleNeeded w; clock := clock w;
     itimer := itimer w; handler := handler w;
     setitimer_ok := setitimer_ok w; signals := signals w;
     trace := trace w |}.
Definition set_sRescheduleNeeded (b : bool) (w : World) : World :=
  {| heap := heap w; spTimers := spTimers w;
     sRescheduleNeeded := b; clock := clock w;
     itimer := itimer w; handler := handler w;
     setitimer_ok := setitimer_ok w; signals := signals w;
     trace := trace w |}.
Definition set_clock (c : Z) (w : World) : World :=
  {| heap := heap w; spTimers := spTimers w;
     sRescheduleNeeded := sRescheduleNeeded w; clock := c;
     itimer := itimer w; handler := handler w;
     setitimer_ok := setitimer_ok w; signals := signals w;
     trace := trace w |}.
Definition set_itimer (it : Z * Z) (w : World) : World :=
  {| heap := heap w; spTimers := spTimers w;
     sRescheduleNeeded := sRescheduleNeeded w; clock := clock w;
     itimer := it; handler := handler w;
     setitimer_ok := setitimer_ok w; signals := signals w;
     trace := trace w |}.
Definition set_handler (b : bool) (w : World) : World :=
  {| heap := heap w; spTimers := spTimers w;
     sRescheduleNeeded := sRescheduleNeeded w; clock := clock w;
     itimer := itimer w; handler := b;
     setitimer_ok := setitimer_ok w; signals := signals w;
     trace := trace w |}.
Definition set_signals (s : list bool) (w : World) : World :=
  {| heap := heap w; spTimers := spTimers w;
     sRescheduleNeeded := sRescheduleNeeded w; clock := clock w;
     itimer := itimer w; handler := handler w;
     setitimer_ok := setitimer_ok w; signals := s;
     trace := trace w |}.
Definition TRACE (e : TraceEvent) (w : World) : World :=
  {| heap := heap w; spTimers := spTimers w;
     sRescheduleNeeded := sRescheduleNeeded w; clock := clock w;
     itimer := itimer w; handler := handler w;
     setitimer_ok := setitimer_ok w; signals := signals w;
     trace := e :: trace w |}.

(** ** Outcomes *)

Inductive Exception : Type :=
| CommonException_AssertFailed
| CommonException_Internal
| UserException (code : nat).

(** What a call does: return, unwind with an exception, run into undefined
    behaviour (a dangling [Timer*], an iterator that is past the end or
    has been invalidated, [spTimers] deleted under the scan), or not
    finish within the fuel given. *)
Inductive Result : Type :=
| Ok (w : World)
| Threw (e : Exception) (w : World)
| Undefined
| OutOfFuel.

Definition bind (r : Result) (k : World → Result) : Result :=
  match r with
  | Ok w => k w
  | Threw e w => Threw e w
  | Undefined => Undefined
  | OutOfFuel => OutOfFuel
  end.

Notation "'let*' w ':=' r 'in' k" := (bind r (λ w, k))
  (at level 10, w name, r at level 100, k at level 200).

(** Modelled from the spec: Box.h is not part of the sources. "Programming
    errors ...: assertion / abort": a failed ASSERT raises
    CommonException(AssertFailed); its argument has been evaluated. *)
Definition ASSERT (cond : bool) (w : World) (k : Result) : Result :=
  if cond then k else Threw CommonException_AssertFailed w.

Definition THROW_EXCEPTION (e : Exception) (w : World) : Result := Threw e w.

(** ** The environment *)

Definition GetCurrentBoxTime (w : World) : Z := clock w.

(** [::setitimer(ITIMER_REAL, &timeout, NULL)]: [None] is a return value
    other than 0. *)
Definition setitimer (it_value : Z * Z) (w : World) : option World :=
  if setitimer_ok w then Some (set_itimer it_value w) else None.

(** Modelled from the spec: Timer.h is not part of the sources.
    "RequestReschedule() - sets a flag; ... performs no work besides the
    store." *)
Definition RequestReschedule (w : World) : World :=
  set_sRescheduleNeeded true w.

Definition SignalHandler (w : World) : World := RequestReschedule w.

(** An interruption point: the next entry of [signals] is consumed, and
    the signal handler runs if it says so. [Reschedule] has one after the
    store to the flag, one at the head of every run of the expiry loop, one
    after every [OnExpire], one before the selection pass, and one before
    and one after [setitimer]. Between two of them the code neither reads
    nor writes the flag, which is all that the handler touches. *)
Definition deliver (w : World) : World :=
  match signals w with
  | [] => w
  | s :: rest =>
      let w' := set_signals rest w in
      if s then SignalHandler w' else w'
  end.

(** Time passing between two calls. *)
Definition advance (dt : Z) (w : World) : World := set_clock (clock w + dt) w.

(** ** Timers and Timer *)

Section Timers.

(** The [OnExpire] overrides of the subclasses of [Timer]: user code,
    which may do to the process whatever it likes. [overrides k p w] runs
    the override of subclass [k] on the object at [p]. *)
Variable overrides : nat → nat → World → Result.

(** [Timer::OnExpire], lines 348-357. *)
Definition Timer_OnExpire (this : nat) (w : World) : Result :=
  match heap w !! this with
  | None => Undefined
  | Some t =>
      let w := TRACE (TrFired this) w in
      Ok (set_heap (<[this := set_mExpired true t]> (heap w)) w)
  end.

(** The virtual call [rTimer.OnExpire()]. *)
Definition OnExpire (p : nat) (w : World) : Result :=
  match heap w !! p with
  | None => Undefined
  | Some t =>
      match vptr t with
      | None => Timer_OnExpire p w
      | Some k => overrides k p w
      end
  end.

(** One run of the [for] loop of the expiry pass, lines 147-175, from the
    iterator at position [i] with [v] still ahead: it stops at the first
    timer whose [timeToExpiry] is not positive. *)
Inductive ScanResult : Type :=
| ScanHit (i : nat) (p : nat) (w : World)
| ScanEnd (w : World)
| ScanUndefined.

Fixpoint scan (timeNow : Z) (v : list nat) (i : nat) (w : World)
  : ScanResult :=
  match v with
  | [] => ScanEnd w
  | p :: v' =>
      match heap w !! p with
      | None => ScanUndefined
      | Some rTimer =>
          let timeToExpiry := to_int64 (GetExpiryTime rTimer - timeNow) in
          if timeToExpiry <=? 0
          then ScanHit i p (TRACE (TrExpired timeNow p) w)
          else scan timeNow v' (S i)
                 (TRACE (TrNotExpired timeNow p timeToExpiry) w)
      end
  end.

(** [spTimers->erase(i)] of line 161. The iterator [i] was taken from the
    vector [v] before [OnExpire] was called (line 147), and is the position
    [i] of [v]. A [push_back] or an [erase] on the vector in between, as the
    [Timers::Add] or [Timers::Remove] of a callback does, invalidates it, so
    that erasing through it is undefined, as it is in a vector that has
    been deleted: the erase is defined only when the vector is still [v].
    A [World] has no identity for the storage of the vector, so vectors
    are told apart by what they hold: a callback that changes the vector
    and has put back what it held when it returns is taken as having left
    it alone; after any other change the erase is undefined. *)
Definition erase (v : list nat) (i : nat) (w : World) : Result :=
  match spTimers w with
  | None => Undefined
  | Some v' =>
      if bool_decide (v' = v) && bool_decide (i < length v)%nat
      then Ok (set_spTimers (Some (delete i v)) w)
      else Undefined
  end.

(** The [while (restart)] loop of the expiry pass, lines 142-176; one unit
    of fuel per run of its body. *)
Fixpoint expiry_pass (fuel : nat) (timeNow : Z) (w : World) : Result :=
  match fuel with
  | O => OutOfFuel
  | S fuel' =>
      match spTimers w with
      | None => Undefined
      | Some v =>
          match scan timeNow v 0 (deliver w) with
          | ScanUndefined => Undefined
          | ScanEnd w => Ok w
          | ScanHit i p w =>
              let* w := OnExpire p w in
              let* w := erase v i (deliver w) in
              expiry_pass fuel' timeNow w
          end
      end
  end.

(** The selection pass, lines 181-198: [None] is a dangling pointer. *)
Fixpoint selection_pass (timeNow : Z) (v : list nat) (timeToNextEvent : Z)
  (w : World) : option Z :=
  match v with
  | [] => Some timeToNextEvent
  | p :: v' =>
      match heap w !! p with
      | None => None
      | Some rTimer =>
          let timeToExpiry := to_int64 (GetExpiryTime rTimer - timeNow) in
          let timeToExpiry :=
            if timeToExpiry <=? 0 then 1 else timeToExpiry in
          let timeToNextEvent :=
            if (timeToNextEvent =? 0) || (timeToNextEvent >? timeToExpiry)
            then timeToExpiry else timeToNextEvent in
          selection_pass timeNow v' timeToNextEvent w
      end
  end.

(** Lines 181-213: select the next wakeup and program the interval timer.
    [tv_usec] is below 10^6, so the cast to [int] leaves it as it is. *)
Definition schedule_next (timeNow : Z) (w : World) : Result :=
  match spTimers w with
  | None => Undefined
  | Some v =>
      match selection_pass timeNow v 0 w with
      | None => Undefined
      | Some timeToNextEvent =>
          ASSERT (0 <=? timeToNextEvent) w (
            let w := deliver w in
            let tv_sec := BoxTimeToSeconds timeToNextEvent in
            let tv_usec :=
              Z.rem (BoxTimeToMicroSeconds timeToNextEvent)
                    MICRO_SEC_IN_SEC in
            match setitimer (tv_sec, tv_usec) w with
            | None =>
                THROW_EXCEPTION CommonException_Internal
                  (TRACE TrSetitimerWarning w)
            | Some w => Ok (deliver w)
            end)
      end
  end.

(** [Timers::Reschedule], lines 128-214. *)
Definition Reschedule (fuel : nat) (w : World) : Result :=
  ASSERT (bool_decide (is_Some (spTimers w))) w (
    let w := set_sRescheduleNeeded false w in
    let w := deliver w in
    let timeNow := GetCurrentBoxTime w in
    let* w := expiry_pass fuel timeNow w in
    schedule_next timeNow (deliver w)).

(** Modelled from the spec: Timer.h is not part of the sources.
    "PollIfNeeded() - host cooperative check: if the reschedule-requested
    flag is set, call Reschedule." *)
Definition PollIfNeeded (fuel : nat) (w : World) : Result :=
  if sRescheduleNeeded w then Reschedule fuel w else Ok w.

(** [Timers::Init], lines 30-43. [::signal] returns the handler that was
    installed before. *)
Definition Init (w : World) : Result :=
  ASSERT (negb (bool_decide (is_Some (spTimers w)))) w (
    let previous := handler w in
    let w := set_handler true w in
    ASSERT (negb previous) w (
      Ok (set_spTimers (Some []) w))).

(** [Timers::Cleanup], lines 53-71. *)
Definition Cleanup (w : World) : Result :=
  ASSERT (bool_decide (is_Some (spTimers w))) w (
    let r := setitimer (0, 0) w in
    let w := default w r in
    ASSERT (bool_decide (is_Some r)) w (
      let previous := handler w in
      let w := set_handler false w in
      ASSERT previous w (
        Ok (set_spTimers None w)))).

(** [Timers::Add], lines 81-86. *)
Definition Add (fuel : nat) (rTimer : nat) (w : World) : Result :=
  ASSERT (bool_decide (is_Some (spTimers w))) w (
    match spTimers w with
    | None => Undefined
    | Some v => Reschedule fuel (set_spTimers (Some (v ++ [rTimer])) w)
    end).

(** The [for] loop of [Remove], lines 105-114: the position of the first
    entry equal to [&rTimer]. *)
Fixpoint find_timer (rTimer : nat) (v : list nat) (i : nat) : option nat :=
  match v with
  | [] => None
  | p :: v' =>
      if bool_decide (rTimer = p) then Some i
      else find_timer rTimer v' (S i)
  end.

(** The [while (restart)] loop of [Remove], lines 101-115. Every run of
    its body but the last erases an entry, so [length v] runs and the
    last one are all there can be. *)
Fixpoint remove_loop (n : nat) (rTimer : nat) (v : list nat) : list nat :=
  match find_timer rTimer v 0 with
  | None => v
  | Some i =>
      match n with
      | O => v
      | S n' => remove_loop n' rTimer (delete i v)
      end
  end.

(** [Timers::Remove], lines 97-118. *)
Definition Remove (fuel : nat) (rTimer : nat) (w : World) : Result :=
  ASSERT (bool_decide (is_Some (spTimers w))) w (
    match spTimers w with
    | None => Undefined
    | Some v =>
        Reschedule fuel
          (set_spTimers (Some (remove_loop (length v) rTimer v)) w)
    end).

(** [Timer::Timer(size_t timeoutSecs)], lines 234-264, constructing at
    address [this]. The object is a plain [Timer] while this constructor
    runs. *)
Definition Timer_ctor (fuel : nat) (this : nat) (timeoutSecs : Z)
  (w : World) : Result :=
  let expires :=
    to_int64 (GetCurrentBoxTime w + SecondsToBoxTime timeoutSecs) in
  let obj := {| mExpires := expires; mExpired := false; vptr := None |} in
  let w := set_heap (<[this := obj]> (heap w)) w in
  let w :=
    if timeoutSecs =? 0
    then TRACE (TrInitNoFire this timeoutSecs) w
    else TRACE (TrInit this timeoutSecs expires) w in
  if timeoutSecs =? 0
  then Ok (set_heap (<[this := set_mExpires 0 obj]> (heap w)) w)
  else Add fuel this w.

(** [Timer::~Timer], lines 266-276; the storage is gone afterwards. *)
Definition Timer_dtor (fuel : nat) (this : nat) (w : World) : Result :=
  let w := TRACE (TrDestroyed this) w in
  let* w := Remove fuel this w in
  Ok (set_heap (delete this (heap w)) w).

(** The trace of the copy constructor and of the assignment. *)
Definition trace_from (this src : nat) (from : Timer) : TraceEvent :=
  if mExpired from then TrFromExpired this src
  else if mExpires from =? 0 then TrFromNoFire this src
  else TrFromInit this src (mExpires from).

(** [Timer::Timer(const Timer& rToCopy)], lines 278-310. *)
Definition Timer_copy_ctor (fuel : nat) (this : nat) (rToCopy : nat)
  (w : World) : Result :=
  match heap w !! rToCopy with
  | None => Undefined
  | Some from =>
      let obj := {| mExpires := mExpires from; mExpired := mExpired from;
                    vptr := None |} in
      let w := set_heap (<[this := obj]> (heap w)) w in
      let w := TRACE (trace_from this rToCopy obj) w in
      if negb (mExpired obj) && negb (mExpires obj =? 0)
      then Add fuel this w
      else Ok w
  end.

(** [Timer::operator=], lines 312-346. *)
Definition Timer_assign (fuel : nat) (this : nat) (rToCopy : nat)
  (w : World) : Result :=
  match heap w !! rToCopy with
  | None => Undefined
  | Some from =>
      let w := TRACE (trace_from this rToCopy from) w in
      let* w := Remove fuel this w in
      match heap w !! this, heap w !! rToCopy with
      | Some t, Some from =>
          let t := set_mExpired (mExpired from)
                     (set_mExpires (mExpires from) t) in
          let w := set_heap (<[this := t]> (heap w)) w in
          if negb (mExpired t) && negb (mExpires t =? 0)
          then Add fuel this w
          else Ok w
      | _, _ => Undefined
      end
  end.

End Timers.

(** ** Vocabulary of the properties *)

(** The members of the set, in vector order (none when there is no set). *)
Definition timers (w : World) : list nat := default [] (spTimers w).

(** The test of the expiry pass on the timer at [p]: [timeToExpiry <= 0]. *)
Definition is_due (w : World) (timeNow : Z) (p : nat) : bool :=
  match heap w !! p with
  | Some t => to_int64 (GetExpiryTime t - timeNow) <=? 0
  | None => false
  end.

(** Several trace events at once, newest first. *)
Definition TRACEs (ex : list TraceEvent) (w : World) : World :=
  {| heap := heap w; spTimers := spTimers w;
     sRescheduleNeeded := sRescheduleNeeded w; clock := clock w;
     itimer := itimer w; handler := handler w;
     setitimer_ok := setitimer_ok w; signals := signals w;
     trace := ex ++ trace w |}.

(** What an [OnExpire] that minds its own business leaves behind when run on
    the timer at [p]: the set, the clock and the interval timer are as they
    were, the flag has not been cleared, the trace has only grown, and no
    object but [p] has changed; [p] keeps its deadline and its class. *)
Record frame (p : nat) (w w' : World) : Prop := mkFrame {
  frame_spTimers : spTimers w' = spTimers w;
  frame_clock : clock w' = clock w;
  frame_itimer : itimer w' = itimer w;
  frame_handler : handler w' = handler w;
  frame_setitimer_ok : setitimer_ok w' = setitimer_ok w;
  frame_signals : signals w' = signals w;
  frame_flag : sRescheduleNeeded w = true → sRescheduleNeeded w' = true;
  frame_trace : ∃ ex, trace w' = ex ++ trace w;
  frame_others : ∀ q, q ≠ p → heap w' !! q = heap w !! q;
  frame_self : ∃ t t', heap w !! p = Some t ∧ heap w' !! p = Some t' ∧
                 mExpires t' = mExpires t ∧ vptr t' = vptr t;
}.

(** Overrides that leave the scheduler alone, whether they return or throw. *)
Definition passive (overrides : nat → nat → World → Result) : Prop :=
  ∀ k p w, is_Some (heap w !! p) →
    match overrides k p w with
    | Ok w' | Threw _ w' => frame p w w'
    | Undefined | OutOfFuel => True
    end.

(** Overrides that return. *)
Definition returning (overrides : nat → nat → World → Result) : Prop :=
  ∀ k p w, is_Some (heap w !! p) → ∃ w', overrides k p w = Ok w'.

(** No member of the set is a dangling pointer. *)
Definition members_alive (w : World) : Prop :=
  Forall (λ p, is_Some (heap w !! p)) (timers w).

(** The clock and every deadline are non-negative 64-bit signed values. *)
Definition times_in_range (w : World) : Prop :=
  in_range (clock w) ∧ map_Forall (λ _ t, in_range (mExpires t)) (heap w).

(** The delay programmed into the interval timer, in microseconds. *)
Definition armed_delay (w : World) : Z :=
  fst (itimer w) * MICRO_SEC_IN_SEC + snd (itimer w).

(** What the expiry pass has done when it returns: the due members are
    gone, each after its [OnExpire] was called; nothing else has changed. *)
Record expired_post (timeNow : Z) (v : list nat) (w w' : World) : Prop :=
  mkExpiredPost {
  ep_timers :
    spTimers w' = Some (filter (λ p, is_due w timeNow p = false) v);
  ep_clock : clock w' = clock w;
  ep_itimer : itimer w' = itimer w;
  ep_handler : handler w' = handler w;
  ep_setitimer_ok : setitimer_ok w' = setitimer_ok w;
  ep_heap_rest :
    ∀ q, ¬ (q ∈ v ∧ is_due w timeNow q = true) → heap w' !! q = heap w !! q;
  ep_heap_due :
    ∀ q, q ∈ v → is_due w timeNow q = true →
      ∃ t t', heap w !! q = Some t ∧ heap w' !! q = Some t' ∧
        mExpires t' = mExpires t ∧ vptr t' = vptr t ∧
        (vptr t = None → t' = set_mExpired true t);
  ep_trace :
    ∃ ex, trace w' = ex ++ trace w ∧
      ∀ q, q ∈ v → is_due w timeNow q = true → TrExpired timeNow q ∈ ex;
  ep_signals :
    ∃ consumed, signals w = consumed ++ signals w' ∧
      (sRescheduleNeeded w = true ∨ true ∈ consumed →
         sRescheduleNeeded w' = true);
}.

(** [timeToExpiry] of the timer at [p]. *)
Definition time_to_expiry (w : World) (timeNow : Z) (p : nat) : Z :=
  match heap w !! p with
  | Some t => to_int64 (GetExpiryTime t - timeNow)
  | None => 0
  end.

(** The same after the clamp of lines 189-192. *)
Definition clamped (w : World) (timeNow : Z) (p : nat) : Z :=
  Z.max 1 (time_to_expiry w timeNow p).

(** What lines 181-213 have done when they return: the interval timer
    holds the selected delay, and nothing else has changed but the flag and
    the signals consumed at the interruption points. *)
Record scheduled (timeNow : Z) (w w' : World) : Prop := mkScheduled {
  sc_itimer :
    ∃ t, selection_pass timeNow (timers w) 0 w = Some t ∧
         itimer w' = (BoxTimeToSeconds t, Z.rem t MICRO_SEC_IN_SEC);
  sc_heap : heap w' = heap w;
  sc_spTimers : spTimers w' = spTimers w;
  sc_set : is_Some (spTimers w);
  sc_clock : clock w' = clock w;
  sc_handler : handler w' = handler w;
  sc_setitimer_ok : setitimer_ok w' = setitimer_ok w;
  sc_accepted : setitimer_ok w = true;
  sc_trace : trace w' = trace w;
  sc_signals :
    ∃ consumed, signals w = consumed ++ signals w' ∧
      (sRescheduleNeeded w = true ∨ true ∈ consumed →
         sRescheduleNeeded w' = true);
}.

(** What [Reschedule] has done when it returns, whatever the overrides
    did: no member is due at the time that was read, and the interval timer
    holds the delay that the selection pass found. *)
Record settled (timeNow : Z) (w' : World) : Prop := mkSettled {
  st_set : is_Some (spTimers w');
  st_none_due :
    Forall (λ q, is_Some (heap w' !! q) ∧ is_due w' timeNow q = false)
           (timers w');
  st_itimer :
    ∃ t, selection_pass timeNow (timers w') 0 w' = Some t ∧
         itimer w' = (BoxTimeToSeconds t, Z.rem t MICRO_SEC_IN_SEC);
}.

(** What [Reschedule] has done when it returns and the overrides are
    passive. *)
Record rescheduled (v : list nat) (w w' : World) : Prop := mkRescheduled {
  rs_timers :
    spTimers w' = Some (filter (λ p, is_due w (clock w) p = false) v);
  rs_clock : clock w' = clock w;
  rs_handler : handler w' = handler w;
  rs_setitimer_ok : setitimer_ok w' = setitimer_ok w;
  rs_heap_rest :
    ∀ q, ¬ (q ∈ v ∧ is_due w (clock w) q = true) →
         heap w' !! q = heap w !! q;
  rs_heap_due :
    ∀ q, q ∈ v → is_due w (clock w) q = true →
      ∃ t t', heap w !! q = Some t ∧ heap w' !! q = Some t' ∧
        mExpires t' = mExpires t ∧ vptr t' = vptr t ∧
        (vptr t = None → t' = set_mExpired true t);
  rs_trace :
    ∃ ex, trace w' = ex ++ trace w ∧
      ∀ q, q ∈ v → is_due w (clock w) q = true →
           TrExpired (clock w) q ∈ ex;
  rs_signals :
    ∃ consumed, signals w = consumed ++ signals w' ∧
      (true ∈ consumed → sRescheduleNeeded w' = true);
  rs_settled : settled (clock w) w';
}.

(** What a [Reschedule] that found nothing due has left as it was. *)
Record unchanged (w w' : World) : Prop := mkUnchanged {
  un_spTimers : spTimers w' = spTimers w;
  un_heap : heap w' = heap w;
  un_clock : clock w' = clock w;
  un_handler : handler w' = handler w;
  un_setitimer_ok : setitimer_ok w' = setitimer_ok w;
  un_trace : ∃ ex, trace w' = ex ++ trace w;
}.

(** A process in which [Reschedule] can do its work: there is a set of at
    most [n] live timers, the times are in range and the OS accepts
    [setitimer]. *)
Record sound (n : nat) (w : World) : Prop := mkSound {
  sd_set : is_Some (spTimers w);
  sd_length : (length (timers w) <= n)%nat;
  sd_alive : members_alive w;
  sd_ok : setitimer_ok w = true;
  sd_range : times_in_range w;
}.

(** The states of a timer [t] at [p] that the design document names.
    Armed: in the set, not expired, its deadline in the future. *)
Definition armed (w : World) (p : nat) (t : Timer) : Prop :=
  p ∈ timers w ∧ mExpired t = false ∧ clock w < mExpires t.

(** Out of the set, and inert or expired. *)
Definition dormant (w : World) (p : nat) (t : Timer) : Prop :=
  (p ∉ timers w) ∧ (mExpires t = 0 ∨ mExpired t = true).

(** Whether a timer with these fields is put into the set, lines 306 and
    341. *)
Definition eligible (t : Timer) : bool :=
  negb (mExpired t) && negb (mExpires t =? 0).

(** Overrides that do not request a reschedule themselves. *)
Definition silent (overrides : nat → nat → World → Result) : Prop :=
  ∀ k p w w', overrides k p w = Ok w' →
    sRescheduleNeeded w' = sRescheduleNeeded w.

(** ** Concrete processes *)

(** A process in which [Timers::Init] has not run yet. *)
Definition boot (now : Z) : World :=
  {| heap := ∅; spTimers := None; sRescheduleNeeded := false; clock := now;
     itimer := (0, 0); handler := false; setitimer_ok := true;
     signals := []; trace := [] |}.

(** Subclasses whose [OnExpire] does nothing at all. *)
Definition idle : nat → nat → World → Result := λ _ _ w, Ok w.

(** Subclasses whose [OnExpire] is [Timer::OnExpire();], the base
    behaviour and nothing else. *)
Definition dutiful : nat → nat → World → Result :=
  λ _ p w, Timer_OnExpire p w.

(** Subclasses whose [OnExpire] throws. *)
Definition throwing : nat → nat → World → Result :=
  λ k _ w, Threw (UserException k) w.

(** Three members at the time 1000: one overdue, one due this very
    microsecond (of a subclass), one in the future. *)
Definition three_timers : World :=
  {| heap := {[ 1%nat := mkTimer 500 false None;
                2%nat := mkTimer 1000 false (Some 0%nat);
                3%nat := mkTimer 1001 false None ]};
     spTimers := Some [1; 2; 3]%nat;
     sRescheduleNeeded := true; clock := 1000;
     itimer := (0, 0); handler := true; setitimer_ok := true;
     signals := []; trace := [] |}.

(** A subclass whose [OnExpire] is
    [if (!mExpired) { mExpired = true; Timers::Add(timer9); }];
    [depth] bounds the nesting of the calls. *)
Fixpoint adder (depth : nat) (k p : nat) (w : World) : Result :=
  match depth with
  | O => OutOfFuel
  | S depth' =>
      match heap w !! p with
      | None => Undefined
      | Some t =>
          if mExpired t then Ok w
          else Add (adder depth') 6 9
                 (set_heap (<[p := set_mExpired true t]> (heap w)) w)
      end
  end.

(** Timer 1, overdue, of that subclass, and timer 3 in the set; timer 9,
    overdue as well, not in the set yet. *)
Definition adding : World :=
  {| heap := {[ 1%nat := mkTimer 500 false (Some 0%nat);
                3%nat := mkTimer 9000 false None;
                9%nat := mkTimer 600 false None ]};
     spTimers := Some [1; 3]%nat;
     sRescheduleNeeded := true; clock := 1000;
     itimer := (0, 0); handler := true; setitimer_ok := true;
     signals := []; trace := [] |}.

(** The world in which the [OnExpire] of timer 1 is called there. *)
Definition adding_dispatching : World :=
  TRACE (TrExpired 1000 1) (set_sRescheduleNeeded false adding).

(** One member, overdue, of a subclass whose [OnExpire] throws. *)
Definition one_thrower : World :=
  {| heap := {[ 1%nat := mkTimer 500 false (Some 7%nat) ]};
     spTimers := Some [1%nat];
     sRescheduleNeeded := true; clock := 1000;
     itimer := (0, 0); handler := true; setitimer_ok := true;
     signals := []; trace := [] |}.

(** The world in which that [OnExpire] is called, and which it leaves. *)
Definition one_thrower_dispatching : World :=
  TRACE (TrExpired 1000 1) (set_sRescheduleNeeded false one_thrower).

(** Timer 2 registered three times, among an overdue timer 1 and a
    timer 3. *)
Definition duplicates : World :=
  {| heap := {[ 1%nat := mkTimer 500 false None;
                2%nat := mkTimer 5000 false None;
                3%nat := mkTimer 7000 false None ]};
     spTimers := Some [2; 1; 2; 3; 2]%nat;
     sRescheduleNeeded := false; clock := 1000;
     itimer := (0, 0); handler := true; setitimer_ok := true;
     signals := []; trace := [] |}.

(** A timer made while the set was there, and the set cleaned up under
    it. *)
Definition after_Cleanup : Result :=
  let* w := Init (boot 1000) in
  let* w := Timer_ctor idle 4 1 5 w in
  Cleanup w.

(** What that leaves: timer 1 alive, and no set. *)
Definition orphan : World :=
  {| heap := {[ 1%nat := mkTimer 5001000 false None ]};
     spTimers := None;
     sRescheduleNeeded := false; clock := 1000;
     itimer := (0, 0); handler := false; setitimer_ok := true;
     signals := [];
     trace := [TrNotExpired 1000 1 5000000; TrInit 1 5 5001000] |}.

(** Timer 1 set for 5 s at the time 1000, in a process that is running. *)
Definition running : World :=
  {| heap := {[ 1%nat := mkTimer 5001000 false None ]};
     spTimers := Some [1%nat];
     sRescheduleNeeded := false; clock := 1000;
     itimer := (5, 0); handler := true; setitimer_ok := true;
     signals := []; trace := [] |}.

(** An inert timer that [Timers::Add] is called on all the same. *)
Definition inert_added : Result :=
  let* w := Init (boot 1000) in
  let* w := Timer_ctor idle 4 1 0 w in
  Add idle 4 1 w.

(** The set of the counterexample just before its [Reschedule]. *)
Definition inert_member : World :=
  {| heap := {[ 1%nat := mkTimer 0 false None ]};
     spTimers := Some [1%nat];
     sRescheduleNeeded := false; clock := 1000;
     itimer := (0, 0); handler := true; setitimer_ok := true;
     signals := []; trace := [TrInitNoFire 1 0] |}.

(** Timer 1, not expired, whose deadline 500 has been reached at the time
    1000 without a poll since. *)
Definition overdue : World :=
  {| heap := {[ 1%nat := mkTimer 500 false None ]};
     spTimers := Some [1%nat];
     sRescheduleNeeded := true; clock := 1000;
     itimer := (0, 0); handler := true; setitimer_ok := true;
     signals := []; trace := [] |}.

(** Timer 1 armed for 5 s since the time 1000, timer 3 inert, timer 4
    expired. *)
Definition mixed : World :=
  {| heap := {[ 1%nat := mkTimer 5001000 false None;
                3%nat := mkTimer 0 false None;
                4%nat := mkTimer 900 true None ]};
     spTimers := Some [1%nat];
     sRescheduleNeeded := false; clock := 1000;
     itimer := (5, 0); handler := true; setitimer_ok := true;
     signals := []; trace := [] |}.

(** Timer 1 armed for the time 5001000; timer 2, not expired, whose
    deadline 500 has been reached at the time 1000 without a poll since. *)
Definition overdue_source : World :=
  {| heap := {[ 1%nat := mkTimer 5001000 false None;
                2%nat := mkTimer 500 false None ]};
     spTimers := Some [1; 2]%nat;
     sRescheduleNeeded := true; clock := 1000;
     itimer := (0, 0); handler := true; setitimer_ok := true;
     signals := []; trace := [] |}.

(** Timers 1 and 2, not expired, whose deadlines 600 and 500 have been
    reached at the time 1000 without a poll since; timer 3 armed for the
    time 5001000. *)
Definition overdue_pair : World :=
  {| heap := {[ 1%nat := mkTimer 600 false None;
                2%nat := mkTimer 500 false None;
                3%nat := mkTimer 5001000 false None ]};
     spTimers := Some [1; 2; 3]%nat;
     sRescheduleNeeded := true; clock := 1000;
     itimer := (0, 0); handler := true; setitimer_ok := true;
     signals := []; trace := [] |}.

(** Timer 1 armed for the time 5001000, timer 2 for 9001000, timer 3
    inert. *)
Definition two_armed : World :=
  {| heap := {[ 1%nat := mkTimer 5001000 false None;
                2%nat := mkTimer 9001000 false None;
                3%nat := mkTimer 0 false None ]};
     spTimers := Some [1; 2]%nat;
     sRescheduleNeeded := false; clock := 1000;
     itimer := (5, 0); handler := true; setitimer_ok := true;
     signals := []; trace := [] |}.

(** The three timers again, with the flag set on entry; the handler runs
    at the [k]-th interruption point that is reached. *)
Definition interrupted (k : nat) : World :=
  set_signals (replicate k false ++ [true]) three_timers.

(** ** Vocabulary of the further properties *)

(** The timers whose [Timer::OnExpire] has written "timer %p fired" to the
    trace, newest first. *)
Definition fired (tr : list TraceEvent) : list nat :=
  omap (λ e, match e with TrFired p => Some p | _ => None end) tr.

(** The three timers in a process whose OS turns [setitimer] down. *)
Definition refused : World :=
  {| heap := heap three_timers; spTimers := spTimers three_timers;
     sRescheduleNeeded := true; clock := 1000;
     itimer := (7, 0); handler := true; setitimer_ok := false;
     signals := []; trace := [] |}.

(** Timer 1 set for 5 s in a process whose SIGALRM handler is not the
    one of [Timers]. *)
Definition unhandled : World :=
  {| heap := {[ 1%nat := mkTimer 5001000 false None ]};
     spTimers := Some [1%nat];
     sRescheduleNeeded := false; clock := 1000;
     itimer := (5, 0); handler := false; setitimer_ok := true;
     signals := []; trace := [] |}.

(** Timer 2 registered three times and overdue, among plain timers. *)
Definition overdue_duplicates : World :=
  {| heap := {[ 1%nat := mkTimer 500 false None;
                2%nat := mkTimer 900 false None;
                3%nat := mkTimer 7000 false None ]};
     spTimers := Some [2; 1; 2; 3; 2]%nat;
     sRescheduleNeeded := false; clock := 1000;
     itimer := (0, 0); handler := true; setitimer_ok := true;
     signals := []; trace := [] |}.

(** * Useful stuff for tests (lib/common/Test.cpp)

    The helpers of the test programs, as they are built where WIN32 is not
    defined (as the timers above are); [ConvertPaths] is given for both
    builds. *)

(** ** The file system *)

(** What [stat] fills in, as far as Test.cpp reads it. *)
Record Stat : Type := mkStat {
  st_mode : Z;
  st_size : Z;
}.

(** sys/stat.h: the file type of a directory, 0040000 in octal. *)
Definition S_IFDIR : Z := 16384.

(** The file system at one moment, as [EMU_STAT(Filename, &st)] sees it:
    [None] is a return value other than 0. *)
Definition FileSystem : Type := string → option Stat.

(** [TestFileExists], lines 27-31. *)
Definition TestFileExists (fs : FileSystem) (Filename : string) : bool :=
  match fs Filename with
  | Some st => Z.land (st_mode st) S_IFDIR =? 0
  | None => false
  end.

(** [TestFileNotEmpty], lines 33-38. *)
Definition TestFileNotEmpty (fs : FileSystem) (Filename : string) : bool :=
  match fs Filename with
  | Some st => (Z.land (st_mode st) S_IFDIR =? 0) && (st_size st >? 0)
  | None => false
  end.

(** [TestDirExists], lines 40-44. *)
Definition TestDirExists (fs : FileSystem) (Filename : string) : bool :=
  match fs Filename with
  | Some st => Z.land (st_mode st) S_IFDIR =? S_IFDIR
  | None => false
  end.

(** The conversion of [st_size], an [off_t], to the [int] that
    [TestGetFileSize] returns: a 32-bit [int], the value taken modulo
    2^32. *)
Definition to_int (x : Z) : Z := (x + 2 ^ 31) mod 2 ^ 32 - 2 ^ 31.

(** [TestGetFileSize], lines 46-55. *)
Definition TestGetFileSize (fs : FileSystem) (Filename : string) : Z :=
  match fs Filename with
  | Some st => to_int (st_size st)
  | None => -1
  end.

(** ** Paths *)

(** The loop of lines 63-73 with [rest] still to be read:
    [converted += ...] for every character. *)
Fixpoint ConvertPaths_loop (rest : string) (converted : string) : string :=
  match rest with
  | EmptyString => converted
  | String c rest' =>
      ConvertPaths_loop rest'
        (converted +:+
         String (if bool_decide (c = "/"%char) then "\"%char else c)
           EmptyString)
  end.

(** [ConvertPaths], lines 57-79; [WIN32] says which build it is. *)
Definition ConvertPaths (WIN32 : bool) (rOriginal : string) : string :=
  if WIN32 then ConvertPaths_loop rOriginal EmptyString else rOriginal.

(** The characters of a string. *)
Fixpoint chars (s : string) : list ascii :=
  match s with
  | EmptyString => []
  | String c s' => c :: chars s'
  end.

(** ** Waiting for a server *)

(** The world outside the test program. The test cannot tell when it
    changes, so each of its answers depends on how many times the test has
    turned to it before ([t]): what [stat] reports, what
    [::kill(pid, sig)] returns, whether [fopen(pidFile, "r")] gives a
    stream, and what [fscanf(f, "%d", &pid)] reads ([None]: its return
    value is not 1). *)
Record Outside : Type := mkOutside {
  files : nat → FileSystem;
  kill : nat → Z → Z → Z;
  fopen : nat → string → bool;
  fscanf_d : nat → string → option Z;
}.

(** What the logging macros and TEST_FAIL_WITH_MESSAGE are called with,
    one constructor per call in the functions below. *)
Inductive TestEvent : Type :=
| TraceWaiting
    (* BOX_TRACE("Waiting for server to start") *)
| TraceStarted
    (* BOX_TRACE("Server started") *)
| ErrorWrongPid (pidFile : string) (expected found : Z)
    (* BOX_ERROR("Server wrote wrong pid to file (...): expected ... but
       found ...") *)
| FailNoPidFilePerhaps
    (* TEST_FAIL_WITH_MESSAGE("Server didn't save PID file (perhaps one was
       already running?)") *)
| FailCouldntRead
    (* TEST_FAIL_WITH_MESSAGE("Couldn't read PID file") *)
| FailServerDied
    (* TEST_FAIL_WITH_MESSAGE("Server died!") *)
| FailNoPidFile
    (* TEST_FAIL_WITH_MESSAGE("Server didn't save PID file") *)
| FailWrongPid.
    (* TEST_FAIL_WITH_MESSAGE("Server wrote wrong pid to file") *)

(** Whether an event is a TEST_FAIL_WITH_MESSAGE. *)
Definition is_failure (e : TestEvent) : bool :=
  match e with
  | FailNoPidFilePerhaps | FailCouldntRead | FailServerDied
  | FailNoPidFile | FailWrongPid => true
  | TraceWaiting | TraceStarted | ErrorWrongPid _ _ _ => false
  end.

(** The test program: how often it has turned to the outside, the seconds
    it has slept, the streams it has opened and not closed, and the calls
    of the logging macros, newest first. *)
Record Tester : Type := mkTester {
  asked : nat;
  slept : nat;
  streams : nat;
  events : list TestEvent;
}.

(** A function of Test.cpp that returns an [A]. *)
Definition Test (A : Type) : Type := Tester → A * Tester.

#[export] Instance Test_ret : MRet Test := λ A a s, (a, s).
#[export] Instance Test_bind : MBind Test :=
  λ A B f m s, let (a, s') := m s in f a s'.

Section Server.

Variable outside : Outside.

(** One look at the outside. *)
Definition ask {A} (answer : nat → A) : Test A :=
  λ s, (answer (asked s),
        {| asked := S (asked s); slept := slept s; streams := streams s;
           events := events s |}).

Definition EMU_STAT : Test FileSystem := ask (files outside).

Definition log (e : TestEvent) : Test unit :=
  λ s, ((), {| asked := asked s; slept := slept s; streams := streams s;
               events := e :: events s |}).

(** [::sleep(seconds)]; the outside moves on meanwhile. *)
Definition sleep (seconds : nat) : Test unit :=
  λ s, ((), {| asked := S (asked s); slept := (slept s + seconds)%nat;
               streams := streams s; events := events s |}).

(** A stream more, or less, that is open. *)
Definition opened : Test unit :=
  λ s, ((), {| asked := asked s; slept := slept s;
               streams := S (streams s); events := events s |}).
Definition fclose : Test unit :=
  λ s, ((), {| asked := asked s; slept := slept s;
               streams := pred (streams s); events := events s |}).

(** [ServerIsAlive], lines 90-132, the branch without WIN32. *)
Definition ServerIsAlive (pid : Z) : Test bool :=
  if pid =? 0 then mret false
  else
    r ← ask (λ t, kill outside t pid 0);
    mret (negb (r =? -1)).

(** [ReadPidFile], lines 134-154. When [fscanf] fails, the function
    returns without [fclose]. *)
Definition ReadPidFile (pidFile : string) : Test Z :=
  fs ← EMU_STAT;
  if negb (TestFileNotEmpty fs pidFile) then
    log FailNoPidFilePerhaps;; mret (-1)
  else
    f ← ask (λ t, fopen outside t pidFile);
    if negb f then
      log FailCouldntRead;; mret (-1)
    else
      opened;;
      r ← ask (λ t, fscanf_d outside t pidFile);
      match r with
      | None => log FailCouldntRead;; mret (-1)
      | Some pid => fclose;; mret pid
      end.

(** [pidIfKnown && !ServerIsAlive(pidIfKnown)], lines 237 and 248. *)
Definition known_and_dead (pidIfKnown : Z) : Test bool :=
  if pidIfKnown =? 0 then mret false
  else
    alive ← ServerIsAlive pidIfKnown;
    mret (negb alive).

(** The loop of lines 230-243, with [n] runs of its body to go. *)
Fixpoint wait_loop (pidFile : string) (pidIfKnown : Z) (n : nat)
  : Test unit :=
  match n with
  | O => mret ()
  | S n' =>
      fs ← EMU_STAT;
      if TestFileNotEmpty fs pidFile then mret ()
      else
        dead ← known_and_dead pidIfKnown;
        if (dead : bool) then mret ()
        else sleep 1;; wait_loop pidFile pidIfKnown n'
  end.

(** What a call gives: a return value, or a failed ASSERT. *)
Inductive Outcome : Type :=
| Returned (r : Z) (s : Tester)
| Raised (e : Exception) (s : Tester).

(** Lines 226-280 of [WaitForServerStartup], behind the ASSERT. *)
Definition wait_for_pid (pidFile : string) (pidIfKnown : Z) : Test Z :=
  log TraceWaiting;;
  wait_loop pidFile pidIfKnown 15;;
  dead ← known_and_dead pidIfKnown;
  if (dead : bool) then
    log FailServerDied;; mret (-1)
  else
    fs ← EMU_STAT;
    if negb (TestFileNotEmpty fs pidFile) then
      log FailNoPidFile;; mret (-1)
    else
      log TraceStarted;;
      sleep 1;;
      pid ← ReadPidFile pidFile;
      if negb (pidIfKnown =? 0) && negb (pid =? pidIfKnown) then
        log (ErrorWrongPid pidFile pidIfKnown pid);;
        log FailWrongPid;;
        mret (-1)
      else mret pid.

(** [WaitForServerStartup], lines 214-281, the branch without WIN32:
    [pidFile] is [None] for a NULL pointer. *)
Definition WaitForServerStartup (pidFile : option string) (pidIfKnown : Z)
  (s : Tester) : Outcome :=
  match pidFile with
  | None => Raised CommonException_AssertFailed s
  | Some pidFile =>
      let (pid, s') := wait_for_pid pidFile pidIfKnown s in
      Returned pid s'
  end.

End Server.

(** What a function of Test.cpp has left of the test program but the
    looks at the outside: the seconds slept, the streams and the events. *)
Record quiet (s s' : Tester) : Prop := mkQuiet {
  qu_asked : (asked s <= asked s')%nat;
  qu_slept : slept s' = slept s;
  qu_streams : streams s' = streams s;
  qu_events : events s' = events s;
}.

(** The test program at its start. *)
Definition starting : Tester :=
  {| asked := 0; slept := 0; streams := 0; events := [] |}.

(** A pid file of 5 bytes that holds 4711, from the fourth look at the
    outside on; a process 4711 that is alive. *)
Definition late_pid_file : Outside :=
  {| files := λ t f,
       if bool_decide (f = "testfiles/bbackupd.pid") && bool_decide (3 ≤ t)%nat
       then Some (mkStat 33188 5) else None;
     kill := λ _ pid _, if pid =? 4711 then 0 else -1;
     fopen := λ _ f, bool_decide (f = "testfiles/bbackupd.pid");
     fscanf_d := λ _ _, Some 4711 |}.

(** A pid file of 5 bytes that holds 4711, there from the start; a
    process 4711 that is alive. *)
Definition ready_pid_file : Outside :=
  {| files := λ _ _, Some (mkStat 33188 5);
     kill := λ _ _ _, 0;
     fopen := λ _ _, true;
     fscanf_d := λ _ _, Some 4711 |}.

(** No pid file, ever. *)
Definition no_pid_file : Outside :=
  {| files := λ _ _, None;
     kill := λ _ _ _, -1;
     fopen := λ _ _, false;
     fscanf_d := λ _ _, None |}.

(** A pid file that holds no number. *)
Definition garbled_pid_file : Outside :=
  {| files := λ _ _, Some (mkStat 33188 5);
     kill := λ _ _ _, -1;
     fopen := λ _ _, true;
     fscanf_d := λ _ _, None |}.

(** A directory, a file of 10 bytes and an empty file. *)
Definition some_files : FileSystem :=
  λ f, if bool_decide (f = "testfiles") then Some (mkStat 16877 4096)
       else if bool_decide (f = "testfiles/a") then Some (mkStat 33188 10)
       else if bool_decide (f = "testfiles/empty") then Some (mkStat 33188 0)
       else None.

(** * Properties *)

(** ** Arithmetic of box time *)

Lemma to_int64_id x : - 2 ^ 63 <= x < 2 ^ 63 → to_int64 x = x.
Proof.
  intros Hx. unfold to_int64.
  rewrite Z.mod_small by lia. lia.
Qed.

Lemma to_int64_diff x y : in_range x → in_range y → to_int64 (x - y) = x - y.
Proof. unfold in_range. intros Hx Hy. apply to_int64_id. lia. Qed.

(** ** Interruption points and traces leave the rest alone *)

Lemma deliver_signals w :
  ∃ consumed, signals w = consumed ++ signals (deliver w) ∧
    (sRescheduleNeeded w = true ∨ true ∈ consumed →
       sRescheduleNeeded (deliver w) = true) ∧
    (sRescheduleNeeded (deliver w) = true →
       sRescheduleNeeded w = true ∨ true ∈ consumed).
Proof.
  unfold deliver. destruct (signals w) as [|s rest] eqn:Hs.
  - exists []. rewrite Hs. split; [done|]. split.
    + intros [H|H]; [done|]. by apply elem_of_nil in H.
    + by left.
  - exists [s]. destruct s; simpl; (split; [done|]); split.
    + done.
    + intros _. right. by left.
    + intros [H|H]; [done|]. apply list_elem_of_singleton in H. done.
    + by left.
Qed.

Lemma deliver_heap w : heap (deliver w) = heap w.
Proof. unfold deliver. by destruct (signals w) as [|[] ?]. Qed.
Lemma deliver_spTimers w : spTimers (deliver w) = spTimers w.
Proof. unfold deliver. by destruct (signals w) as [|[] ?]. Qed.
Lemma deliver_clock w : clock (deliver w) = clock w.
Proof. unfold deliver. by destruct (signals w) as [|[] ?]. Qed.
Lemma deliver_itimer w : itimer (deliver w) = itimer w.
Proof. unfold deliver. by destruct (signals w) as [|[] ?]. Qed.
Lemma deliver_handler w : handler (deliver w) = handler w.
Proof. unfold deliver. by destruct (signals w) as [|[] ?]. Qed.
Lemma deliver_setitimer_ok w : setitimer_ok (deliver w) = setitimer_ok w.
Proof. unfold deliver. by destruct (signals w) as [|[] ?]. Qed.
Lemma deliver_trace w : trace (deliver w) = trace w.
Proof. unfold deliver. by destruct (signals w) as [|[] ?]. Qed.

Lemma deliver_is_due w timeNow p : is_due (deliver w) timeNow p = is_due w timeNow p.
Proof. unfold is_due. by rewrite deliver_heap. Qed.

Create Rewrite HintDb world.
#[export] Hint Rewrite deliver_heap deliver_spTimers deliver_clock
  deliver_itimer deliver_handler deliver_setitimer_ok deliver_trace
  deliver_is_due : world.

Lemma TRACEs_nil w : TRACEs [] w = w.
Proof. by destruct w. Qed.

Lemma TRACEs_TRACE ex e w : TRACEs ex (TRACE e w) = TRACEs (ex ++ [e]) w.
Proof. unfold TRACEs, TRACE. simpl. by rewrite <- app_assoc. Qed.

(** ** The scan of the expiry pass *)

(** The scan stops at the first due timer of the vector and has only
    written to the trace. *)
Lemma scan_spec timeNow v : ∀ i w,
  match scan timeNow v i w with
  | ScanHit j p w1 =>
      ∃ pre post ex, v = pre ++ p :: post ∧ j = (i + length pre)%nat ∧
        Forall (λ q, is_Some (heap w !! q) ∧ is_due w timeNow q = false) pre ∧
        is_due w timeNow p = true ∧
        w1 = TRACEs (TrExpired timeNow p :: ex) w
  | ScanEnd w1 =>
      Forall (λ q, is_Some (heap w !! q) ∧ is_due w timeNow q = false) v ∧
      ∃ ex, w1 = TRACEs ex w
  | ScanUndefined => ∃ q, q ∈ v ∧ heap w !! q = None
  end.
Proof.
  induction v as [|p v IH]; intros i w; simpl.
  - split; [constructor|]. exists []. by rewrite TRACEs_nil.
  - destruct (heap w !! p) as [t|] eqn:Hp.
    + destruct (to_int64 (GetExpiryTime t - timeNow) <=? 0) eqn:Hdue.
      * exists nil; exists v; exists nil. simpl. repeat split; try done.
        unfold is_due. by rewrite Hp.
      * specialize (IH (S i) (TRACE (TrNotExpired timeNow p
                     (to_int64 (GetExpiryTime t - timeNow))) w)).
        assert (Hhere : is_Some (heap w !! p) ∧ is_due w timeNow p = false).
        { split; [by rewrite Hp|]. unfold is_due. by rewrite Hp. }
        destruct (scan _ _ _ _) as [j q w1|w1|].
        -- destruct IH as (pre & post & ex & -> & -> & Hpre & Hq & ->).
           exists (p :: pre); exists post;
             exists (ex ++ [TrNotExpired timeNow p
                              (to_int64 (GetExpiryTime t - timeNow))]).
           split; [done|]. split; [simpl; lia|].
           split; [constructor; [done|exact Hpre]|].
           split; [exact Hq|].
           by rewrite TRACEs_TRACE.
        -- destruct IH as (Hv & ex & ->). split.
           ++ constructor; [done|exact Hv].
           ++ eexists. by rewrite TRACEs_TRACE.
        -- destruct IH as (q & Hq & Hnone). exists q. split; [|done].
           by right.
    + exists p. split; [by left|done].
Qed.

(** ** Dispatch *)

Lemma Timer_OnExpire_spec p w t :
  heap w !! p = Some t →
  ∃ w', Timer_OnExpire p w = Ok w' ∧ frame p w w' ∧
        heap w' !! p = Some (set_mExpired true t) ∧
        trace w' = TrFired p :: trace w ∧
        sRescheduleNeeded w' = sRescheduleNeeded w.
Proof.
  intros Hp. unfold Timer_OnExpire. rewrite Hp. eexists. split; [done|].
  split; [|simpl; by rewrite lookup_insert_eq].
  constructor; simpl; try done.
  - by exists [TrFired p].
  - intros q Hq. by rewrite lookup_insert_ne.
  - exists t; exists (set_mExpired true t). by rewrite lookup_insert_eq.
Qed.

Section Dispatch.

Variable overrides : nat → nat → World → Result.
Hypothesis Hpassive : passive overrides.

Lemma OnExpire_Ok p w w' :
  OnExpire overrides p w = Ok w' →
  frame p w w' ∧
  (∀ t, heap w !! p = Some t → vptr t = None →
        heap w' !! p = Some (set_mExpired true t)).
Proof.
  unfold OnExpire. destruct (heap w !! p) as [t|] eqn:Hp; [|done].
  destruct (vptr t) as [k|] eqn:Hk.
  - intros Hcall. specialize (Hpassive k p w (mk_is_Some _ _ Hp)).
    rewrite Hcall in Hpassive.
    split; [done|]. intros t' [= <-]. congruence.
  - intros Hcall.
    destruct (Timer_OnExpire_spec p w t Hp) as (w1 & Hw1 & Hfr & Hh & _).
    rewrite Hw1 in Hcall. injection Hcall as <-.
    split; [done|]. by intros t' [= <-] _.
Qed.

Lemma OnExpire_Threw p w e w' :
  OnExpire overrides p w = Threw e w' → frame p w w'.
Proof.
  unfold OnExpire. destruct (heap w !! p) as [t|] eqn:Hp; [|done].
  destruct (vptr t) as [k|] eqn:Hk.
  - intros Hcall. specialize (Hpassive k p w (mk_is_Some _ _ Hp)).
    by rewrite Hcall in Hpassive.
  - intros Hcall.
    destruct (Timer_OnExpire_spec p w t Hp) as (w1 & Hw1 & _).
    by rewrite Hw1 in Hcall.
Qed.

Lemma OnExpire_returns p w :
  returning overrides → is_Some (heap w !! p) →
  ∃ w', OnExpire overrides p w = Ok w'.
Proof.
  intros Hret [t Hp]. unfold OnExpire. rewrite Hp.
  destruct (vptr t) as [k|].
  - apply Hret. by rewrite Hp.
  - destruct (Timer_OnExpire_spec p w t Hp) as (w1 & Hw1 & _). eauto.
Qed.

End Dispatch.

Lemma frame_is_due p w w' timeNow q :
  frame p w w' → is_due w' timeNow q = is_due w timeNow q.
Proof.
  intros Hfr. unfold is_due. destruct (decide (q = p)) as [->|Hne].
  - destruct (frame_self _ _ _ Hfr) as (t & t' & -> & -> & He & _).
    unfold GetExpiryTime. by rewrite He.
  - by rewrite (frame_others _ _ _ Hfr q Hne).
Qed.

Lemma frame_alive p w w' q :
  frame p w w' → is_Some (heap w' !! q) ↔ is_Some (heap w !! q).
Proof.
  intros Hfr. destruct (decide (q = p)) as [->|Hne].
  - destruct (frame_self _ _ _ Hfr) as (t & t' & -> & -> & _). by split.
  - by rewrite (frame_others _ _ _ Hfr q Hne).
Qed.

(** ** The expiry pass under passive overrides *)

Lemma expired_post_alive timeNow v w w' q :
  expired_post timeNow v w w' → is_Some (heap w' !! q) ↔ is_Some (heap w !! q).
Proof.
  intros Hp. destruct (decide (q ∈ v ∧ is_due w timeNow q = true)) as [[Hq Hd]|Hn].
  - destruct (ep_heap_due _ _ _ _ Hp q Hq Hd) as (t & t' & -> & -> & _).
    by split.
  - by rewrite (ep_heap_rest _ _ _ _ Hp q Hn).
Qed.

Lemma filter_all_true {A} (P : A → Prop) `{∀ x, Decision (P x)} (l : list A) :
  Forall P l → filter P l = l.
Proof.
  induction 1 as [|x l Hx Hl IH]; [done|].
  rewrite filter_cons_True by done. by rewrite IH.
Qed.

Lemma elem_of_middle {A} (q p : A) (pre post : list A) :
  q ∈ pre ++ p :: post ↔ q = p ∨ q ∈ pre ++ post.
Proof. rewrite !elem_of_app, elem_of_cons. tauto. Qed.

Section ExpiryPass.

Variable overrides : nat → nat → World → Result.
Hypothesis Hpassive : passive overrides.

(** One step of the pass: what the world looks like when the scan is
    restarted after a dispatch. *)
Lemma expiry_step timeNow w v pre p post ex w2 :
  spTimers w = Some v →
  v = pre ++ p :: post →
  frame p (TRACEs (TrExpired timeNow p :: ex) (deliver w)) w2 →
  erase v (length pre) (deliver w2)
  = Ok (set_spTimers (Some (pre ++ post)) (deliver w2)).
Proof.
  intros Hv -> Hfr. unfold erase.
  rewrite deliver_spTimers, (frame_spTimers _ _ _ Hfr). simpl.
  rewrite deliver_spTimers, Hv.
  rewrite bool_decide_true by done.
  rewrite bool_decide_true by (rewrite length_app; simpl; lia).
  simpl. by rewrite delete_middle.
Qed.

Lemma expiry_pass_Ok fuel : ∀ timeNow w w' v,
  spTimers w = Some v →
  expiry_pass overrides fuel timeNow w = Ok w' →
  expired_post timeNow v w w'.
Proof.
  induction fuel as [|fuel IH]; intros timeNow w w' v Hv; [done|].
  simpl. rewrite Hv.
  pose proof (scan_spec timeNow v 0 (deliver w)) as Hscan.
  destruct (deliver_signals w) as (c0 & Hc0 & Hflag0 & _).
  destruct (scan timeNow v 0 (deliver w)) as [j p w1|w1|]; [| |done].
  - (* a due timer at position j *)
    destruct Hscan as (pre & post & ex & Hsplit & -> & Hpre & Hdue & ->).
    simpl. rewrite deliver_is_due in Hdue.
    destruct (OnExpire overrides p _) as [w2| | |] eqn:Hcall; try done.
    simpl. destruct (OnExpire_Ok _ Hpassive _ _ _ Hcall) as [Hfr Hbase].
    rewrite (expiry_step timeNow w v pre p post ex w2 Hv Hsplit Hfr).
    simpl. intros Hrest.
    set (w3 := set_spTimers (Some (pre ++ post)) (deliver w2)) in *.
    assert (Hv3 : spTimers w3 = Some (pre ++ post)) by done.
    specialize (IH timeNow w3 w' (pre ++ post) Hv3 Hrest).
    assert (Hheap3 : ∀ q, q ≠ p → heap w3 !! q = heap w !! q).
    { intros q Hq. subst w3. simpl. rewrite deliver_heap.
      rewrite (frame_others _ _ _ Hfr q Hq). simpl. by rewrite deliver_heap. }
    assert (Hdue3 : ∀ q, is_due w3 timeNow q = is_due w timeNow q).
    { intros q. transitivity (is_due w2 timeNow q).
      - unfold is_due. subst w3. simpl. by rewrite deliver_heap.
      - rewrite (frame_is_due _ _ _ timeNow q Hfr).
        unfold is_due. simpl. by rewrite deliver_heap. }
    destruct (frame_self _ _ _ Hfr) as (t & t2 & Ht & Ht2 & He2 & Hv2).
    simpl in Ht. rewrite deliver_heap in Ht.
    assert (Ht3 : heap w3 !! p = Some t2).
    { subst w3. simpl. by rewrite deliver_heap. }
    destruct (deliver_signals w2) as (c2 & Hc2 & Hflag2 & _).
    constructor.
    + rewrite (ep_timers _ _ _ _ IH). f_equal. subst v.
      rewrite !filter_app, filter_cons_False by (rewrite Hdue; done).
      f_equal; apply list_filter_iff; intros q; by rewrite Hdue3.
    + rewrite (ep_clock _ _ _ _ IH). subst w3. simpl.
      rewrite deliver_clock, (frame_clock _ _ _ Hfr). simpl.
      by rewrite deliver_clock.
    + rewrite (ep_itimer _ _ _ _ IH). subst w3. simpl.
      rewrite deliver_itimer, (frame_itimer _ _ _ Hfr). simpl.
      by rewrite deliver_itimer.
    + rewrite (ep_handler _ _ _ _ IH). subst w3. simpl.
      rewrite deliver_handler, (frame_handler _ _ _ Hfr). simpl.
      by rewrite deliver_handler.
    + rewrite (ep_setitimer_ok _ _ _ _ IH). subst w3. simpl.
      rewrite deliver_setitimer_ok, (frame_setitimer_ok _ _ _ Hfr). simpl.
      by rewrite deliver_setitimer_ok.
    + intros q Hq.
      assert (q ≠ p) as Hne.
      { intros ->. apply Hq. split; [|done]. subst v.
        apply elem_of_middle. by left. }
      rewrite <- (Hheap3 q Hne). apply (ep_heap_rest _ _ _ _ IH).
      intros [Hin Hd]. apply Hq. rewrite <- Hdue3. split; [|done].
      subst v. apply elem_of_middle. by right.
    + intros q Hq Hd. destruct (decide (q = p)) as [->|Hne].
      * destruct (decide (p ∈ pre ++ post)) as [Hdup|Hnodup].
        -- destruct (ep_heap_due _ _ _ _ IH p Hdup) as
             (t3 & t' & Ht3' & Ht' & He' & Hv' & Hb'); [by rewrite Hdue3|].
           rewrite Ht3 in Ht3'. injection Ht3' as <-.
           exists t; exists t'. repeat split; try congruence.
           intros Hnone. rewrite Hb' by congruence.
           specialize (Hbase t). simpl in Hbase.
           rewrite deliver_heap in Hbase. specialize (Hbase Ht Hnone).
           rewrite Ht2 in Hbase. injection Hbase as ->. done.
        -- exists t; exists t2. rewrite Ht.
           rewrite (ep_heap_rest _ _ _ _ IH p) by (intros [? _]; done).
           repeat split; try done.
           intros Hnone. specialize (Hbase t). simpl in Hbase.
           rewrite deliver_heap in Hbase. specialize (Hbase Ht Hnone).
           congruence.
      * assert (q ∈ pre ++ post) as Hin.
        { subst v. apply elem_of_middle in Hq. by destruct Hq. }
        destruct (ep_heap_due _ _ _ _ IH q Hin) as
          (t3 & t' & Ht3' & Ht' & He' & Hv' & Hb'); [by rewrite Hdue3|].
        exists t3; exists t'. rewrite <- (Hheap3 q Hne). done.
    + destruct (ep_trace _ _ _ _ IH) as (ex3 & Hex3 & Hin3).
      destruct (frame_trace _ _ _ Hfr) as (ex2 & Hex2).
      exists (ex3 ++ ex2 ++ TrExpired timeNow p :: ex). split.
      * rewrite Hex3. subst w3. simpl. rewrite deliver_trace, Hex2. simpl.
        rewrite deliver_trace. by rewrite <- !app_assoc.
      * intros q Hq Hd. destruct (decide (q = p)) as [->|Hne].
        -- rewrite !elem_of_app, elem_of_cons. tauto.
        -- assert (q ∈ pre ++ post) as Hin.
           { subst v. apply elem_of_middle in Hq. by destruct Hq. }
           specialize (Hin3 q Hin). rewrite Hdue3 in Hin3.
           rewrite elem_of_app. left. by apply Hin3.
    + destruct (ep_signals _ _ _ _ IH) as (c3 & Hc3 & Hflag3).
      exists (c0 ++ c2 ++ c3). split.
      * rewrite Hc0 at 1. rewrite <- app_assoc. f_equal.
        transitivity (signals w2).
        { by rewrite (frame_signals _ _ _ Hfr). }
        rewrite <- app_assoc, Hc2. f_equal. exact Hc3.
      * intros Hsome. apply Hflag3.
        rewrite !elem_of_app in Hsome.
        destruct Hsome as [Hf|[Hf|[Hf|Hf]]]; [left|left|left|by right].
        -- subst w3. simpl. apply Hflag2. left.
           apply (frame_flag _ _ _ Hfr). simpl. apply Hflag0. by left.
        -- subst w3. simpl. apply Hflag2. left.
           apply (frame_flag _ _ _ Hfr). simpl. apply Hflag0. by right.
        -- subst w3. simpl. apply Hflag2. by right.
  - (* nothing is due *)
    destruct Hscan as (Hall & ex & ->). intros [= <-].
    constructor; simpl; autorewrite with world; try done.
    + rewrite Hv. f_equal. symmetry. apply filter_all_true.
      eapply Forall_impl; [exact Hall|]. simpl. intros q [_ Hq].
      by rewrite deliver_is_due in Hq.
    + intros q Hq Hd. rewrite Forall_forall in Hall.
      destruct (Hall q Hq) as [_ Hnd]. rewrite deliver_is_due in Hnd.
      congruence.
    + exists ex. split; [done|]. intros q Hq Hd.
      rewrite Forall_forall in Hall.
      destruct (Hall q Hq) as [_ Hnd]. rewrite deliver_is_due in Hnd.
      congruence.
    + exists c0. done.
Qed.

(** Every due member has had its [OnExpire] called, in a world [w1] in
    which it was still in the set and "has expired" was the last thing
    traced; what that call returned, [w2], is what the rest of the pass went
    on from: the trace has only grown since, and the object is as the last
    such call left it. *)
Lemma expiry_pass_dispatched fuel : ∀ timeNow w w' v,
  spTimers w = Some v →
  expiry_pass overrides fuel timeNow w = Ok w' →
  ∀ q, q ∈ v → is_due w timeNow q = true →
  ∃ w1 w2,
    OnExpire overrides q w1 = Ok w2 ∧ q ∈ timers w1 ∧
    (∃ ex1, trace w1 = TrExpired timeNow q :: ex1 ++ trace w) ∧
    (∃ ex2, trace w' = ex2 ++ trace w2) ∧
    heap w' !! q = heap w2 !! q ∧
    (∀ r, r ∈ timers w1 → r ∈ v).
Proof.
  induction fuel as [|fuel IH]; intros timeNow w w' v Hv; [done|].
  simpl. rewrite Hv.
  pose proof (scan_spec timeNow v 0 (deliver w)) as Hscan.
  destruct (scan timeNow v 0 (deliver w)) as [j p w1|w1|]; [| |done].
  - destruct Hscan as (pre & post & ex & Hsplit & -> & Hpre & Hdue & ->).
    simpl. rewrite deliver_is_due in Hdue.
    destruct (OnExpire overrides p _) as [w2| | |] eqn:Hcall; try done.
    simpl. destruct (OnExpire_Ok _ Hpassive _ _ _ Hcall) as [Hfr _].
    rewrite (expiry_step timeNow w v pre p post ex w2 Hv Hsplit Hfr).
    simpl. intros Hrest q Hq Hdq.
    set (w3 := set_spTimers (Some (pre ++ post)) (deliver w2)) in *.
    assert (Hv3 : spTimers w3 = Some (pre ++ post)) by done.
    pose proof (expiry_pass_Ok fuel timeNow w3 w' (pre ++ post) Hv3 Hrest)
      as Hep.
    assert (Hdue3 : ∀ r, is_due w3 timeNow r = is_due w timeNow r).
    { intros r. transitivity (is_due w2 timeNow r).
      - unfold is_due. subst w3. simpl. by rewrite deliver_heap.
      - rewrite (frame_is_due _ _ _ timeNow r Hfr).
        unfold is_due. simpl. by rewrite deliver_heap. }
    assert (Htr3 : ∃ ex2, trace w3 = ex2 ++ TrExpired timeNow p :: ex
                                    ++ trace w).
    { destruct (frame_trace _ _ _ Hfr) as (ex2 & Hex2). exists ex2.
      subst w3. simpl. rewrite deliver_trace, Hex2. simpl.
      by rewrite deliver_trace. }
    destruct (decide (q ∈ pre ++ post)) as [Hin|Hout].
    + (* dispatched, or dispatched again, later in the pass *)
      destruct (IH timeNow w3 w' (pre ++ post) Hv3 Hrest q Hin)
        as (w1 & w2' & Hcall' & Hmem & [ex1 Hex1] & Hgrown & Hheap & Hsub);
        [by rewrite Hdue3|].
      exists w1; exists w2'. split; [done|]. split; [done|].
      split; [|split; [done|split; [done|]]].
      * destruct Htr3 as (ex2 & Hex2).
        exists (ex1 ++ ex2 ++ TrExpired timeNow p :: ex).
        rewrite Hex1, Hex2. by rewrite <- !app_assoc.
      * intros r Hr. subst v. apply elem_of_middle. right. by apply Hsub.
    + (* dispatched here, for the last time *)
      assert (q = p) as ->.
      { subst v. apply elem_of_middle in Hq. by destruct Hq. }
      eexists; exists w2. split; [exact Hcall|].
      split; [unfold timers; simpl; by rewrite deliver_spTimers, Hv|].
      split; [exists ex; simpl; by rewrite deliver_trace|].
      split; [|split].
      * destruct (ep_trace _ _ _ _ Hep) as (ex3 & Hex3 & _).
        exists ex3. rewrite Hex3. subst w3. simpl.
        by rewrite deliver_trace.
      * rewrite (ep_heap_rest _ _ _ _ Hep p) by (by intros [? _]).
        subst w3. simpl. by rewrite deliver_heap.
      * unfold timers. simpl. by rewrite deliver_spTimers, Hv.
  - destruct Hscan as (Hall & ex & ->). intros _ q Hq Hdq.
    rewrite Forall_forall in Hall. destruct (Hall q Hq) as [_ Hnd].
    rewrite deliver_is_due in Hnd. congruence.
Qed.

End ExpiryPass.

(** Whatever the overrides do, the pass returns only after a scan of the
    whole vector that met no dangling pointer and no due timer. *)
Lemma expiry_pass_none_due overrides fuel : ∀ timeNow w w',
  expiry_pass overrides fuel timeNow w = Ok w' →
  ∃ v', spTimers w' = Some v' ∧
    Forall (λ q, is_Some (heap w' !! q) ∧ is_due w' timeNow q = false) v'.
Proof.
  induction fuel as [|fuel IH]; intros timeNow w w'; [done|].
  simpl. destruct (spTimers w) as [v|] eqn:Hv; [|done].
  pose proof (scan_spec timeNow v 0 (deliver w)) as Hscan.
  destruct (scan timeNow v 0 (deliver w)) as [j p w1|w1|]; [| |done].
  - destruct (OnExpire overrides p w1) as [w2| | |]; try done. simpl.
    destruct (erase v j (deliver w2)) as [w3| | |]; try done. simpl.
    apply IH.
  - destruct Hscan as (Hall & ex & ->). intros [= <-].
    exists v. split; [simpl; by rewrite deliver_spTimers|exact Hall].
Qed.

Section ExpiryPassReturns.

Variable overrides : nat → nat → World → Result.
Hypothesis Hpassive : passive overrides.

(** With overrides that return, the pass returns: every run of the loop
    body but the last takes a timer out of the vector. *)
Lemma expiry_pass_returns fuel : ∀ timeNow w v,
  returning overrides →
  spTimers w = Some v →
  Forall (λ p, is_Some (heap w !! p)) v →
  (length v < fuel)%nat →
  ∃ w', expiry_pass overrides fuel timeNow w = Ok w'.
Proof.
  intros timeNow w v Hret. revert w v.
  induction fuel as [|fuel IH]; intros w v Hv Halive Hlen; [lia|].
  simpl. rewrite Hv.
  pose proof (scan_spec timeNow v 0 (deliver w)) as Hscan.
  destruct (scan timeNow v 0 (deliver w)) as [j p w1|w1|].
  - destruct Hscan as (pre & post & ex & Hsplit & -> & Hpre & Hdue & ->).
    assert (Hp : is_Some (heap w !! p)).
    { rewrite Forall_forall in Halive. apply Halive. subst v.
      apply elem_of_middle. by left. }
    destruct (OnExpire_returns overrides p
                (TRACEs (TrExpired timeNow p :: ex) (deliver w)) Hret)
      as [w2 Hcall].
    { simpl. by rewrite deliver_heap. }
    rewrite Hcall. simpl.
    destruct (OnExpire_Ok _ Hpassive _ _ _ Hcall) as [Hfr _].
    rewrite (expiry_step timeNow w v pre p post ex w2 Hv Hsplit Hfr).
    simpl. apply (IH _ (pre ++ post)); [done| |].
    + rewrite Forall_forall. intros q Hq. simpl. rewrite deliver_heap.
      apply (frame_alive _ _ _ q Hfr). simpl. rewrite deliver_heap.
      rewrite Forall_forall in Halive. apply Halive. subst v.
      apply elem_of_middle. by right.
    + subst v. rewrite length_app in *. simpl in Hlen. lia.
  - eauto.
  - destruct Hscan as (q & Hq & Hnone). rewrite deliver_heap in Hnone.
    rewrite Forall_forall in Halive. apply Halive in Hq.
    rewrite Hnone in Hq. by destruct Hq.
Qed.

(** An exception leaves the pass from an [OnExpire], which was called on
    a member of the set, and that timer is still in the vector in the
    world the exception carries. *)
Lemma expiry_pass_Threw fuel : ∀ timeNow w e w' v,
  spTimers w = Some v →
  expiry_pass overrides fuel timeNow w = Threw e w' →
  ∃ p w1,
    OnExpire overrides p w1 = Threw e w' ∧
    p ∈ v ∧ p ∈ timers w1 ∧ p ∈ timers w' ∧
    is_due w timeNow p = true ∧ is_due w' timeNow p = true ∧
    ∃ ex, trace w1 = TrExpired timeNow p :: ex ++ trace w.
Proof.
  induction fuel as [|fuel IH]; intros timeNow w e w' v Hv; [done|].
  simpl. rewrite Hv.
  pose proof (scan_spec timeNow v 0 (deliver w)) as Hscan.
  destruct (scan timeNow v 0 (deliver w)) as [j p w1|w1|]; [|done|done].
  destruct Hscan as (pre & post & ex & Hsplit & -> & Hpre & Hdue & ->).
  simpl. rewrite deliver_is_due in Hdue.
  assert (Hpv : p ∈ v) by (subst v; apply elem_of_middle; by left).
  destruct (OnExpire overrides p _) as [w2|e2 w2| |] eqn:Hcall; try done.
  - simpl. destruct (OnExpire_Ok _ Hpassive _ _ _ Hcall) as [Hfr _].
    rewrite (expiry_step timeNow w v pre p post ex w2 Hv Hsplit Hfr).
    simpl. intros Hrest.
    set (w3 := set_spTimers (Some (pre ++ post)) (deliver w2)) in *.
    assert (Hv3 : spTimers w3 = Some (pre ++ post)) by done.
    destruct (IH timeNow w3 e w' (pre ++ post) Hv3 Hrest)
      as (q & w1 & Hthrow & Hq & Hq1 & Hq' & Hd3 & Hd' & ex3 & Htr).
    exists q; exists w1. repeat split; try done.
    + subst v. apply elem_of_middle. by right.
    + rewrite <- Hd3. unfold is_due. subst w3. simpl. rewrite deliver_heap.
      change (is_due w timeNow q = is_due w2 timeNow q).
      rewrite (frame_is_due _ _ _ timeNow q Hfr).
      unfold is_due. simpl. by rewrite deliver_heap.
    + destruct (frame_trace _ _ _ Hfr) as (ex2 & Hex2).
      exists (ex3 ++ ex2 ++ TrExpired timeNow p :: ex).
      rewrite Htr. subst w3. simpl. rewrite deliver_trace, Hex2. simpl.
      rewrite deliver_trace. by rewrite <- !app_assoc.
  - simpl. intros [= <- <-].
    pose proof (OnExpire_Threw _ Hpassive _ _ _ _ Hcall) as Hfr.
    exists p; eexists. split; [exact Hcall|].
    unfold timers. rewrite (frame_spTimers _ _ _ Hfr). simpl.
    rewrite deliver_spTimers, Hv. simpl. repeat split; try done.
    + rewrite (frame_is_due _ _ _ timeNow p Hfr).
      unfold is_due. simpl. by rewrite deliver_heap.
    + exists ex. by rewrite deliver_trace.
Qed.

End ExpiryPassReturns.

(** ** The selection pass *)

Lemma selection_pass_step timeNow w p v acc t :
  heap w !! p = Some t →
  selection_pass timeNow (p :: v) acc w
  = selection_pass timeNow v
      (if (acc =? 0) || (acc >? clamped w timeNow p)
       then clamped w timeNow p else acc) w.
Proof.
  intros Ht. simpl. rewrite Ht. unfold clamped, time_to_expiry. rewrite Ht.
  destruct (to_int64 (GetExpiryTime t - timeNow) <=? 0) eqn:Hle.
  - apply Z.leb_le in Hle. by rewrite Z.max_l by lia.
  - apply Z.leb_gt in Hle. by rewrite Z.max_r by lia.
Qed.

Lemma selection_pass_from timeNow w : ∀ v acc t,
  1 <= acc →
  selection_pass timeNow v acc w = Some t →
  1 <= t <= acc ∧
  (∀ q, q ∈ v → t <= clamped w timeNow q) ∧
  (t = acc ∨ ∃ p, p ∈ v ∧ t = clamped w timeNow p).
Proof.
  induction v as [|p v IH]; intros acc t Hacc.
  - simpl. intros [= <-]. split; [lia|]. split; [|by left].
    intros q Hq. by apply elem_of_nil in Hq.
  - destruct (heap w !! p) as [tp|] eqn:Hp; [|simpl; by rewrite Hp].
    rewrite (selection_pass_step _ _ _ _ _ tp Hp).
    assert (1 <= clamped w timeNow p) by (unfold clamped; lia).
    replace ((acc =? 0) || (acc >? clamped w timeNow p)) with
      (acc >? clamped w timeNow p)
      by (replace (acc =? 0) with false by (symmetry; apply Z.eqb_neq; lia);
          done).
    destruct (acc >? clamped w timeNow p) eqn:Hgt; intros Hsel.
    + apply IH in Hsel as (Hr & Hall & Hwho); [|done].
      assert (clamped w timeNow p < acc) by (apply Z.gtb_lt in Hgt; lia).
      split; [lia|]. split.
      * intros q [->|Hq]%elem_of_cons; [lia|by apply Hall].
      * right. destruct Hwho as [->|(q & Hq & ->)].
        -- exists p. split; [by left|done].
        -- exists q. split; [by right|done].
    + apply IH in Hsel as (Hr & Hall & Hwho); [|done].
      assert (acc <= clamped w timeNow p).
      { rewrite Z.gtb_ltb in Hgt. apply Z.ltb_ge in Hgt. lia. }
      split; [lia|]. split.
      * intros q [->|Hq]%elem_of_cons; [lia|by apply Hall].
      * destruct Hwho as [->|(q & Hq & ->)]; [by left|].
        right. exists q. split; [by right|done].
Qed.

(** The selection pass returns [0] for the empty set and otherwise the
    least clamped [timeToExpiry] of the members. *)
Lemma selection_pass_min timeNow w v t :
  selection_pass timeNow v 0 w = Some t →
  match v with
  | [] => t = 0
  | _ :: _ =>
      1 <= t ∧
      (∃ p, p ∈ v ∧ t = clamped w timeNow p) ∧
      (∀ q, q ∈ v → t <= clamped w timeNow q)
  end.
Proof.
  destruct v as [|p v]; [by intros [= <-]|].
  destruct (heap w !! p) as [tp|] eqn:Hp; [|simpl; by rewrite Hp].
  rewrite (selection_pass_step _ _ _ _ _ tp Hp). simpl.
  assert (1 <= clamped w timeNow p) by (unfold clamped; lia).
  intros Hsel. apply selection_pass_from in Hsel as (Hr & Hall & Hwho);
    [|done].
  split; [lia|]. split.
  - destruct Hwho as [->|(q & Hq & ->)].
    + exists p. split; [by left|done].
    + exists q. split; [by right|done].
  - intros q [->|Hq]%elem_of_cons; [lia|by apply Hall].
Qed.

Lemma selection_pass_alive timeNow w : ∀ v acc,
  Forall (λ p, is_Some (heap w !! p)) v →
  is_Some (selection_pass timeNow v acc w).
Proof.
  induction v as [|p v IH]; intros acc Halive; [by eexists|].
  inversion Halive as [|? ? [tp Hp] Hrest]; subst.
  rewrite (selection_pass_step _ _ _ _ _ tp Hp). by apply IH.
Qed.

Lemma selection_pass_nonneg timeNow w v t :
  selection_pass timeNow v 0 w = Some t → 0 <= t.
Proof.
  intros Hsel. apply selection_pass_min in Hsel.
  destruct v; [lia|]. destruct Hsel as [? _]. lia.
Qed.

(** The selection depends on the heap only. *)
Lemma selection_pass_heap timeNow w w' : ∀ v acc,
  heap w' = heap w →
  selection_pass timeNow v acc w' = selection_pass timeNow v acc w.
Proof.
  induction v as [|p v IH]; intros acc Hh; [done|].
  simpl. rewrite Hh. destruct (heap w !! p); [|done]. by apply IH.
Qed.

(** ** Programming the interval timer *)

Lemma schedule_next_Ok timeNow w w' :
  schedule_next timeNow w = Ok w' → scheduled timeNow w w'.
Proof.
  unfold schedule_next, timers.
  destruct (spTimers w) as [v|] eqn:Hv; [|done]. simpl.
  destruct (selection_pass timeNow v 0 w) as [t|] eqn:Hsel; [|done].
  rewrite (proj2 (Z.leb_le 0 t)) by (by eapply selection_pass_nonneg).
  simpl. unfold setitimer. rewrite deliver_setitimer_ok.
  destruct (setitimer_ok w) eqn:Hok; [|done]. intros [= <-].
  destruct (deliver_signals w) as (c1 & Hc1 & Hf1 & _).
  destruct (deliver_signals (set_itimer
    (BoxTimeToSeconds t, Z.rem (BoxTimeToMicroSeconds t) MICRO_SEC_IN_SEC)
    (deliver w))) as (c2 & Hc2 & Hf2 & _).
  constructor; autorewrite with world; simpl; autorewrite with world;
    try done.
  - exists t. unfold timers. by rewrite Hv.
  - exists (c1 ++ c2). split.
    + rewrite <- app_assoc, <- Hc2. exact Hc1.
    + intros Hsome. apply Hf2. rewrite elem_of_app in Hsome.
      destruct Hsome as [Hs|[Hs|Hs]]; [left|left|by right]; simpl;
        apply Hf1; [by left|by right].
Qed.

Lemma schedule_next_returns timeNow w v :
  spTimers w = Some v →
  Forall (λ p, is_Some (heap w !! p)) v →
  setitimer_ok w = true →
  ∃ w', schedule_next timeNow w = Ok w'.
Proof.
  intros Hv Halive Hok. unfold schedule_next. rewrite Hv.
  destruct (selection_pass_alive timeNow w v 0 Halive) as [t Hsel].
  rewrite Hsel.
  rewrite (proj2 (Z.leb_le 0 t)) by (by eapply selection_pass_nonneg).
  simpl. unfold setitimer. rewrite deliver_setitimer_ok, Hok. eauto.
Qed.

(** An exception out of [schedule_next] is the internal error of a
    rejected [setitimer]. *)
Lemma schedule_next_Threw timeNow w e w' :
  schedule_next timeNow w = Threw e w' →
  e = CommonException_Internal ∧ setitimer_ok w = false.
Proof.
  unfold schedule_next.
  destruct (spTimers w) as [v|] eqn:Hv; [|done].
  destruct (selection_pass timeNow v 0 w) as [t|] eqn:Hsel; [|done].
  rewrite (proj2 (Z.leb_le 0 t)) by (by eapply selection_pass_nonneg).
  simpl. unfold setitimer. rewrite deliver_setitimer_ok.
  destruct (setitimer_ok w) eqn:Hok; [done|].
  unfold THROW_EXCEPTION. by intros [= <- <-].
Qed.

(** The programmed delay is the selected one, to the microsecond. *)
Lemma armed_delay_selected w t :
  itimer w = (BoxTimeToSeconds t, Z.rem t MICRO_SEC_IN_SEC) →
  armed_delay w = t.
Proof.
  intros Hit. unfold armed_delay. rewrite Hit. simpl.
  unfold BoxTimeToSeconds, MICRO_SEC_IN_SEC.
  pose proof (Z.quot_rem' t 1000000). lia.
Qed.

(** ** Reschedule *)

Lemma Reschedule_unfold overrides fuel w :
  is_Some (spTimers w) →
  Reschedule overrides fuel w
  = (let* w1 := expiry_pass overrides fuel (clock w)
                  (deliver (set_sRescheduleNeeded false w)) in
     schedule_next (clock w) (deliver w1)).
Proof.
  intros Hset. unfold Reschedule, GetCurrentBoxTime.
  rewrite bool_decide_true by done. simpl. by rewrite deliver_clock.
Qed.

Lemma Reschedule_no_set overrides fuel w :
  spTimers w = None →
  Reschedule overrides fuel w = Threw CommonException_AssertFailed w.
Proof.
  intros Hnone. unfold Reschedule. rewrite Hnone.
  rewrite bool_decide_false; [done|]. by intros [? ?].
Qed.

Lemma Reschedule_settled overrides fuel w w' :
  Reschedule overrides fuel w = Ok w' → settled (clock w) w'.
Proof.
  destruct (spTimers w) as [v|] eqn:Hv;
    [|by rewrite Reschedule_no_set].
  rewrite Reschedule_unfold by (by rewrite Hv).
  destruct (expiry_pass _ _ _ _) as [w1| | |] eqn:Hpass; try done.
  simpl. intros Hsched. apply schedule_next_Ok in Hsched.
  apply expiry_pass_none_due in Hpass as (v1 & Hv1 & Hall).
  destruct (sc_itimer _ _ _ Hsched) as (t & Hsel & Hit).
  assert (Htimers : timers w' = v1).
  { unfold timers. rewrite (sc_spTimers _ _ _ Hsched), deliver_spTimers.
    by rewrite Hv1. }
  assert (Hheap : heap w' = heap w1).
  { by rewrite (sc_heap _ _ _ Hsched), deliver_heap. }
  constructor.
  - rewrite (sc_spTimers _ _ _ Hsched), deliver_spTimers, Hv1. by eexists.
  - rewrite Htimers. eapply Forall_impl; [exact Hall|]. simpl.
    intros q. unfold is_due. by rewrite Hheap.
  - exists t. split; [|done]. rewrite Htimers.
    unfold timers in Hsel. rewrite deliver_spTimers, Hv1 in Hsel.
    simpl in Hsel. rewrite <- Hsel.
    apply selection_pass_heap. by rewrite deliver_heap.
Qed.

Section ReschedulePassive.

Variable overrides : nat → nat → World → Result.
Hypothesis Hpassive : passive overrides.

Lemma Reschedule_Ok fuel w w' v :
  spTimers w = Some v →
  Reschedule overrides fuel w = Ok w' →
  rescheduled v w w'.
Proof.
  intros Hv Hres. pose proof (Reschedule_settled _ _ _ _ Hres) as Hset.
  rewrite Reschedule_unfold in Hres by (by rewrite Hv).
  destruct (expiry_pass _ _ _ _) as [w1| | |] eqn:Hpass; try done.
  simpl in Hres. apply schedule_next_Ok in Hres as Hsc.
  apply (expiry_pass_Ok _ Hpassive _ _ _ _ v) in Hpass as Hep;
    [|by rewrite deliver_spTimers].
  set (w0 := deliver (set_sRescheduleNeeded false w)) in *.
  assert (Hh0 : heap w0 = heap w) by (subst w0; by rewrite deliver_heap).
  assert (Hd0 : ∀ q, is_due w0 (clock w) q = is_due w (clock w) q).
  { intros q. unfold is_due. by rewrite Hh0. }
  assert (Hh' : heap w' = heap w1).
  { by rewrite (sc_heap _ _ _ Hsc), deliver_heap. }
  constructor; try done.
  - rewrite (sc_spTimers _ _ _ Hsc), deliver_spTimers.
    rewrite (ep_timers _ _ _ _ Hep). f_equal.
    apply list_filter_iff. intros q. by rewrite Hd0.
  - rewrite (sc_clock _ _ _ Hsc), deliver_clock, (ep_clock _ _ _ _ Hep).
    subst w0. by rewrite deliver_clock.
  - rewrite (sc_handler _ _ _ Hsc), deliver_handler,
      (ep_handler _ _ _ _ Hep). subst w0. by rewrite deliver_handler.
  - rewrite (sc_setitimer_ok _ _ _ Hsc), deliver_setitimer_ok,
      (ep_setitimer_ok _ _ _ _ Hep). subst w0.
    by rewrite deliver_setitimer_ok.
  - intros q Hq. rewrite Hh', <- Hh0. apply (ep_heap_rest _ _ _ _ Hep).
    by rewrite Hd0.
  - intros q Hq Hd. rewrite Hh', <- Hh0.
    apply (ep_heap_due _ _ _ _ Hep); [done|by rewrite Hd0].
  - destruct (ep_trace _ _ _ _ Hep) as (ex & Hex & Hin). exists ex. split.
    + rewrite (sc_trace _ _ _ Hsc), deliver_trace, Hex. subst w0.
      by rewrite deliver_trace.
    + intros q Hq Hd. apply Hin; [done|by rewrite Hd0].
  - destruct (deliver_signals (set_sRescheduleNeeded false w))
      as (c0 & Hc0 & _ & Hb0).
    destruct (ep_signals _ _ _ _ Hep) as (c1 & Hc1 & Hf1).
    destruct (deliver_signals w1) as (c2 & Hc2 & Hf2 & _).
    destruct (sc_signals _ _ _ Hsc) as (c3 & Hc3 & Hf3).
    exists (c0 ++ c1 ++ c2 ++ c3). split.
    + simpl in Hc0. rewrite Hc0. fold w0. rewrite Hc1, Hc2, Hc3.
      by rewrite <- !app_assoc.
    + rewrite !elem_of_app. intros Hsome. apply Hf3.
      destruct Hsome as [Hs|[Hs|[Hs|Hs]]]; [left|left|left|by right];
        apply Hf2; [left|left|by right]; apply Hf1; [left|by right].
      destruct (deliver_signals (set_sRescheduleNeeded false w))
        as (c0' & Hc0' & Hf0 & _).
      assert (c0' = c0) as ->.
      { simpl in Hc0, Hc0'. rewrite Hc0 in Hc0' at 1.
        by apply app_inv_tail in Hc0'. }
      apply Hf0. by right.
Qed.

(** The same for [Reschedule]: every due member has had its [OnExpire]
    called while it was a member. *)
Lemma Reschedule_dispatched fuel w w' v :
  spTimers w = Some v →
  Reschedule overrides fuel w = Ok w' →
  ∀ q, q ∈ v → is_due w (clock w) q = true →
  ∃ w1 w2,
    OnExpire overrides q w1 = Ok w2 ∧ q ∈ timers w1 ∧
    (∃ ex1, trace w1 = TrExpired (clock w) q :: ex1 ++ trace w) ∧
    (∃ ex2, trace w' = ex2 ++ trace w2) ∧
    heap w' !! q = heap w2 !! q ∧
    (∀ r, r ∈ timers w1 → r ∈ v).
Proof.
  intros Hv Hres q Hq Hdq.
  rewrite Reschedule_unfold in Hres by (by rewrite Hv).
  destruct (expiry_pass _ _ _ _) as [wp| | |] eqn:Hpass; try done.
  simpl in Hres. apply schedule_next_Ok in Hres as Hsc.
  set (w0 := deliver (set_sRescheduleNeeded false w)) in *.
  assert (Hv0 : spTimers w0 = Some v) by (subst w0; by rewrite deliver_spTimers).
  destruct (expiry_pass_dispatched _ Hpassive _ _ _ _ v Hv0 Hpass q Hq)
    as (w1 & w2 & Hcall & Hmem & [ex1 Hex1] & [ex2 Hex2] & Hheap & Hsub).
  { unfold is_due. subst w0. rewrite deliver_heap. exact Hdq. }
  exists w1; exists w2. split; [done|]. split; [done|].
  split; [|split; [|split; [|done]]].
  - exists ex1. rewrite Hex1. subst w0. by rewrite deliver_trace.
  - exists ex2. by rewrite (sc_trace _ _ _ Hsc), deliver_trace.
  - by rewrite (sc_heap _ _ _ Hsc), deliver_heap.
Qed.

Lemma Reschedule_returns fuel w v :
  returning overrides →
  spTimers w = Some v →
  Forall (λ p, is_Some (heap w !! p)) v →
  setitimer_ok w = true →
  (length v < fuel)%nat →
  ∃ w', Reschedule overrides fuel w = Ok w'.
Proof.
  intros Hret Hv Halive Hok Hfuel.
  rewrite Reschedule_unfold by (by rewrite Hv).
  destruct (expiry_pass_returns _ Hpassive fuel (clock w)
              (deliver (set_sRescheduleNeeded false w)) v Hret)
    as [w1 Hpass]; try done.
  { by rewrite deliver_spTimers. }
  { eapply Forall_impl; [exact Halive|]. simpl. intros q.
    by rewrite deliver_heap. }
  rewrite Hpass. simpl.
  apply (expiry_pass_Ok _ Hpassive _ _ _ _ v) in Hpass as Hep;
    [|by rewrite deliver_spTimers].
  apply (schedule_next_returns _ _
           (filter (λ p, is_due (deliver (set_sRescheduleNeeded false w))
                           (clock w) p = false) v)).
  - by rewrite deliver_spTimers, (ep_timers _ _ _ _ Hep).
  - rewrite Forall_forall. intros q [_ Hq]%list_elem_of_filter.
    rewrite deliver_heap.
    apply (expired_post_alive _ _ _ _ q Hep). rewrite deliver_heap. simpl.
    rewrite Forall_forall in Halive. by apply Halive.
  - rewrite deliver_setitimer_ok, (ep_setitimer_ok _ _ _ _ Hep).
    by rewrite deliver_setitimer_ok.
Qed.

End ReschedulePassive.

(** ** Deadlines within range *)

Lemma is_due_deadline w timeNow p t :
  heap w !! p = Some t → in_range timeNow → in_range (mExpires t) →
  is_due w timeNow p = true ↔ mExpires t <= timeNow.
Proof.
  intros Ht Hnow Hexp. unfold is_due, GetExpiryTime. rewrite Ht.
  rewrite to_int64_diff by done. rewrite Z.leb_le. lia.
Qed.

Lemma is_due_future w timeNow p t :
  heap w !! p = Some t → in_range timeNow → in_range (mExpires t) →
  is_due w timeNow p = false ↔ timeNow < mExpires t.
Proof.
  intros Ht Hnow Hexp. unfold is_due, GetExpiryTime. rewrite Ht.
  rewrite to_int64_diff by done. rewrite Z.leb_gt. lia.
Qed.

Lemma time_to_expiry_in_range w timeNow p t :
  heap w !! p = Some t → in_range timeNow → in_range (mExpires t) →
  time_to_expiry w timeNow p = mExpires t - timeNow.
Proof.
  intros Ht Hnow Hexp. unfold time_to_expiry, GetExpiryTime. rewrite Ht.
  by apply to_int64_diff.
Qed.

(** ** The overrides of the concrete processes *)

Lemma frame_refl p w : is_Some (heap w !! p) → frame p w w.
Proof.
  intros [t Ht]. constructor; try done.
  - by exists [].
  - by exists t; exists t.
Qed.

Lemma idle_passive : passive idle.
Proof. intros k p w Hp. by apply frame_refl. Qed.

Lemma idle_returning : returning idle.
Proof. intros k p w _. by exists w. Qed.

Lemma throwing_passive : passive throwing.
Proof. intros k p w Hp. by apply frame_refl. Qed.

(** ** The expiry pass (lines 142-176, 348-357) *)



Lemma dutiful_passive : passive dutiful.
Proof.
  intros k p w [t Ht]. unfold dutiful.
  by destruct (Timer_OnExpire_spec p w t Ht) as (w' & -> & Hfr & _).
Qed.

Lemma dutiful_returning : returning dutiful.
Proof.
  intros k p w [t Ht]. unfold dutiful.
  destruct (Timer_OnExpire_spec p w t Ht) as (w' & -> & _). by exists w'.
Qed.

Lemma three_timers_in_range : times_in_range three_timers.
Proof.
  split; [by vm_compute|]. compute_done.
Qed.

Lemma three_timers_alive : members_alive three_timers.
Proof.
  unfold members_alive. compute_done.
Qed.


(** The run of the witness: timer 2, of a subclass that calls the base
    behaviour, and timer 1 have fired, in the order of the vector. *)
Example three_timers_dutiful :
  ∃ w', Reschedule dutiful 4 three_timers = Ok w' ∧
    timers w' = [3%nat] ∧
    heap w' !! 1%nat = Some (mkTimer 500 true None) ∧
    heap w' !! 2%nat = Some (mkTimer 1000 true (Some 0%nat)) ∧
    trace w' = [TrNotExpired 1000 3 1; TrFired 2; TrExpired 1000 2;
                TrFired 1; TrExpired 1000 1].
Proof. eexists. split; [by vm_compute|]. by vm_compute. Qed.

(** The trace of the witness: after each dispatch the scan starts again at
    the head of the vector (newest event first). *)
Example three_timers_trace :
  ∃ w', Reschedule idle 4 three_timers = Ok w' ∧
    trace w' = [TrNotExpired 1000 3 1; TrExpired 1000 2; TrFired 1;
                TrExpired 1000 1].
Proof. eexists. split; by vm_compute. Qed.

(** ** The selection pass and the interval timer (lines 181-213) *)

Lemma settled_clamped timeNow w' p :
  settled timeNow w' → in_range timeNow →
  map_Forall (λ _ t, in_range (mExpires t)) (heap w') →
  p ∈ timers w' →
  ∃ t, heap w' !! p = Some t ∧ timeNow < mExpires t ∧
       clamped w' timeNow p = mExpires t - timeNow.
Proof.
  intros Hst Hnow Hrange Hp.
  pose proof (st_none_due _ _ Hst) as Hall. rewrite Forall_forall in Hall.
  destruct (Hall p Hp) as [[t Ht] Hnd].
  pose proof (Hrange p t Ht) as Hexp. simpl in Hexp.
  exists t. split; [done|].
  apply (is_due_future _ _ _ t) in Hnd; try done. split; [done|].
  unfold clamped. rewrite (time_to_expiry_in_range _ _ _ t) by done. lia.
Qed.

(** C2. When [Reschedule] returns, then if the set is empty the interval
    timer is disarmed ([it_value] is zero), and otherwise it is armed with
    [max (d, 1)] microseconds, [d] being the least [expires_at - now] over
    the members, [now] the time that [Reschedule] read; a member due one
    microsecond after [now] gives [it_value = (0 s, 1 us)]. With overrides
    that leave the scheduler alone and return, live members, an OS that
    accepts [setitimer] and enough fuel, [Reschedule] does return. *)
Theorem Reschedule_arms_earliest overrides fuel w :
  is_Some (spTimers w) → in_range (clock w) →
  (∀ w', Reschedule overrides fuel w = Ok w' →
     map_Forall (λ _ t, in_range (mExpires t)) (heap w') →
     (timers w' = [] → itimer w' = (0, 0)) ∧
     (timers w' ≠ [] →
        ∃ p t, p ∈ timers w' ∧ heap w' !! p = Some t ∧
          (∀ q tq, q ∈ timers w' → heap w' !! q = Some tq →
                   mExpires t - clock w <= mExpires tq - clock w) ∧
          armed_delay w' = Z.max (mExpires t - clock w) 1) ∧
     (∀ p t, p ∈ timers w' → heap w' !! p = Some t →
             mExpires t = clock w + 1 → itimer w' = (0, 1))) ∧
  (passive overrides → returning overrides → members_alive w →
   setitimer_ok w = true → (length (timers w) < fuel)%nat →
   ∃ w', Reschedule overrides fuel w = Ok w').
Proof.
  intros [v Hv] Hnow. split.
  - intros w' Hres Hrange.
    pose proof (Reschedule_settled _ _ _ _ Hres) as Hst.
    destruct (st_itimer _ _ Hst) as (t & Hsel & Hit).
    apply selection_pass_min in Hsel.
    split; [|split].
    + intros Hempty. rewrite Hempty in Hsel. subst t. by rewrite Hit.
    + intros Hne. destruct (timers w') as [|p0 rest] eqn:Htimers; [done|].
      destruct Hsel as (Hpos & (p & Hp & Ht) & Hleast).
      rewrite <- Htimers in *.
      destruct (settled_clamped _ _ p Hst Hnow Hrange Hp)
        as (tp & Htp & Hfut & Hcl).
      exists p; exists tp. split; [done|]. split; [done|]. split.
      * intros q tq Hq Htq.
        destruct (settled_clamped _ _ q Hst Hnow Hrange Hq)
          as (tq' & Htq' & _ & Hclq).
        rewrite Htq in Htq'. injection Htq' as <-.
        specialize (Hleast q Hq). lia.
      * rewrite (armed_delay_selected _ t Hit). lia.
    + intros p tp Hp Htp Hone.
      destruct (timers w') as [|p0 rest] eqn:Htimers;
        [by apply elem_of_nil in Hp|].
      destruct Hsel as (Hpos & _ & Hleast).
      rewrite <- Htimers in *.
      destruct (settled_clamped _ _ p Hst Hnow Hrange Hp)
        as (tp' & Htp' & _ & Hcl).
      rewrite Htp in Htp'. injection Htp' as <-.
      specialize (Hleast p Hp).
      assert (t = 1) as -> by lia. by rewrite Hit.
  - intros Hpassive Hret Halive Hok Hfuel.
    unfold members_alive, timers in *. rewrite Hv in *. simpl in *.
    by apply (Reschedule_returns _ Hpassive fuel w v).
Qed.

Lemma Reschedule_arms_earliest_witness :
  ∃ w', Reschedule idle 4 three_timers = Ok w' ∧
    (∃ p t, p ∈ timers w' ∧ heap w' !! p = Some t ∧
       (∀ q tq, q ∈ timers w' → heap w' !! q = Some tq →
                mExpires t - 1000 <= mExpires tq - 1000) ∧
       armed_delay w' = Z.max (mExpires t - 1000) 1) ∧
    itimer w' = (0, 1).
Proof.
  destruct (Reschedule_arms_earliest idle 4 three_timers) as [Hpost Hret].
  { by eexists. }
  { by vm_compute. }
  destruct Hret as [w' Hres].
  { exact idle_passive. }
  { exact idle_returning. }
  { exact three_timers_alive. }
  { reflexivity. }
  { simpl. lia. }
  exists w'. split; [exact Hres|].
  assert (Hw' : timers w' = [3%nat] ∧
                heap w' !! 3%nat = Some (mkTimer 1001 false None) ∧
                map_Forall (λ _ t, in_range (mExpires t)) (heap w')).
  { vm_compute in Hres. injection Hres as <-.
    split; [reflexivity|]. split; [reflexivity|]. compute_done. }
  destruct Hw' as (Htimers & Hthree & Hrange).
  destruct (Hpost w' Hres Hrange) as (_ & Harmed & Hone). split.
  - apply Harmed. by rewrite Htimers.
  - apply (Hone 3%nat (mkTimer 1001 false None)).
    + rewrite Htimers. by left.
    + exact Hthree.
    + reflexivity.
Defined.

(** The run of the witness: timer 3, due at 1001, is what is left at 1000,
    and the interval timer is set to one microsecond. *)
Example three_timers_rescheduled :
  ∃ w', Reschedule idle 4 three_timers = Ok w' ∧
        timers w' = [3%nat] ∧ itimer w' = (0, 1) ∧
        sRescheduleNeeded w' = false ∧
        heap w' !! 1%nat = Some (mkTimer 500 true None) ∧
        heap w' !! 2%nat = Some (mkTimer 1000 false (Some 0%nat)).
Proof. eexists. split; [by vm_compute|]. by vm_compute. Qed.

(** ** An [OnExpire] that throws (lines 153-164) *)

(** C3, as stated, fails: the [OnExpire] of timer 1 is called with timer 1
    in the set, and the exception it throws leaves [Reschedule] with timer 1
    still in the set. *)
Lemma Reschedule_throw_counterexample :
  OnExpire throwing 1 one_thrower_dispatching
  = Threw (UserException 7) one_thrower_dispatching ∧
  Reschedule throwing 4 one_thrower
  = Threw (UserException 7) one_thrower_dispatching ∧
  timers one_thrower_dispatching = [1%nat].
Proof. split; [|split]; by vm_compute. Qed.

(** C3, amended. A dispatched timer is erased from the set after its
    [OnExpire] has returned (line 160, then line 161). When an exception
    leaves [Reschedule], either it is the internal error of a rejected
    [setitimer], or it was thrown by the [OnExpire] of a due member [p]:
    [OnExpire] was called with [p] in the set, and [p] is still in the set
    in the world the exception carries. *)
Theorem Reschedule_throw_keeps_timer overrides fuel w v e w' :
  passive overrides →
  spTimers w = Some v →
  Reschedule overrides fuel w = Threw e w' →
  (e = CommonException_Internal ∧ setitimer_ok w = false) ∨
  (∃ p w1, OnExpire overrides p w1 = Threw e w' ∧
     p ∈ v ∧ is_due w (clock w) p = true ∧
     p ∈ timers w1 ∧ p ∈ timers w').
Proof.
  intros Hpassive Hv. rewrite Reschedule_unfold by (by rewrite Hv).
  destruct (expiry_pass _ _ _ _) as [w1|e1 w1| |] eqn:Hpass; try done.
  - simpl. intros Hsched. left.
    apply schedule_next_Threw in Hsched as [-> Hok]. split; [done|].
    apply (expiry_pass_Ok _ Hpassive _ _ _ _ v) in Hpass;
      [|by rewrite deliver_spTimers].
    rewrite deliver_setitimer_ok, (ep_setitimer_ok _ _ _ _ Hpass) in Hok.
    by rewrite deliver_setitimer_ok in Hok.
  - simpl. intros [= <- <-]. right.
    apply (expiry_pass_Threw _ Hpassive _ _ _ _ _ v) in Hpass
      as (p & w0 & Hcall & Hp & Hp0 & Hp' & Hd & _);
      [|by rewrite deliver_spTimers].
    exists p; exists w0. rewrite deliver_is_due in Hd. done.
Qed.

Lemma Reschedule_throw_keeps_timer_witness :
  (UserException 7 = CommonException_Internal ∧
   setitimer_ok one_thrower = false) ∨
  (∃ p w1, OnExpire throwing p w1
           = Threw (UserException 7) one_thrower_dispatching ∧
     p ∈ [1%nat] ∧ is_due one_thrower (clock one_thrower) p = true ∧
     p ∈ timers w1 ∧ p ∈ timers one_thrower_dispatching).
Proof.
  apply (Reschedule_throw_keeps_timer throwing 4 one_thrower [1%nat]).
  - exact throwing_passive.
  - reflexivity.
  - by vm_compute.
Defined.

(** ** Reschedule when nothing is due *)

(** With no due member the pass calls no [OnExpire]: one scan, and only the
    trace and the interruption points have moved. *)
Lemma expiry_pass_quiescent overrides fuel timeNow w v :
  spTimers w = Some v →
  Forall (λ q, is_Some (heap w !! q) ∧ is_due w timeNow q = false) v →
  ∃ ex, expiry_pass overrides (S fuel) timeNow w = Ok (TRACEs ex (deliver w)).
Proof.
  intros Hv Hall. simpl. rewrite Hv.
  pose proof (scan_spec timeNow v 0 (deliver w)) as Hscan.
  destruct (scan timeNow v 0 (deliver w)) as [j p w1|w1|].
  - destruct Hscan as (pre & post & ex & -> & _ & _ & Hdue & _).
    rewrite deliver_is_due in Hdue. rewrite Forall_forall in Hall.
    destruct (Hall p) as [_ Hnd]; [apply elem_of_middle; by left|].
    congruence.
  - destruct Hscan as (_ & ex & ->). by exists ex.
  - destruct Hscan as (q & Hq & Hnone). rewrite deliver_heap in Hnone.
    rewrite Forall_forall in Hall. destruct (Hall q Hq) as [[t Ht] _].
    congruence.
Qed.

Lemma Reschedule_quiescent overrides fuel w v :
  spTimers w = Some v →
  Forall (λ q, is_Some (heap w !! q) ∧ is_due w (clock w) q = false) v →
  setitimer_ok w = true →
  ∃ w', Reschedule overrides (S fuel) w = Ok w' ∧
        unchanged w w' ∧ settled (clock w) w'.
Proof.
  intros Hv Hall Hok.
  rewrite Reschedule_unfold by (by rewrite Hv).
  set (w0 := deliver (set_sRescheduleNeeded false w)).
  destruct (expiry_pass_quiescent overrides fuel (clock w) w0 v) as [ex Hpass].
  { subst w0. by rewrite deliver_spTimers. }
  { eapply Forall_impl; [exact Hall|]. simpl. intros q. subst w0.
    by rewrite deliver_heap, deliver_is_due. }
  rewrite Hpass. simpl.
  destruct (schedule_next_returns (clock w)
              (deliver (TRACEs ex (deliver w0))) v) as [w' Hsched].
  { subst w0. by rewrite deliver_spTimers; simpl; rewrite !deliver_spTimers. }
  { eapply Forall_impl; [exact Hall|]. simpl. intros q [Hq _]. subst w0.
    by rewrite deliver_heap; simpl; rewrite !deliver_heap. }
  { subst w0. by rewrite deliver_setitimer_ok; simpl;
      rewrite !deliver_setitimer_ok. }
  exists w'. split; [done|].
  assert (Hres : Reschedule overrides (S fuel) w = Ok w').
  { rewrite Reschedule_unfold by (by rewrite Hv). fold w0.
    rewrite Hpass. exact Hsched. }
  split; [|by apply (Reschedule_settled _ _ _ _ Hres)].
  apply schedule_next_Ok in Hsched as Hsc. subst w0. constructor.
  - rewrite (sc_spTimers _ _ _ Hsc), deliver_spTimers. simpl.
    by rewrite !deliver_spTimers.
  - rewrite (sc_heap _ _ _ Hsc), deliver_heap. simpl.
    by rewrite !deliver_heap.
  - rewrite (sc_clock _ _ _ Hsc), deliver_clock. simpl.
    by rewrite !deliver_clock.
  - rewrite (sc_handler _ _ _ Hsc), deliver_handler. simpl.
    by rewrite !deliver_handler.
  - rewrite (sc_setitimer_ok _ _ _ Hsc), deliver_setitimer_ok. simpl.
    by rewrite !deliver_setitimer_ok.
  - exists ex. rewrite (sc_trace _ _ _ Hsc), deliver_trace. simpl.
    by rewrite !deliver_trace.
Qed.

(** Two settled worlds with the same set, objects and time read have the
    same interval timer. *)
Lemma settled_itimer timeNow w w' :
  settled timeNow w → settled timeNow w' →
  spTimers w' = spTimers w → heap w' = heap w → itimer w' = itimer w.
Proof.
  intros Hst Hst' Hv Hh.
  destruct (st_itimer _ _ Hst) as (t & Hsel & ->).
  destruct (st_itimer _ _ Hst') as (t' & Hsel' & ->).
  unfold timers in *. rewrite Hv in Hsel'.
  rewrite (selection_pass_heap _ _ _ _ _ Hh) in Hsel'. congruence.
Qed.

(** ** Remove (lines 97-118) *)

Lemma find_timer_spec rTimer v : ∀ i,
  match find_timer rTimer v i with
  | Some j => ∃ pre post, v = pre ++ rTimer :: post ∧ (rTimer ∉ pre) ∧
                j = (i + length pre)%nat
  | None => rTimer ∉ v
  end.
Proof.
  induction v as [|p v IH]; intros i; simpl.
  - apply not_elem_of_nil.
  - case_bool_decide as Heq.
    + subst p. exists nil; exists v. split; [done|].
      split; [apply not_elem_of_nil|simpl; lia].
    + specialize (IH (S i)). destruct (find_timer rTimer v (S i)) as [j|].
      * destruct IH as (pre & post & -> & Hpre & ->).
        exists (p :: pre); exists post. split; [done|]. split.
        -- by apply not_elem_of_cons.
        -- simpl. lia.
      * by apply not_elem_of_cons.
Qed.

(** The loop of [Remove] takes every entry equal to [&rTimer] out of the
    vector and leaves the others in their order. *)
Lemma remove_loop_filter rTimer : ∀ n v,
  (length v <= n)%nat →
  remove_loop n rTimer v = filter (λ p, p ≠ rTimer) v.
Proof.
  induction n as [|n IH]; intros v Hlen.
  - destruct v; [done|simpl in Hlen; lia].
  - simpl. pose proof (find_timer_spec rTimer v 0) as Hfind.
    destruct (find_timer rTimer v 0) as [j|].
    + destruct Hfind as (pre & post & -> & Hpre & ->). simpl.
      rewrite delete_middle. rewrite IH.
      * rewrite !filter_app. f_equal.
        by rewrite filter_cons_False by (intros H; by apply H).
      * rewrite length_app in *. simpl in Hlen. lia.
    + symmetry. apply filter_all_true. rewrite Forall_forall.
      intros q Hq ->. done.
Qed.

Lemma Remove_unfold overrides fuel rTimer w v :
  spTimers w = Some v →
  Remove overrides fuel rTimer w
  = Reschedule overrides fuel
      (set_spTimers (Some (filter (λ p, p ≠ rTimer) v)) w).
Proof.
  intros Hv. unfold Remove. rewrite Hv.
  rewrite bool_decide_true by done. simpl.
  by rewrite remove_loop_filter.
Qed.

Lemma set_spTimers_same w v : spTimers w = Some v → set_spTimers (Some v) w = w.
Proof. destruct w. simpl. by intros ->. Qed.

(** C4. [Remove(t)] takes every entry for [t] out of the vector, however
    often [t] had been added, so that [t] is not a member when [Remove]
    returns; [Remove] of a timer that is not a member is [Reschedule] and
    nothing else; and a second [Remove(t)] right after the first returns
    too and leaves the set, the objects, the interval timer and the clock
    as the first one left them. [Remove] returns whenever the overrides of
    the due members leave the scheduler alone and return, the members are
    live, the OS accepts [setitimer] and there is fuel for one run of the
    expiry loop per member. *)
Theorem Remove_removes_every_reference overrides fuel rTimer w v :
  passive overrides → returning overrides →
  spTimers w = Some v → members_alive w → setitimer_ok w = true →
  (length v < fuel)%nat →
  remove_loop (length v) rTimer v = filter (λ p, p ≠ rTimer) v ∧
  (rTimer ∉ v →
     Remove overrides fuel rTimer w = Reschedule overrides fuel w) ∧
  ∃ w1, Remove overrides fuel rTimer w = Ok w1 ∧ (rTimer ∉ timers w1) ∧
    ∃ w2, Remove overrides fuel rTimer w1 = Ok w2 ∧
      spTimers w2 = spTimers w1 ∧ heap w2 = heap w1 ∧
      itimer w2 = itimer w1 ∧ clock w2 = clock w1.
Proof.
  intros Hpassive Hret Hv Halive Hok Hfuel.
  split; [by apply remove_loop_filter|]. split.
  { intros Hnot. rewrite (Remove_unfold _ _ _ _ v Hv).
    rewrite (filter_all_true _ v).
    - by rewrite set_spTimers_same.
    - rewrite Forall_forall. by intros q Hq ->. }
  unfold members_alive, timers in Halive. rewrite Hv in Halive.
  simpl in Halive.
  set (vr := filter (λ p, p ≠ rTimer) v).
  set (wr := set_spTimers (Some vr) w).
  assert (Hlen : (length vr <= length v)%nat) by apply length_filter.
  destruct (Reschedule_returns _ Hpassive fuel wr vr) as [w1 Hres1];
    try done.
  { rewrite Forall_forall. intros q [_ Hq]%list_elem_of_filter.
    rewrite Forall_forall in Halive. by apply Halive. }
  { lia. }
  assert (Hvr : spTimers wr = Some vr) by done.
  pose proof (Reschedule_Ok _ Hpassive _ _ _ _ Hvr Hres1) as Hrs.
  exists w1. split; [by rewrite (Remove_unfold _ _ _ _ v Hv)|].
  assert (Hnot1 : rTimer ∉ timers w1).
  { unfold timers. rewrite (rs_timers _ _ _ Hrs). simpl.
    intros [_ Hin]%list_elem_of_filter.
    apply list_elem_of_filter in Hin as [Hne _]. done. }
  split; [done|].
  destruct (spTimers w1) as [v1|] eqn:Hv1;
    [|by rewrite (rs_timers _ _ _ Hrs) in Hv1].
  assert (Htimers1 : timers w1 = v1) by (unfold timers; by rewrite Hv1).
  rewrite Htimers1 in Hnot1.
  rewrite (Remove_unfold _ _ _ _ v1 Hv1).
  rewrite (filter_all_true _ v1)
    by (rewrite Forall_forall; by intros q Hq ->).
  rewrite set_spTimers_same by done.
  pose proof (rs_settled _ _ _ Hrs) as Hst1.
  assert (Hclock : clock w1 = clock w) by apply (rs_clock _ _ _ Hrs).
  change (clock wr) with (clock w) in Hst1. rewrite <- Hclock in Hst1.
  destruct fuel as [|fuel']; [lia|].
  destruct (Reschedule_quiescent overrides fuel' w1 v1) as (w2 & Hres2 & Hun & Hst2);
    try done.
  { pose proof (st_none_due _ _ Hst1) as Hall. by rewrite Htimers1 in Hall. }
  { by rewrite (rs_setitimer_ok _ _ _ Hrs). }
  exists w2. split; [done|].
  rewrite <- Hv1.
  split; [apply (un_spTimers _ _ Hun)|]. split; [apply (un_heap _ _ Hun)|].
  split; [|apply (un_clock _ _ Hun)].
  apply (settled_itimer (clock w1)); try done.
  - apply (un_spTimers _ _ Hun).
  - apply (un_heap _ _ Hun).
Qed.

Lemma Remove_removes_every_reference_witness :
  remove_loop 5 2 [2; 1; 2; 3; 2]%nat
  = filter (λ p, p ≠ 2%nat) [2; 1; 2; 3; 2]%nat ∧
  (2%nat ∉ [2; 1; 2; 3; 2]%nat →
     Remove idle 6 2 duplicates = Reschedule idle 6 duplicates) ∧
  ∃ w1, Remove idle 6 2 duplicates = Ok w1 ∧ (2%nat ∉ timers w1) ∧
    ∃ w2, Remove idle 6 2 w1 = Ok w2 ∧
      spTimers w2 = spTimers w1 ∧ heap w2 = heap w1 ∧
      itimer w2 = itimer w1 ∧ clock w2 = clock w1.
Proof.
  apply (Remove_removes_every_reference idle 6 2 duplicates
           [2; 1; 2; 3; 2]%nat).
  - exact idle_passive.
  - exact idle_returning.
  - reflexivity.
  - unfold members_alive. compute_done.
  - reflexivity.
  - simpl. lia.
Defined.

(** The run of the witness: timer 3 is what is left, and the interval
    timer is set for its deadline. *)
Example duplicates_removed :
  ∃ w1, Remove idle 6 2 duplicates = Ok w1 ∧
        timers w1 = [3%nat] ∧ itimer w1 = (0, 6000) ∧
        heap w1 !! 1%nat = Some (mkTimer 500 true None).
Proof. eexists. split; [by vm_compute|]. by vm_compute. Qed.

(** ** Cleanup (lines 53-71) and what comes after it *)

Lemma Cleanup_Ok w :
  is_Some (spTimers w) → setitimer_ok w = true → handler w = true →
  Cleanup w
  = Ok (set_spTimers None (set_handler false (set_itimer (0, 0) w))).
Proof.
  intros Hset Hok Hh. unfold Cleanup, setitimer.
  rewrite bool_decide_true by done. rewrite Hok. simpl.
  by rewrite Hh.
Qed.

Lemma Remove_no_set overrides fuel rTimer w :
  spTimers w = None →
  Remove overrides fuel rTimer w = Threw CommonException_AssertFailed w.
Proof.
  intros Hnone. unfold Remove. rewrite Hnone.
  rewrite bool_decide_false; [done|]. by intros [? ?].
Qed.

Lemma Add_no_set overrides fuel rTimer w :
  spTimers w = None →
  Add overrides fuel rTimer w = Threw CommonException_AssertFailed w.
Proof.
  intros Hnone. unfold Add. rewrite Hnone.
  rewrite bool_decide_false; [done|]. by intros [? ?].
Qed.

(** C5, as stated, fails: the destructor of a timer that outlives
    [Cleanup] does call [Timers::Remove], which fails its
    [ASSERT(spTimers)]. *)
Lemma Timer_dtor_after_Cleanup_counterexample :
  after_Cleanup = Ok orphan ∧
  Timer_dtor idle 4 1 orphan
  = Threw CommonException_AssertFailed (TRACE (TrDestroyed 1) orphan).
Proof. split; by vm_compute. Qed.

(** C5, amended. [Cleanup] disarms the interval timer and leaves the
    process without a set. From then on, and whatever the clock shows, no
    [OnExpire] is called: [Reschedule], and [PollIfNeeded] when the flag is
    set, fail [ASSERT(spTimers)] before anything else and leave every object
    as it was. The timers that outlive [Cleanup] keep their fields, but
    their destructor still calls [Timers::Remove], and that fails the same
    assertion; so does the [Timers::Add] of a copy or an assignment. *)
Theorem Cleanup_then_nothing_fires overrides w :
  is_Some (spTimers w) → setitimer_ok w = true → handler w = true →
  ∃ w', Cleanup w = Ok w' ∧
    spTimers w' = None ∧ itimer w' = (0, 0) ∧ heap w' = heap w ∧
    ∀ dt fuel,
      let later := advance dt w' in
      Reschedule overrides fuel later
      = Threw CommonException_AssertFailed later ∧
      PollIfNeeded overrides fuel (RequestReschedule later)
      = Threw CommonException_AssertFailed (RequestReschedule later) ∧
      PollIfNeeded overrides fuel later
      = (if sRescheduleNeeded w' then Threw CommonException_AssertFailed later
         else Ok later) ∧
      ∀ this,
        Timer_dtor overrides fuel this later
        = Threw CommonException_AssertFailed
            (TRACE (TrDestroyed this) later) ∧
        Add overrides fuel this later
        = Threw CommonException_AssertFailed later.
Proof.
  intros Hset Hok Hh. eexists. split; [by apply Cleanup_Ok|].
  split; [done|]. split; [done|]. split; [done|].
  intros dt fuel later.
  assert (Hnone : spTimers later = None) by done.
  split; [by apply Reschedule_no_set|]. split; [|split].
  - unfold PollIfNeeded. simpl. by apply Reschedule_no_set.
  - unfold PollIfNeeded. simpl. destruct (sRescheduleNeeded w); [|done].
    by apply Reschedule_no_set.
  - intros this. split; [|by apply Add_no_set].
    unfold Timer_dtor. by rewrite Remove_no_set.
Qed.

Lemma Cleanup_then_nothing_fires_witness :
  ∃ w', Cleanup running = Ok w' ∧
    spTimers w' = None ∧ itimer w' = (0, 0) ∧ heap w' = heap running ∧
    ∀ dt fuel,
      let later := advance dt w' in
      Reschedule idle fuel later
      = Threw CommonException_AssertFailed later ∧
      PollIfNeeded idle fuel (RequestReschedule later)
      = Threw CommonException_AssertFailed (RequestReschedule later) ∧
      PollIfNeeded idle fuel later
      = (if sRescheduleNeeded w' then Threw CommonException_AssertFailed later
         else Ok later) ∧
      ∀ this,
        Timer_dtor idle fuel this later
        = Threw CommonException_AssertFailed
            (TRACE (TrDestroyed this) later) ∧
        Add idle fuel this later
        = Threw CommonException_AssertFailed later.
Proof.
  apply (Cleanup_then_nothing_fires idle running).
  - by eexists.
  - reflexivity.
  - reflexivity.
Defined.

(** ** A member with the deadline 0 (lines 147-164) *)

(** C9, as stated, fails: the member with [mExpires = 0] is dispatched
    like any timer whose deadline has passed; [Timer::OnExpire] has run on
    it ("timer fired", [mExpired] set) before it is erased. *)
Lemma Reschedule_zero_deadline_counterexample :
  ∃ w', inert_added = Ok w' ∧
    trace w' = [TrFired 1; TrExpired 1000 1; TrInitNoFire 1 0] ∧
    heap w' !! 1%nat = Some (mkTimer 0 true None) ∧
    timers w' = [].
Proof. eexists. split; [by vm_compute|]. by vm_compute. Qed.

(** C9, amended. The expiry pass has no test for [mExpires = 0]: with a
    clock that is not negative, a member whose deadline is 0 has
    [timeToExpiry <= 0], so it is traced as "has expired, triggering it",
    its [OnExpire] is called ([Timer::OnExpire] sets [mExpired]), and it is
    erased from the set. *)
Theorem Reschedule_zero_deadline overrides fuel w v p t :
  passive overrides → returning overrides →
  spTimers w = Some v → members_alive w → setitimer_ok w = true →
  in_range (clock w) → (length v < fuel)%nat →
  p ∈ v → heap w !! p = Some t → mExpires t = 0 →
  ∃ w' ex,
    Reschedule overrides fuel w = Ok w' ∧ trace w' = ex ++ trace w ∧
    TrExpired (clock w) p ∈ ex ∧ (p ∉ timers w') ∧
    (vptr t = None → heap w' !! p = Some (mkTimer 0 true None)).
Proof.
  intros Hpassive Hret Hv Halive Hok Hnow Hfuel Hp Ht Hzero.
  unfold members_alive, timers in Halive. rewrite Hv in Halive.
  destruct (Reschedule_returns _ Hpassive fuel w v Hret Hv Halive Hok Hfuel)
    as [w' Hres].
  pose proof (Reschedule_Ok _ Hpassive _ _ _ _ Hv Hres) as Hrs.
  destruct (rs_trace _ _ _ Hrs) as (ex & Hex & Hin).
  assert (Hdue : is_due w (clock w) p = true).
  { apply (is_due_deadline _ _ _ t); try done.
    - rewrite Hzero. by vm_compute.
    - rewrite Hzero. unfold in_range in Hnow. lia. }
  exists w'; exists ex. split; [done|]. split; [done|].
  split; [by apply Hin|]. split.
  - unfold timers. rewrite (rs_timers _ _ _ Hrs). simpl.
    intros [Hnd _]%list_elem_of_filter. congruence.
  - intros Hbase.
    destruct (rs_heap_due _ _ _ Hrs p Hp Hdue)
      as (t0 & t' & Ht0 & Ht' & _ & _ & Hb).
    rewrite Ht in Ht0. injection Ht0 as <-. rewrite Ht', Hb by done.
    destruct t as [e x k]. simpl in *. by subst.
Qed.

Lemma Reschedule_zero_deadline_witness :
  ∃ w' ex,
    Reschedule idle 4 inert_member = Ok w' ∧
    trace w' = ex ++ trace inert_member ∧
    TrExpired 1000 1 ∈ ex ∧ (1%nat ∉ timers w') ∧
    (vptr (mkTimer 0 false None) = None →
       heap w' !! 1%nat = Some (mkTimer 0 true None)).
Proof.
  apply (Reschedule_zero_deadline idle 4 inert_member [1%nat] 1
           (mkTimer 0 false None)).
  - exact idle_passive.
  - exact idle_returning.
  - reflexivity.
  - unfold members_alive. compute_done.
  - reflexivity.
  - by vm_compute.
  - simpl. lia.
  - by left.
  - reflexivity.
  - reflexivity.
Defined.

(** ** Add, and worlds in which Reschedule returns *)

Lemma Add_unfold overrides fuel rTimer w v :
  spTimers w = Some v →
  Add overrides fuel rTimer w
  = Reschedule overrides fuel (set_spTimers (Some (v ++ [rTimer])) w).
Proof.
  intros Hv. unfold Add. rewrite Hv. by rewrite bool_decide_true by done.
Qed.

Lemma Reschedule_total overrides fuel w v :
  passive overrides → returning overrides →
  spTimers w = Some v →
  Forall (λ p, is_Some (heap w !! p)) v →
  setitimer_ok w = true →
  (length v < fuel)%nat →
  ∃ w', Reschedule overrides fuel w = Ok w' ∧ rescheduled v w w'.
Proof.
  intros Hpassive Hret Hv Halive Hok Hfuel.
  destruct (Reschedule_returns _ Hpassive fuel w v Hret Hv Halive Hok Hfuel)
    as [w' Hres].
  exists w'. split; [done|]. by apply (Reschedule_Ok _ Hpassive fuel).
Qed.

Lemma rescheduled_timers v w w' :
  rescheduled v w w' →
  timers w' = filter (λ p, is_due w (clock w) p = false) v.
Proof. intros Hrs. unfold timers. by rewrite (rs_timers _ _ _ Hrs). Qed.

Lemma rescheduled_member v w w' q :
  rescheduled v w w' →
  q ∈ timers w' ↔ q ∈ v ∧ is_due w (clock w) q = false.
Proof.
  intros Hrs. rewrite (rescheduled_timers _ _ _ Hrs).
  rewrite list_elem_of_filter. tauto.
Qed.

Lemma rescheduled_alive v w w' :
  rescheduled v w w' → Forall (λ p, is_Some (heap w' !! p)) (timers w').
Proof.
  intros Hrs. pose proof (st_none_due _ _ (rs_settled _ _ _ Hrs)) as Hall.
  eapply Forall_impl; [exact Hall|]. by intros q [Hq _].
Qed.

Lemma rescheduled_range v w w' :
  rescheduled v w w' → times_in_range w → times_in_range w'.
Proof.
  intros Hrs [Hnow Hrange]. split; [by rewrite (rs_clock _ _ _ Hrs)|].
  intros q t' Ht'. simpl.
  destruct (decide (q ∈ v ∧ is_due w (clock w) q = true)) as [[Hq Hd]|Hn].
  - destruct (rs_heap_due _ _ _ Hrs q Hq Hd) as (t & t0 & Ht & Ht0 & He & _).
    rewrite Ht' in Ht0. injection Ht0 as <-. rewrite He.
    by apply (Hrange q t).
  - rewrite (rs_heap_rest _ _ _ Hrs q Hn) in Ht'. by apply (Hrange q t').
Qed.

(** A timer that [Reschedule] finds with its deadline in the future is
    left as it is. *)
Lemma rescheduled_future v w w' p t :
  rescheduled v w w' → times_in_range w →
  heap w !! p = Some t → clock w < mExpires t →
  heap w' !! p = Some t ∧ (p ∈ timers w' ↔ p ∈ v).
Proof.
  intros Hrs [Hnow Hrange] Ht Hfut.
  assert (Hnd : is_due w (clock w) p = false).
  { apply (is_due_future _ _ _ t); try done. by apply (Hrange p). }
  split.
  - rewrite (rs_heap_rest _ _ _ Hrs p); [done|]. intros [_ Hd]. congruence.
  - rewrite (rescheduled_member _ _ _ p Hrs). tauto.
Qed.

(** A timer that is not in the set is left as it is. *)
Lemma rescheduled_outsider v w w' p :
  rescheduled v w w' → p ∉ v →
  heap w' !! p = heap w !! p ∧ p ∉ timers w'.
Proof.
  intros Hrs Hnot. split.
  - apply (rs_heap_rest _ _ _ Hrs p). by intros [Hin _].
  - rewrite (rescheduled_member _ _ _ p Hrs). by intros [Hin _].
Qed.

(** A timer that [Reschedule] finds in the set with its deadline reached
    is dispatched and erased. *)
Lemma rescheduled_due v w w' p t :
  rescheduled v w w' → times_in_range w →
  p ∈ v → heap w !! p = Some t → mExpires t <= clock w →
  (p ∉ timers w') ∧
  (vptr t = None → heap w' !! p = Some (set_mExpired true t)).
Proof.
  intros Hrs [Hnow Hrange] Hp Ht Hle.
  assert (Hdue : is_due w (clock w) p = true).
  { apply (is_due_deadline _ _ _ t); try done. by apply (Hrange p). }
  split.
  - rewrite (rescheduled_member _ _ _ p Hrs). intros [_ Hnd]. congruence.
  - intros Hbase.
    destruct (rs_heap_due _ _ _ Hrs p Hp Hdue)
      as (t0 & t' & Ht0 & Ht' & _ & _ & Hb).
    rewrite Ht in Ht0. injection Ht0 as <-. by rewrite Ht', Hb.
Qed.

(** ** The constructor from a timeout (lines 234-264) *)

Lemma new_deadline now timeoutSecs :
  0 <= timeoutSecs → in_range now →
  in_range (now + timeoutSecs * 1000000) →
  to_int64 (now + SecondsToBoxTime timeoutSecs) = now + timeoutSecs * 1000000.
Proof.
  unfold in_range, SecondsToBoxTime, MICRO_SEC_IN_SEC. intros HT Hnow Hsum.
  rewrite (to_int64_id (timeoutSecs * 1000000)) by lia.
  apply to_int64_id. lia.
Qed.

Lemma times_in_range_insert w p t :
  times_in_range w → in_range (mExpires t) →
  times_in_range (set_heap (<[p := t]> (heap w)) w).
Proof.
  intros [Hnow Hrange] Ht. split; [done|]. simpl.
  by apply map_Forall_insert_2.
Qed.

Lemma alive_insert (h : gmap nat Timer) p t q :
  is_Some (h !! q) → is_Some (<[p := t]> h !! q).
Proof. intros Hq. rewrite lookup_insert_is_Some. destruct (decide (p = q)); auto. Qed.

(** C6. Constructing a [Timer] with the timeout 0 gives an inert timer:
    [mExpires] is 0, [mExpired] is false, and [Timers] is not called, so the
    set and the interval timer are as before; not being in the set, it is
    never touched by a later [Reschedule], whatever the clock. Constructing
    it with a timeout of [T > 0] seconds gives [mExpires = now + T * 10^6],
    [now] being the clock at the construction, [mExpired] false, and the
    timer is in the set when the constructor returns. *)
Theorem Timer_ctor_spec overrides fuel this timeoutSecs w :
  0 <= timeoutSecs → times_in_range w →
  in_range (clock w + timeoutSecs * 1000000) →
  (timeoutSecs = 0 →
     ∃ w', Timer_ctor overrides fuel this timeoutSecs w = Ok w' ∧
       heap w' !! this = Some (mkTimer 0 false None) ∧
       spTimers w' = spTimers w ∧ itimer w' = itimer w ∧
       (passive overrides → this ∉ timers w →
        ∀ dt fuel' w'',
          Reschedule overrides fuel' (advance dt w') = Ok w'' →
          heap w'' !! this = Some (mkTimer 0 false None) ∧
          this ∉ timers w'')) ∧
  (0 < timeoutSecs →
   passive overrides → returning overrides →
   is_Some (spTimers w) → members_alive w → setitimer_ok w = true →
   (length (timers w) + 1 < fuel)%nat →
     ∃ w', Timer_ctor overrides fuel this timeoutSecs w = Ok w' ∧
       heap w' !! this
       = Some (mkTimer (clock w + timeoutSecs * 1000000) false None) ∧
       this ∈ timers w').
Proof.
  intros HT Hrange Hsum. split.
  - intros ->. unfold Timer_ctor. simpl. eexists. split; [done|]. simpl.
    split; [by rewrite lookup_insert_eq|]. split; [done|]. split; [done|].
    intros Hpassive Hnot dt fuel' w'' Hres.
    match type of Hres with Reschedule _ _ ?w1 = _ => set (w' := w1) in * end.
    destruct (spTimers w') as [v|] eqn:Hv;
      [|by rewrite Reschedule_no_set in Hres].
    pose proof (Reschedule_Ok _ Hpassive _ _ _ _ Hv Hres) as Hrs.
    assert (Hnotv : this ∉ v).
    { unfold timers in Hnot. subst w'. simpl in Hv. by rewrite Hv in Hnot. }
    destruct (rescheduled_outsider _ _ _ this Hrs Hnotv) as [Hh Hm].
    split; [|done]. rewrite Hh. subst w'. simpl. by rewrite lookup_insert_eq.
  - intros Hpos Hpassive Hret [v Hv] Halive Hok Hfuel.
    unfold members_alive, timers in *. rewrite Hv in *. simpl in *.
    unfold Timer_ctor, GetCurrentBoxTime.
    rewrite (proj2 (Z.eqb_neq timeoutSecs 0)) by lia.
    rewrite new_deadline by (try done; apply Hrange).
    set (obj := mkTimer (clock w + timeoutSecs * 1000000) false None).
    set (wt := TRACE _ _).
    assert (Hvt : spTimers wt = Some v) by done.
    rewrite (Add_unfold _ _ _ _ v Hvt).
    set (wa := set_spTimers (Some (v ++ [this])) wt).
    destruct (Reschedule_total overrides fuel wa (v ++ [this]))
      as (w' & Hres & Hrs); try done.
    { rewrite Forall_app. split.
      - eapply Forall_impl; [exact Halive|]. simpl. intros q.
        apply alive_insert.
      - constructor; [|done]. simpl. rewrite lookup_insert_eq. by eexists. }
    { rewrite length_app. simpl. lia. }
    exists w'. split; [done|].
    assert (Hrange_a : times_in_range wa).
    { apply (times_in_range_insert w this obj Hrange). exact Hsum. }
    destruct (rescheduled_future _ _ _ this obj Hrs Hrange_a) as [Hh Hm].
    { simpl. by rewrite lookup_insert_eq. }
    { simpl. lia. }
    split; [done|]. apply Hm. rewrite elem_of_app. right. by left.
Qed.

Lemma running_in_range : times_in_range running.
Proof. split; [by vm_compute|]. compute_done. Qed.

Lemma running_alive : members_alive running.
Proof. unfold members_alive. compute_done. Qed.

Lemma Timer_ctor_spec_witness :
  (∃ w', Timer_ctor idle 4 2 0 running = Ok w' ∧
     heap w' !! 2%nat = Some (mkTimer 0 false None) ∧
     spTimers w' = spTimers running ∧ itimer w' = itimer running ∧
     (passive idle → 2%nat ∉ timers running →
      ∀ dt fuel' w'',
        Reschedule idle fuel' (advance dt w') = Ok w'' →
        heap w'' !! 2%nat = Some (mkTimer 0 false None) ∧
        2%nat ∉ timers w'')) ∧
  (∃ w', Timer_ctor idle 4 2 5 running = Ok w' ∧
     heap w' !! 2%nat = Some (mkTimer (1000 + 5 * 1000000) false None) ∧
     2%nat ∈ timers w').
Proof.
  split.
  - destruct (Timer_ctor_spec idle 4 2 0 running) as [Hinert _].
    + lia.
    + exact running_in_range.
    + by vm_compute.
    + apply Hinert. reflexivity.
  - destruct (Timer_ctor_spec idle 4 2 5 running) as [_ Harmed].
    + lia.
    + exact running_in_range.
    + by vm_compute.
    + apply Harmed.
      * lia.
      * exact idle_passive.
      * exact idle_returning.
      * by eexists.
      * exact running_alive.
      * reflexivity.
      * simpl. lia.
Defined.

(** The two runs of the witness. *)
Example Timer_ctor_runs :
  (∃ w', Timer_ctor idle 4 2 0 running = Ok w' ∧
         timers w' = [1%nat] ∧ itimer w' = (5, 0)) ∧
  (∃ w', Timer_ctor idle 4 2 3 running = Ok w' ∧
         timers w' = [1; 2]%nat ∧ itimer w' = (3, 0) ∧
         heap w' !! 2%nat = Some (mkTimer 3001000 false None)).
Proof. split; eexists; (split; [by vm_compute|]); by vm_compute. Qed.

(** ** Remove and Add under passive overrides that return *)

Section Total.

Variable overrides : nat → nat → World → Result.
Hypothesis Hpassive : passive overrides.
Hypothesis Hreturning : returning overrides.

Lemma Remove_total fuel rTimer w v :
  spTimers w = Some v →
  Forall (λ p, is_Some (heap w !! p)) v →
  setitimer_ok w = true →
  (length v < fuel)%nat →
  ∃ w', Remove overrides fuel rTimer w = Ok w' ∧
    rescheduled (filter (λ p, p ≠ rTimer) v)
      (set_spTimers (Some (filter (λ p, p ≠ rTimer) v)) w) w'.
Proof.
  intros Hv Halive Hok Hfuel. rewrite (Remove_unfold _ _ _ _ v Hv).
  apply Reschedule_total; try done.
  - rewrite Forall_forall. intros q [_ Hq]%list_elem_of_filter.
    rewrite Forall_forall in Halive. by apply Halive.
  - pose proof (length_filter (λ p, p ≠ rTimer) v). lia.
Qed.

Lemma Add_total fuel rTimer w v :
  spTimers w = Some v →
  Forall (λ p, is_Some (heap w !! p)) v →
  is_Some (heap w !! rTimer) →
  setitimer_ok w = true →
  (length v + 1 < fuel)%nat →
  ∃ w', Add overrides fuel rTimer w = Ok w' ∧
    rescheduled (v ++ [rTimer]) (set_spTimers (Some (v ++ [rTimer])) w) w'.
Proof.
  intros Hv Halive Hp Hok Hfuel. rewrite (Add_unfold _ _ _ _ v Hv).
  apply Reschedule_total; try done.
  - rewrite Forall_app. split; [done|]. by constructor.
  - rewrite length_app. simpl. lia.
Qed.

End Total.

(** ** The copy constructor (lines 278-310) *)

Lemma times_in_range_lookup w p t :
  times_in_range w → heap w !! p = Some t → in_range (mExpires t).
Proof. intros [_ Hrange] Ht. by apply (Hrange p t). Qed.

Lemma not_member_of_dead w p :
  members_alive w → heap w !! p = None → p ∉ timers w.
Proof.
  intros Halive Hnone Hin. unfold members_alive in Halive.
  rewrite Forall_forall in Halive. apply Halive in Hin.
  rewrite Hnone in Hin. by destruct Hin.
Qed.

Lemma sound_timers n w : sound n w → spTimers w = Some (timers w).
Proof. intros [[v Hv] _ _ _ _]. unfold timers. by rewrite Hv. Qed.

Lemma rescheduled_sound n v w w' :
  rescheduled v w w' → (length v <= n)%nat →
  setitimer_ok w = true → times_in_range w → sound n w'.
Proof.
  intros Hrs Hlen Hok Hrange. constructor.
  - rewrite (rs_timers _ _ _ Hrs). by eexists.
  - rewrite (rescheduled_timers _ _ _ Hrs).
    pose proof (length_filter (λ p, is_due w (clock w) p = false) v). lia.
  - by apply (rescheduled_alive v w).
  - by rewrite (rs_setitimer_ok _ _ _ Hrs).
  - by apply (rescheduled_range v w).
Qed.

Section Lifecycle.

Variable overrides : nat → nat → World → Result.
Hypothesis Hpassive : passive overrides.
Hypothesis Hreturning : returning overrides.

(** The destructor takes the timer out of the set and leaves the timers
    that are not due as they are. *)
Lemma Timer_dtor_spec fuel n this w :
  sound n w → (n < fuel)%nat →
  ∃ w', Timer_dtor overrides fuel this w = Ok w' ∧
    heap w' !! this = None ∧ (this ∉ timers w') ∧ clock w' = clock w ∧
    sound n w' ∧
    ∀ q t, q ≠ this → heap w !! q = Some t → clock w < mExpires t →
      heap w' !! q = Some t ∧ (q ∈ timers w' ↔ q ∈ timers w).
Proof.
  intros Hs Hfuel. unfold Timer_dtor.
  set (wd := TRACE (TrDestroyed this) w).
  assert (Hvd : spTimers wd = Some (timers w)) by apply (sound_timers n w Hs).
  destruct (Remove_total overrides Hpassive Hreturning fuel this wd (timers w))
    as (w1 & Hrem & Hrs); try done.
  { apply (sd_alive _ _ Hs). }
  { apply (sd_ok _ _ Hs). }
  { pose proof (sd_length _ _ Hs). lia. }
  rewrite Hrem. simpl. eexists. split; [done|]. simpl.
  set (vr := filter (λ p, p ≠ this) (timers w)) in *.
  set (wr := set_spTimers (Some vr) wd) in *.
  assert (Hrange_r : times_in_range wr) by apply (sd_range _ _ Hs).
  assert (Hlen_r : (length vr <= n)%nat).
  { pose proof (length_filter (λ p, p ≠ this) (timers w)).
    pose proof (sd_length _ _ Hs). subst vr. lia. }
  pose proof (rescheduled_sound n _ _ _ Hrs Hlen_r (sd_ok _ _ Hs) Hrange_r)
    as Hs1.
  assert (Hnot1 : this ∉ timers w1).
  { rewrite (rescheduled_member _ _ _ this Hrs). intros [Hin _].
    apply list_elem_of_filter in Hin as [Hne _]. done. }
  split; [by rewrite lookup_delete_eq|]. split; [done|].
  split; [apply (rs_clock _ _ _ Hrs)|]. split.
  - constructor; simpl.
    + apply (sd_set _ _ Hs1).
    + apply (sd_length _ _ Hs1).
    + unfold members_alive. simpl. rewrite Forall_forall. intros q Hq.
      change (q ∈ timers w1) in Hq.
      rewrite lookup_delete_ne by (intros ->; done).
      pose proof (sd_alive _ _ Hs1) as Hal. unfold members_alive in Hal.
      rewrite Forall_forall in Hal. by apply Hal.
    + apply (sd_ok _ _ Hs1).
    + destruct (sd_range _ _ Hs1) as [Hnow Hr]. split; [done|]. simpl.
      by apply map_Forall_delete.
  - intros q t Hne Ht Hfut.
    destruct (rescheduled_future _ _ _ q t Hrs Hrange_r Ht Hfut) as [Hh Hm].
    rewrite lookup_delete_ne by done. split; [done|].
    change (q ∈ timers w1 ↔ q ∈ timers w). rewrite Hm. subst vr.
    rewrite list_elem_of_filter. tauto.
Qed.

(** A member fires in a [Reschedule] that comes when its deadline has been
    reached. *)
Lemma Reschedule_later fuel n dt q t w :
  sound n w → (n < fuel)%nat → in_range (clock w + dt) →
  q ∈ timers w → heap w !! q = Some t →
  mExpires t <= clock w + dt →
  ∃ w' ex, Reschedule overrides fuel (advance dt w) = Ok w' ∧
    trace w' = ex ++ trace w ∧ TrExpired (clock w + dt) q ∈ ex ∧
    (q ∉ timers w') ∧
    (vptr t = None → heap w' !! q = Some (set_mExpired true t)).
Proof.
  intros Hs Hfuel Hnow Hq Ht Hle.
  destruct (Reschedule_total overrides fuel (advance dt w) (timers w))
    as (w' & Hres & Hrs); try done.
  { apply (sound_timers n w Hs). }
  { apply (sd_alive _ _ Hs). }
  { apply (sd_ok _ _ Hs). }
  { pose proof (sd_length _ _ Hs). lia. }
  assert (Hrange : times_in_range (advance dt w)).
  { split; [done|]. apply (sd_range _ _ Hs). }
  destruct (rescheduled_due _ _ _ q t Hrs Hrange Hq Ht Hle) as [Hm Hh].
  destruct (rs_trace _ _ _ Hrs) as (ex & Hex & Hin).
  exists w'; exists ex. split; [done|]. split; [done|]. split; [|done].
  apply Hin; [done|].
  apply (is_due_deadline _ _ _ t); try done.
  apply (times_in_range_lookup _ _ _ (sd_range _ _ Hs) Ht).
Qed.

(** And it stays as it is in a [Reschedule] that comes before. *)
Lemma Reschedule_earlier fuel n dt q t w :
  sound n w → (n < fuel)%nat → in_range (clock w + dt) →
  heap w !! q = Some t →
  clock w + dt < mExpires t →
  ∃ w', Reschedule overrides fuel (advance dt w) = Ok w' ∧
    heap w' !! q = Some t ∧ (q ∈ timers w' ↔ q ∈ timers w).
Proof.
  intros Hs Hfuel Hnow Ht Hlt.
  destruct (Reschedule_total overrides fuel (advance dt w) (timers w))
    as (w' & Hres & Hrs); try done.
  { apply (sound_timers n w Hs). }
  { apply (sd_alive _ _ Hs). }
  { apply (sd_ok _ _ Hs). }
  { pose proof (sd_length _ _ Hs). lia. }
  assert (Hrange : times_in_range (advance dt w)).
  { split; [done|]. apply (sd_range _ _ Hs). }
  exists w'. split; [done|].
  by apply (rescheduled_future _ _ _ q t Hrs Hrange).
Qed.

End Lifecycle.

(** C8, as stated, fails: timer 1 is not expired and its [mExpires] is
    not 0, yet copying it changes it. The [Reschedule] that [Add] runs for
    the copy dispatches both: timer 1 comes out expired and out of the set,
    and so does the copy. *)
Lemma Timer_copy_ctor_counterexample :
  heap overdue !! 1%nat = Some (mkTimer 500 false None) ∧
  timers overdue = [1%nat] ∧
  ∃ w', Timer_copy_ctor idle 4 2 1 overdue = Ok w' ∧
    heap w' !! 1%nat = Some (mkTimer 500 true None) ∧
    heap w' !! 2%nat = Some (mkTimer 500 true None) ∧
    timers w' = [].
Proof.
  split; [reflexivity|]. split; [reflexivity|].
  eexists. split; [by vm_compute|]. by vm_compute.
Qed.

(** C8, amended. The copy [t2] of a timer [t1], constructed in fresh
    storage, has the [mExpires] and the [mExpired] of [t1]. If [t1] is inert
    or expired, [Timers] is not called: [t2] is not in the set and [t1] is
    as it was. If [t1] is not expired and its deadline is still in the
    future, [t2] is in the set as a member of its own and [t1] keeps its
    fields and its place in the set; when [t1] is then destroyed, [t2] is
    still in the set with its deadline, and a [Reschedule] at any time from
    that deadline on fires [t2]. *)
Theorem Timer_copy_ctor_spec overrides fuel n this rToCopy w from :
  passive overrides → returning overrides →
  sound n w → (n + 1 < fuel)%nat →
  heap w !! this = None → heap w !! rToCopy = Some from →
  (mExpires from = 0 ∨ mExpired from = true →
     ∃ w', Timer_copy_ctor overrides fuel this rToCopy w = Ok w' ∧
       heap w' !! this
       = Some (mkTimer (mExpires from) (mExpired from) None) ∧
       heap w' !! rToCopy = Some from ∧
       spTimers w' = spTimers w ∧ (this ∉ timers w')) ∧
  (mExpired from = false → clock w < mExpires from →
     ∃ w', Timer_copy_ctor overrides fuel this rToCopy w = Ok w' ∧
       heap w' !! this = Some (mkTimer (mExpires from) false None) ∧
       heap w' !! rToCopy = Some from ∧
       (rToCopy ∈ timers w' ↔ rToCopy ∈ timers w) ∧
       this ∈ timers w' ∧ this ≠ rToCopy ∧
       ∃ w'', Timer_dtor overrides fuel rToCopy w' = Ok w'' ∧
         heap w'' !! rToCopy = None ∧ (rToCopy ∉ timers w'') ∧
         heap w'' !! this = Some (mkTimer (mExpires from) false None) ∧
         this ∈ timers w'' ∧
         ∀ dt, in_range (clock w + dt) → mExpires from <= clock w + dt →
           ∃ w3 ex, Reschedule overrides fuel (advance dt w'') = Ok w3 ∧
             trace w3 = ex ++ trace w'' ∧
             TrExpired (clock w + dt) this ∈ ex ∧
             heap w3 !! this = Some (mkTimer (mExpires from) true None) ∧
             (this ∉ timers w3)).
Proof.
  intros Hpassive Hret Hs Hfuel Hfresh Hfrom.
  assert (Hne : this ≠ rToCopy) by (intros ->; congruence).
  assert (Hnotin : this ∉ timers w).
  { apply not_member_of_dead; [apply (sd_alive _ _ Hs)|done]. }
  split.
  - intros Hdormant. unfold Timer_copy_ctor. rewrite Hfrom. simpl.
    assert (negb (mExpired from) && negb (mExpires from =? 0) = false)
      as ->.
    { destruct Hdormant as [->| ->]; [|done]. simpl. apply andb_false_r. }
    eexists. split; [done|]. simpl.
    split; [by rewrite lookup_insert_eq|].
    split; [by rewrite lookup_insert_ne|]. done.
  - intros Hlive Hfut. unfold Timer_copy_ctor. rewrite Hfrom. simpl.
    pose proof (sd_range _ _ Hs) as Hrange.
    pose proof (times_in_range_lookup _ _ _ Hrange Hfrom) as Hexp.
    assert (Hnow : in_range (clock w)) by apply Hrange.
    rewrite Hlive. simpl.
    rewrite (proj2 (Z.eqb_neq (mExpires from) 0))
      by (unfold in_range in Hnow; lia). simpl.
    set (obj := mkTimer (mExpires from) false None).
    set (wt := TRACE _ _).
    destruct (Add_total overrides Hpassive Hret fuel this wt (timers w))
      as (w' & Hadd & Hrs); try done.
    { apply (sound_timers n w Hs). }
    { pose proof (sd_alive _ _ Hs) as Hal. unfold members_alive in Hal.
      eapply Forall_impl; [exact Hal|]. simpl. intros q. apply alive_insert. }
    { simpl. rewrite lookup_insert_eq. by eexists. }
    { apply (sd_ok _ _ Hs). }
    { pose proof (sd_length _ _ Hs). lia. }
    exists w'. split; [done|].
    set (wa := set_spTimers (Some (timers w ++ [this])) wt) in *.
    assert (Hrange_a : times_in_range wa).
    { apply (times_in_range_insert w this obj Hrange). exact Hexp. }
    destruct (rescheduled_future _ _ _ this obj Hrs Hrange_a) as [Hh2 Hm2].
    { simpl. by rewrite lookup_insert_eq. }
    { done. }
    destruct (rescheduled_future _ _ _ rToCopy from Hrs Hrange_a)
      as [Hh1 Hm1].
    { simpl. by rewrite lookup_insert_ne. }
    { done. }
    assert (Hin2 : this ∈ timers w').
    { apply Hm2. rewrite elem_of_app. right. by left. }
    assert (Hin1 : rToCopy ∈ timers w' ↔ rToCopy ∈ timers w).
    { rewrite Hm1, elem_of_app, list_elem_of_singleton.
      split; [intros [?|?]; [done|by subst]|by left]. }
    do 5 (split; [done|]).
    assert (Hs' : sound (n + 1) w').
    { apply (rescheduled_sound _ _ _ _ Hrs); try done.
      - rewrite length_app. simpl. pose proof (sd_length _ _ Hs). lia.
      - apply (sd_ok _ _ Hs). }
    assert (Hclock' : clock w' = clock w) by apply (rs_clock _ _ _ Hrs).
    destruct (Timer_dtor_spec overrides Hpassive Hret fuel (n + 1)
                rToCopy w' Hs' Hfuel)
      as (w'' & Hdel & Hgone & Hout & Hclock'' & Hs'' & Hkeep).
    exists w''. split; [done|]. split; [done|]. split; [done|].
    destruct (Hkeep this obj Hne Hh2) as [Hh2' Hm2'];
      [by rewrite Hclock'|].
    split; [done|]. split; [by apply Hm2'|].
    intros dt Hlater Hle.
    destruct (Reschedule_later overrides Hpassive Hret fuel (n + 1) dt
                this obj w'' Hs'' Hfuel)
      as (w3 & ex & Hres3 & Hex3 & Hin3 & Hm3 & Hh3); try done.
    { by rewrite Hclock'', Hclock'. }
    { by apply Hm2'. }
    { rewrite Hclock'', Hclock'. done. }
    exists w3; exists ex. rewrite Hclock'', Hclock' in Hin3.
    do 3 (split; [done|]). split; [by apply Hh3|done].
Qed.

Lemma mixed_sound : sound 1 mixed.
Proof.
  constructor.
  - by eexists.
  - simpl. lia.
  - unfold members_alive. compute_done.
  - reflexivity.
  - split; [by vm_compute|]. compute_done.
Qed.

Lemma Timer_copy_ctor_spec_witness :
  (∃ w', Timer_copy_ctor idle 4 2 3 mixed = Ok w' ∧
     heap w' !! 2%nat = Some (mkTimer 0 false None) ∧
     heap w' !! 3%nat = Some (mkTimer 0 false None) ∧
     spTimers w' = spTimers mixed ∧ (2%nat ∉ timers w')) ∧
  (∃ w', Timer_copy_ctor idle 4 2 1 mixed = Ok w' ∧
     heap w' !! 2%nat = Some (mkTimer 5001000 false None) ∧
     heap w' !! 1%nat = Some (mkTimer 5001000 false None) ∧
     (1%nat ∈ timers w' ↔ 1%nat ∈ timers mixed) ∧
     2%nat ∈ timers w' ∧ 2%nat ≠ 1%nat ∧
     ∃ w'', Timer_dtor idle 4 1 w' = Ok w'' ∧
       heap w'' !! 1%nat = None ∧ (1%nat ∉ timers w'') ∧
       heap w'' !! 2%nat = Some (mkTimer 5001000 false None) ∧
       2%nat ∈ timers w'' ∧
       ∀ dt, in_range (1000 + dt) → 5001000 <= 1000 + dt →
         ∃ w3 ex, Reschedule idle 4 (advance dt w'') = Ok w3 ∧
           trace w3 = ex ++ trace w'' ∧
           TrExpired (1000 + dt) 2 ∈ ex ∧
           heap w3 !! 2%nat = Some (mkTimer 5001000 true None) ∧
           (2%nat ∉ timers w3)).
Proof.
  split.
  - destruct (Timer_copy_ctor_spec idle 4 1 2 3 mixed (mkTimer 0 false None))
      as [Hdormant _].
    + exact idle_passive.
    + exact idle_returning.
    + exact mixed_sound.
    + lia.
    + reflexivity.
    + reflexivity.
    + apply Hdormant. by left.
  - destruct (Timer_copy_ctor_spec idle 4 1 2 1 mixed
                (mkTimer 5001000 false None)) as [_ Harmed].
    + exact idle_passive.
    + exact idle_returning.
    + exact mixed_sound.
    + lia.
    + reflexivity.
    + reflexivity.
    + apply Harmed.
      * reflexivity.
      * reflexivity.
Defined.

(** The run of the witness: copy, destroy the source, poll after the
    deadline. *)
Example copy_then_destroy_source :
  ∃ w', (let* w := Timer_copy_ctor idle 4 2 1 mixed in
         let* w := Timer_dtor idle 4 1 w in
         Reschedule idle 4 (advance 5000000 w)) = Ok w' ∧
        timers w' = [] ∧ itimer w' = (0, 0) ∧
        heap w' !! 1%nat = None ∧
        heap w' !! 2%nat = Some (mkTimer 5001000 true None).
Proof. eexists. split; [by vm_compute|]. by vm_compute. Qed.

(** ** The assignment (lines 312-346) *)

(** The first half of the assignment: the destination has left the set,
    and neither it nor the source has been touched. *)
Lemma assign_Remove overrides fuel n this rToCopy w t from :
  passive overrides → returning overrides →
  sound n w → (n + 1 < fuel)%nat →
  heap w !! this = Some t → heap w !! rToCopy = Some from →
  armed w rToCopy from ∨ dormant w rToCopy from →
  ∃ w1, Remove overrides fuel this
          (TRACE (trace_from this rToCopy from) w) = Ok w1 ∧
    sound n w1 ∧ clock w1 = clock w ∧
    timers w1 = filter (λ p, is_due w (clock w) p = false)
                  (filter (λ p, p ≠ this) (timers w)) ∧
    heap w1 !! this = Some t ∧ heap w1 !! rToCopy = Some from ∧
    settled (clock w) w1.
Proof.
  intros Hpassive Hret Hs Hfuel Ht Hfrom Hsource.
  set (wt := TRACE (trace_from this rToCopy from) w).
  destruct (Remove_total overrides Hpassive Hret fuel this wt (timers w))
    as (w1 & Hrem & Hrs); try done.
  { apply (sound_timers n w Hs). }
  { apply (sd_alive _ _ Hs). }
  { apply (sd_ok _ _ Hs). }
  { pose proof (sd_length _ _ Hs). lia. }
  exists w1. split; [done|].
  set (vr := filter (λ p, p ≠ this) (timers w)) in *.
  set (wr := set_spTimers (Some vr) wt) in *.
  assert (Hrange_r : times_in_range wr) by apply (sd_range _ _ Hs).
  assert (Hnot : this ∉ vr).
  { intros [Hne _]%list_elem_of_filter. done. }
  split.
  { apply (rescheduled_sound _ _ _ _ Hrs); try done.
    - pose proof (length_filter (λ p, p ≠ this) (timers w)).
      pose proof (sd_length _ _ Hs). subst vr. lia.
    - apply (sd_ok _ _ Hs). }
  split; [apply (rs_clock _ _ _ Hrs)|].
  split; [apply (rescheduled_timers _ _ _ Hrs)|].
  destruct (rescheduled_outsider _ _ _ this Hrs Hnot) as [Hh _].
  split; [by rewrite Hh|]. split; [|apply (rs_settled _ _ _ Hrs)].
  destruct Hsource as [(Hin & _ & Hfut)|(Hout & _)].
  - by apply (rescheduled_future _ _ _ rToCopy from Hrs Hrange_r).
  - destruct (rescheduled_outsider _ _ _ rToCopy Hrs) as [Hh' _];
      [|by rewrite Hh'].
    intros [_ Hin]%list_elem_of_filter. done.
Qed.

(** The second half when the source is armed: the destination, with its
    new fields, is appended to the set, and nothing is due. *)
Lemma assign_Add overrides fuel n this w1 t' :
  sound n w1 → (n + 1 < fuel)%nat → settled (clock w1) w1 →
  (this ∉ timers w1) → in_range (mExpires t') → clock w1 < mExpires t' →
  let w1' := set_heap (<[this := t']> (heap w1)) w1 in
  ∃ w', Add overrides fuel this w1' = Ok w' ∧
    sound (n + 1) w' ∧ clock w' = clock w1 ∧
    timers w' = timers w1 ++ [this] ∧
    heap w' = <[this := t']> (heap w1) ∧
    settled (clock w1) w'.
Proof.
  intros Hs Hfuel Hst Hnot Hexp Hfut w1'.
  assert (Hv1 : spTimers w1' = Some (timers w1))
    by apply (sound_timers n w1 Hs).
  rewrite (Add_unfold _ _ _ _ _ Hv1).
  set (wa := set_spTimers (Some (timers w1 ++ [this])) w1').
  destruct fuel as [|fuel']; [lia|].
  pose proof (sd_range _ _ Hs) as [Hnow Hrange].
  destruct (Reschedule_quiescent overrides fuel' wa (timers w1 ++ [this]))
    as (w' & Hres & Hun & Hst'); try done.
  { rewrite Forall_app. split.
    - pose proof (st_none_due _ _ Hst) as Hall.
      rewrite Forall_forall in Hall |- *. intros q Hq.
      assert (q ≠ this) by (intros ->; done).
      destruct (Hall q Hq) as [Hal Hnd]. unfold is_due in *. simpl.
      by rewrite lookup_insert_ne.
    - constructor; [|done]. simpl. rewrite lookup_insert_eq.
      split; [by eexists|].
      apply (is_due_future wa _ _ t'); try done.
      simpl. by rewrite lookup_insert_eq. }
  { apply (sd_ok _ _ Hs). }
  exists w'. split; [done|].
  assert (Htimers : timers w' = timers w1 ++ [this]).
  { unfold timers at 1. by rewrite (un_spTimers _ _ Hun). }
  split.
  { constructor.
    - rewrite (un_spTimers _ _ Hun). by eexists.
    - rewrite Htimers, length_app. simpl.
      pose proof (sd_length _ _ Hs). lia.
    - unfold members_alive. pose proof (st_none_due _ _ Hst') as Hall.
      eapply Forall_impl; [exact Hall|]. by intros q [Hq _].
    - rewrite (un_setitimer_ok _ _ Hun). apply (sd_ok _ _ Hs).
    - split; [by rewrite (un_clock _ _ Hun)|].
      rewrite (un_heap _ _ Hun). simpl. by apply map_Forall_insert_2. }
  split; [apply (un_clock _ _ Hun)|]. split; [done|].
  split; [apply (un_heap _ _ Hun)|done].
Qed.

(** C7, as stated, fails: timer 2 is neither expired nor inert, yet after
    [timer 1 = timer 2] timer 1 is not in the set, and timer 2 has changed.
    The [Reschedule] that [Remove] runs dispatches timer 2, so that it is
    expired and out of the set when its fields are read. *)
Lemma Timer_assign_counterexample :
  heap overdue_source !! 2%nat = Some (mkTimer 500 false None) ∧
  timers overdue_source = [1; 2]%nat ∧
  ∃ w', Timer_assign idle 4 1 2 overdue_source = Ok w' ∧
    heap w' !! 1%nat = Some (mkTimer 500 true None) ∧
    heap w' !! 2%nat = Some (mkTimer 500 true None) ∧
    timers w' = [].
Proof.
  split; [reflexivity|]. split; [reflexivity|].
  eexists. split; [by vm_compute|]. by vm_compute.
Qed.

(** C7, amended. In [t = other], with [other] armed (in the set, not
    expired, its deadline still in the future), or inert or expired and out
    of the set: [t] leaves the set, every entry for it ([v1] is the set
    without it, after the [Reschedule] of [Remove]); [t] then has the
    [mExpires] and the [mExpired] of [other]; and [t] is put into the set,
    once, exactly when [other] is neither expired nor inert. [other] keeps
    its fields and its place in, or out of, the set. With [other] armed for
    [T2], [t] is left alone by a [Reschedule] before [T2], whatever deadline
    it had before, and fired by one from [T2] on; with [other] inert or
    expired, no [Reschedule] ever touches [t]. *)
Theorem Timer_assign_spec overrides fuel n this rToCopy w t from :
  passive overrides → returning overrides →
  sound n w → (n + 1 < fuel)%nat →
  heap w !! this = Some t → heap w !! rToCopy = Some from →
  armed w rToCopy from ∨ dormant w rToCopy from →
  ∃ w' v1,
    Timer_assign overrides fuel this rToCopy w = Ok w' ∧
    v1 = filter (λ p, is_due w (clock w) p = false)
           (filter (λ p, p ≠ this) (timers w)) ∧
    timers w' = (if eligible from then v1 ++ [this] else v1) ∧
    heap w' !! this
    = Some (mkTimer (mExpires from) (mExpired from) (vptr t)) ∧
    heap w' !! rToCopy = Some from ∧
    (rToCopy ∈ timers w' ↔ rToCopy ∈ timers w) ∧
    (armed w rToCopy from →
       eligible from = true ∧
       ∀ dt, in_range (clock w + dt) →
         (clock w + dt < mExpires from →
            ∃ w3, Reschedule overrides fuel (advance dt w') = Ok w3 ∧
              this ∈ timers w3 ∧ heap w3 !! this = heap w' !! this) ∧
         (mExpires from <= clock w + dt →
            ∃ w3 ex, Reschedule overrides fuel (advance dt w') = Ok w3 ∧
              trace w3 = ex ++ trace w' ∧
              TrExpired (clock w + dt) this ∈ ex ∧ (this ∉ timers w3))) ∧
    (dormant w rToCopy from →
       eligible from = false ∧
       ∀ dt fuel' w3,
         Reschedule overrides fuel' (advance dt w') = Ok w3 →
         (this ∉ timers w3) ∧ heap w3 !! this = heap w' !! this).
Proof.
  intros Hpassive Hret Hs Hfuel Ht Hfrom Hsource.
  destruct (assign_Remove overrides fuel n this rToCopy w t from)
    as (w1 & Hrem & Hs1 & Hclock1 & Htimers1 & Hh1 & Hh1' & Hst1); try done.
  unfold Timer_assign. rewrite Hfrom, Hrem. simpl. rewrite Hh1, Hh1'.
  set (t' := set_mExpired (mExpired from) (set_mExpires (mExpires from) t)).
  change (negb (mExpired t') && negb (mExpires t' =? 0))
    with (eligible from).
  fold (eligible from).
  set (v1 := filter (λ p, is_due w (clock w) p = false)
               (filter (λ p, p ≠ this) (timers w))) in *.
  assert (Hnot1 : this ∉ v1).
  { subst v1. intros [_ Hin]%list_elem_of_filter.
    apply list_elem_of_filter in Hin as [Hne _]. done. }
  assert (Hsub : ∀ q, q ∈ v1 → q ∈ timers w).
  { subst v1. intros q [_ Hin]%list_elem_of_filter.
    by apply list_elem_of_filter in Hin as [_ Hin]. }
  pose proof (sd_range _ _ Hs) as Hrange.
  pose proof (times_in_range_lookup _ _ _ Hrange Hfrom) as Hexp.
  assert (Hnow : in_range (clock w)) by apply Hrange.
  assert (Hself : rToCopy = this → t' = from).
  { intros ->. rewrite Ht in Hfrom. injection Hfrom as ->.
    subst t'. by destruct from. }
  destruct Hsource as [Harmed|Hdormant].
  - (* the source is armed *)
    destruct Harmed as (Hin & Hlive & Hfut).
    assert (Hel : eligible from = true).
    { unfold eligible. rewrite Hlive. simpl.
      rewrite (proj2 (Z.eqb_neq (mExpires from) 0)); [done|].
      unfold in_range in Hnow. lia. }
    rewrite Hel.
    destruct (assign_Add overrides fuel n this w1 t')
      as (w' & Hadd & Hs' & Hclock' & Htimers' & Hheap' & Hst'); try done.
    { by rewrite Hclock1. }
    { by rewrite Htimers1. }
    { by rewrite Hclock1. }
    exists w'; exists v1. split; [done|]. split; [done|].
    split; [by rewrite Htimers', Htimers1|].
    assert (Hthis' : heap w' !! this = Some t').
    { by rewrite Hheap', lookup_insert_eq. }
    split; [done|].
    assert (Hfrom' : heap w' !! rToCopy = Some from).
    { destruct (decide (rToCopy = this)) as [Heq|Hne].
      - rewrite Heq, Hthis'. f_equal. by apply Hself.
      - by rewrite Hheap', lookup_insert_ne. }
    split; [done|]. split.
    { split; [done|]. intros _. rewrite Htimers', Htimers1.
      rewrite elem_of_app. destruct (decide (rToCopy = this)) as [->|Hne].
      - right. by left.
      - left. fold v1. subst v1. apply list_elem_of_filter. split.
        + apply (is_due_future _ _ _ from); done.
        + by apply list_elem_of_filter. }
    split; [|by intros [Hout _]].
    intros _. split; [done|]. intros dt Hlater.
    assert (Hin' : this ∈ timers w').
    { rewrite Htimers', elem_of_app. right. by left. }
    split.
    + intros Hlt.
      destruct (Reschedule_earlier overrides Hpassive Hret fuel (n + 1) dt
                  this t' w' Hs' Hfuel)
        as (w3 & Hres3 & Hh3 & Hm3); try done.
      { by rewrite Hclock', Hclock1. }
      { rewrite Hclock', Hclock1. done. }
      exists w3. split; [done|]. split; [by apply Hm3|]. by rewrite Hthis'.
    + intros Hle.
      destruct (Reschedule_later overrides Hpassive Hret fuel (n + 1) dt
                  this t' w' Hs' Hfuel)
        as (w3 & ex & Hres3 & Hex3 & Hin3 & Hm3 & _); try done.
      { by rewrite Hclock', Hclock1. }
      { rewrite Hclock', Hclock1. done. }
      exists w3; exists ex. rewrite Hclock', Hclock1 in Hin3. done.
  - (* the source is inert or expired, and out of the set *)
    destruct Hdormant as (Hout & Hwhy).
    assert (Hel : eligible from = false).
    { unfold eligible. destruct Hwhy as [->| ->]; [|done].
      simpl. apply andb_false_r. }
    rewrite Hel.
    eexists; exists v1. split; [done|]. split; [done|]. simpl.
    split; [done|]. split; [by rewrite lookup_insert_eq|].
    split.
    { destruct (decide (rToCopy = this)) as [Heq|Hne].
      - rewrite Heq, lookup_insert_eq. f_equal. by apply Hself.
      - by rewrite lookup_insert_ne. }
    split.
    { change (rToCopy ∈ timers w1 ↔ rToCopy ∈ timers w).
      rewrite Htimers1. fold v1. split; [apply Hsub|done]. }
    split; [intros (Hin & _); done|].
    intros _. split; [done|]. intros dt fuel' w3 Hres3.
    match type of Hres3 with Reschedule _ _ ?x = _ => set (wl := x) in * end.
    assert (Hvl : spTimers wl = Some (timers w1))
      by apply (sound_timers n w1 Hs1).
    pose proof (Reschedule_Ok _ Hpassive _ _ _ _ Hvl Hres3) as Hrs.
    destruct (rescheduled_outsider _ _ _ this Hrs) as [Hh Hm].
    { by rewrite Htimers1. }
    split; [done|]. rewrite Hh. done.
Qed.

Lemma two_armed_sound : sound 2 two_armed.
Proof.
  constructor.
  - by eexists.
  - simpl. lia.
  - unfold members_alive. compute_done.
  - reflexivity.
  - split; [by vm_compute|]. compute_done.
Qed.

Lemma Timer_assign_spec_witness :
  (∃ w', Timer_assign idle 5 1 2 two_armed = Ok w' ∧
     timers w' = [2; 1]%nat ∧
     heap w' !! 1%nat = Some (mkTimer 9001000 false None) ∧
     heap w' !! 2%nat = Some (mkTimer 9001000 false None) ∧
     (∃ w3, Reschedule idle 5 (advance 5000000 w') = Ok w3 ∧
            1%nat ∈ timers w3 ∧ heap w3 !! 1%nat = heap w' !! 1%nat) ∧
     (∃ w3 ex, Reschedule idle 5 (advance 9000000 w') = Ok w3 ∧
            trace w3 = ex ++ trace w' ∧
            TrExpired (1000 + 9000000) 1 ∈ ex ∧ (1%nat ∉ timers w3))) ∧
  (∃ w', Timer_assign idle 5 1 3 two_armed = Ok w' ∧
     timers w' = [2%nat] ∧
     heap w' !! 1%nat = Some (mkTimer 0 false None) ∧
     heap w' !! 3%nat = Some (mkTimer 0 false None) ∧
     ∀ dt fuel' w3,
       Reschedule idle fuel' (advance dt w') = Ok w3 →
       (1%nat ∉ timers w3) ∧ heap w3 !! 1%nat = heap w' !! 1%nat).
Proof.
  split.
  - destruct (Timer_assign_spec idle 5 2 1 2 two_armed
                (mkTimer 5001000 false None) (mkTimer 9001000 false None))
      as (w' & v1 & Hres & Hv1 & Htimers & Hthis & Hother & _ & Harmed & _).
    + exact idle_passive.
    + exact idle_returning.
    + exact two_armed_sound.
    + lia.
    + reflexivity.
    + reflexivity.
    + left. split; [|split]; [|reflexivity|reflexivity].
      right. by left.
    + exists w'. split; [exact Hres|]. rewrite Hv1 in Htimers.
      split; [exact Htimers|]. split; [exact Hthis|].
      split; [exact Hother|].
      destruct Harmed as [_ Hfire].
      { split; [|split]; [|reflexivity|reflexivity]. right. by left. }
      split.
      * apply (Hfire 5000000); by vm_compute.
      * apply (Hfire 9000000); by vm_compute.
  - destruct (Timer_assign_spec idle 5 2 1 3 two_armed
                (mkTimer 5001000 false None) (mkTimer 0 false None))
      as (w' & v1 & Hres & Hv1 & Htimers & Hthis & Hother & _ & _ & Hnever).
    + exact idle_passive.
    + exact idle_returning.
    + exact two_armed_sound.
    + lia.
    + reflexivity.
    + reflexivity.
    + right. split; [|by left]. compute_done.
    + exists w'. split; [exact Hres|]. rewrite Hv1 in Htimers.
      split; [exact Htimers|]. split; [exact Hthis|].
      split; [exact Hother|].
      apply Hnever. split; [|by left]. compute_done.
Defined.

(** The runs of the witness. *)
Example assign_runs :
  (∃ w', Timer_assign idle 5 1 2 two_armed = Ok w' ∧
         timers w' = [2; 1]%nat ∧ itimer w' = (9, 0)) ∧
  (∃ w', Timer_assign idle 5 1 3 two_armed = Ok w' ∧
         timers w' = [2%nat] ∧ itimer w' = (9, 0)).
Proof. split; eexists; (split; [by vm_compute|]); by vm_compute. Qed.

(** ** The reschedule-requested flag (lines 128-138) *)

Lemma OnExpire_silent overrides p w w' :
  silent overrides → OnExpire overrides p w = Ok w' →
  sRescheduleNeeded w' = sRescheduleNeeded w.
Proof.
  intros Hsilent. unfold OnExpire.
  destruct (heap w !! p) as [t|] eqn:Hp; [|done].
  destruct (vptr t) as [k|]; [apply Hsilent|].
  destruct (Timer_OnExpire_spec p w t Hp) as (w1 & -> & _ & _ & _ & Hflag).
  by intros [= <-].
Qed.

Section Flag.

Variable overrides : nat → nat → World → Result.
Hypothesis Hpassive : passive overrides.
Hypothesis Hsilent : silent overrides.

(** If the flag is set after the pass, it was set before it or a signal
    arrived during it. *)
Lemma expiry_pass_flag fuel : ∀ timeNow w w' v,
  spTimers w = Some v →
  expiry_pass overrides fuel timeNow w = Ok w' →
  ∃ consumed, signals w = consumed ++ signals w' ∧
    (sRescheduleNeeded w' = true →
     sRescheduleNeeded w = true ∨ true ∈ consumed).
Proof.
  induction fuel as [|fuel IH]; intros timeNow w w' v Hv; [done|].
  simpl. rewrite Hv.
  pose proof (scan_spec timeNow v 0 (deliver w)) as Hscan.
  destruct (deliver_signals w) as (c0 & Hc0 & _ & Hb0).
  destruct (scan timeNow v 0 (deliver w)) as [j p w1|w1|]; [| |done].
  - destruct Hscan as (pre & post & ex & Hsplit & -> & Hpre & Hdue & ->).
    simpl.
    destruct (OnExpire overrides p _) as [w2| | |] eqn:Hcall; try done.
    simpl. destruct (OnExpire_Ok _ Hpassive _ _ _ Hcall) as [Hfr _].
    pose proof (OnExpire_silent _ _ _ _ Hsilent Hcall) as Hflag2.
    rewrite (expiry_step timeNow w v pre p post ex w2 Hv Hsplit Hfr).
    simpl. intros Hrest.
    set (w3 := set_spTimers (Some (pre ++ post)) (deliver w2)) in *.
    assert (Hv3 : spTimers w3 = Some (pre ++ post)) by done.
    destruct (IH timeNow w3 w' (pre ++ post) Hv3 Hrest) as (c3 & Hc3 & Hb3).
    destruct (deliver_signals w2) as (c2 & Hc2 & _ & Hb2).
    exists (c0 ++ c2 ++ c3). split.
    + rewrite Hc0 at 1. rewrite <- app_assoc. f_equal.
      transitivity (signals w2).
      { by rewrite (frame_signals _ _ _ Hfr). }
      rewrite <- app_assoc, Hc2. f_equal. exact Hc3.
    + intros Hset. rewrite !elem_of_app.
      destruct (Hb3 Hset) as [H3|H3]; [|tauto].
      destruct (Hb2 H3) as [H2|H2]; [|tauto].
      rewrite Hflag2 in H2. simpl in H2.
      destruct (Hb0 H2) as [H0|H0]; tauto.
  - destruct Hscan as (_ & ex & ->). intros [= <-].
    exists c0. split; [done|]. simpl. exact Hb0.
Qed.

Lemma schedule_next_flag timeNow w w' :
  schedule_next timeNow w = Ok w' →
  ∃ consumed, signals w = consumed ++ signals w' ∧
    (sRescheduleNeeded w' = true →
     sRescheduleNeeded w = true ∨ true ∈ consumed).
Proof.
  unfold schedule_next.
  destruct (spTimers w) as [v|] eqn:Hv; [|done].
  destruct (selection_pass timeNow v 0 w) as [t|] eqn:Hsel; [|done].
  rewrite (proj2 (Z.leb_le 0 t)) by (by eapply selection_pass_nonneg).
  simpl. unfold setitimer. rewrite deliver_setitimer_ok.
  destruct (setitimer_ok w) eqn:Hok; [|done]. intros [= <-].
  destruct (deliver_signals w) as (c1 & Hc1 & _ & Hb1).
  destruct (deliver_signals (set_itimer
    (BoxTimeToSeconds t, Z.rem (BoxTimeToMicroSeconds t) MICRO_SEC_IN_SEC)
    (deliver w))) as (c2 & Hc2 & _ & Hb2).
  exists (c1 ++ c2). split.
  - rewrite <- app_assoc, <- Hc2. exact Hc1.
  - intros Hset. rewrite elem_of_app.
    destruct (Hb2 Hset) as [H2|H2]; [|tauto]. simpl in H2.
    destruct (Hb1 H2) as [H1|H1]; tauto.
Qed.

(** If the flag is set when [Reschedule] returns, a signal arrived during
    the call. *)
Lemma Reschedule_flag fuel w w' v :
  spTimers w = Some v →
  Reschedule overrides fuel w = Ok w' →
  ∃ consumed, signals w = consumed ++ signals w' ∧
    (sRescheduleNeeded w' = true → true ∈ consumed).
Proof.
  intros Hv. rewrite Reschedule_unfold by (by rewrite Hv).
  destruct (expiry_pass _ _ _ _) as [w1| | |] eqn:Hpass; try done.
  simpl. intros Hsched.
  destruct (deliver_signals (set_sRescheduleNeeded false w))
    as (c0 & Hc0 & _ & Hb0).
  apply (expiry_pass_flag _ _ _ _ v) in Hpass as (c1 & Hc1 & Hb1);
    [|by rewrite deliver_spTimers].
  destruct (deliver_signals w1) as (c2 & Hc2 & _ & Hb2).
  apply schedule_next_flag in Hsched as (c3 & Hc3 & Hb3).
  exists (c0 ++ c1 ++ c2 ++ c3). split.
  - simpl in Hc0. rewrite Hc0, Hc1, Hc2, Hc3. by rewrite <- !app_assoc.
  - intros Hset. rewrite !elem_of_app.
    destruct (Hb3 Hset) as [H3|H3]; [|tauto].
    destruct (Hb2 H3) as [H2|H2]; [|tauto].
    destruct (Hb1 H2) as [H1|H1]; [|tauto].
    destruct (Hb0 H1) as [H0|H0]; [done|tauto].
Qed.

End Flag.


(** [Reschedule] of the three timers reaches nine interruption points. *)
Example interruption_points :
  ∃ w', Reschedule idle 4 (set_signals (replicate 10 false) three_timers)
        = Ok w' ∧ signals w' = [false].
Proof. eexists. split; by vm_compute. Qed.

(** Wherever among them the handler runs, the flag is set at the end; and
    it is clear if the handler does not run. *)
Example interrupted_anywhere :
  Forall (λ k, ∃ w', Reschedule idle 4 (interrupted k) = Ok w' ∧
                     sRescheduleNeeded w' = true)
         (seq 0 9) ∧
  ∃ w', Reschedule idle 4 three_timers = Ok w' ∧
        sRescheduleNeeded w' = false.
Proof.
  split.
  - repeat constructor; eexists; (split; [by vm_compute|]); by vm_compute.
  - eexists. split; by vm_compute.
Qed.



(** * Further properties of the code *)

(** ** Init and Cleanup (lines 30-71) *)

(** X1. [Timers::Init] returns only in a process that has no set and no SIGALRM
    handler yet; it leaves an empty set and the handler installed, and
    touches neither the objects nor the interval timer. Calling it again
    without a [Cleanup] in between fails [ASSERT(!spTimers)] and leaves the
    process as it is; [Cleanup] then takes the process back to where it was
    before [Init], the interval timer apart, which is disarmed. *)
Theorem Init_once w w' :
  Init w = Ok w' →
  (spTimers w = None ∧ handler w = false) ∧
  (spTimers w' = Some [] ∧ handler w' = true ∧ heap w' = heap w ∧
   itimer w' = itimer w ∧ sRescheduleNeeded w' = sRescheduleNeeded w) ∧
  Init w' = Threw CommonException_AssertFailed w' ∧
  (setitimer_ok w = true → Cleanup w' = Ok (set_itimer (0, 0) w)).
Proof.
  unfold Init, ASSERT.
  destruct (spTimers w) as [v|] eqn:Hv.
  { rewrite bool_decide_true by done. done. }
  rewrite bool_decide_false by (by intros [? ?]). simpl.
  destruct (handler w) eqn:Hh; [done|]. simpl. intros [= <-]. simpl.
  repeat split; try done.
  intros Hok. rewrite Cleanup_Ok by (simpl; done || by eexists).
  destruct w. simpl in *. by subst.
Qed.

Lemma Init_once_witness :
  ∃ w', Init (boot 1000) = Ok w' ∧
    (spTimers (boot 1000) = None ∧ handler (boot 1000) = false) ∧
    (spTimers w' = Some [] ∧ handler w' = true ∧
     heap w' = heap (boot 1000) ∧ itimer w' = itimer (boot 1000) ∧
     sRescheduleNeeded w' = sRescheduleNeeded (boot 1000)) ∧
    Init w' = Threw CommonException_AssertFailed w' ∧
    (setitimer_ok (boot 1000) = true →
     Cleanup w' = Ok (set_itimer (0, 0) (boot 1000))).
Proof.
  eexists. split; [reflexivity|].
  apply (Init_once (boot 1000)). reflexivity.
Defined.

(** X2. After a [Timers::Cleanup] that returned, a second one fails
    [ASSERT(spTimers)] and leaves the process as it is, whereas
    [Timers::Init] succeeds again: it starts from an empty set, so the
    timers that were members when the set was cleaned up, and whose objects
    are all still there, are members no more. *)
Theorem Cleanup_once w w' :
  Cleanup w = Ok w' →
  Cleanup w' = Threw CommonException_AssertFailed w' ∧
  ∃ w'', Init w' = Ok w'' ∧
    timers w'' = [] ∧ heap w'' = heap w ∧ itimer w'' = (0, 0) ∧
    handler w'' = true.
Proof.
  unfold Cleanup at 1. unfold ASSERT, setitimer.
  destruct (spTimers w) as [v|] eqn:Hv;
    [|by rewrite bool_decide_false by (by intros [? ?])].
  rewrite bool_decide_true by done.
  destruct (setitimer_ok w) eqn:Hok; simpl; [|done].
  destruct (handler w) eqn:Hh; [|done]. intros [= <-]. split.
  - by unfold Cleanup, ASSERT.
  - unfold Init, ASSERT. simpl. eexists. split; [done|]. done.
Qed.

Lemma Cleanup_once_witness :
  ∃ w', Cleanup running = Ok w' ∧
    Cleanup w' = Threw CommonException_AssertFailed w' ∧
    ∃ w'', Init w' = Ok w'' ∧
      timers w'' = [] ∧ heap w'' = heap running ∧ itimer w'' = (0, 0) ∧
      handler w'' = true.
Proof.
  eexists. split; [reflexivity|].
  apply (Cleanup_once running). reflexivity.
Defined.

(** X3. A [Timers::Cleanup] that fails has failed an assertion, and has not
    deleted the set. Without a set, or when the OS turns [setitimer] down,
    it leaves the process as it was; when it is the SIGALRM handler that was
    not the one of [Timers], the interval timer has been disarmed and the
    handler reset by then, with the set still standing. *)
Theorem Cleanup_failure w e w' :
  Cleanup w = Threw e w' →
  e = CommonException_AssertFailed ∧
  spTimers w' = spTimers w ∧ heap w' = heap w ∧
  (spTimers w = None ∨ setitimer_ok w = false → w' = w) ∧
  (is_Some (spTimers w) → setitimer_ok w = true →
     handler w = false ∧ itimer w' = (0, 0) ∧ handler w' = false).
Proof.
  unfold Cleanup, ASSERT, setitimer.
  destruct (spTimers w) as [v|] eqn:Hv.
  - rewrite bool_decide_true by done.
    destruct (setitimer_ok w) eqn:Hok; simpl.
    + destruct (handler w) eqn:Hh; [done|]. intros [= <- <-]. simpl.
      repeat split; try done. by intros [?|?].
    + intros [= <- <-]. repeat split; try done.
  - rewrite bool_decide_false by (by intros [? ?]). intros [= <- <-].
    repeat split; try done; by intros [? ?].
Qed.

Lemma Cleanup_failure_witness :
  ∃ w', Cleanup unhandled = Threw CommonException_AssertFailed w' ∧
    CommonException_AssertFailed = CommonException_AssertFailed ∧
    spTimers w' = spTimers unhandled ∧ heap w' = heap unhandled ∧
    (spTimers unhandled = None ∨ setitimer_ok unhandled = false →
       w' = unhandled) ∧
    (is_Some (spTimers unhandled) → setitimer_ok unhandled = true →
       handler unhandled = false ∧ itimer w' = (0, 0) ∧
       handler w' = false).
Proof.
  eexists. split; [reflexivity|].
  apply (Cleanup_failure unhandled). reflexivity.
Defined.

(** ** The interval timer that Reschedule programs (lines 181-207) *)

(** The delay that the selection pass finds is 0 for an empty vector and
    at least 1 otherwise, whatever the deadlines and the time are, also when
    the subtraction of line 187 wraps around. *)
Lemma selection_pass_positive timeNow w v t :
  selection_pass timeNow v 0 w = Some t →
  0 <= t ∧ (t = 0 ↔ v = []).
Proof.
  intros Hsel. apply selection_pass_min in Hsel.
  destruct v as [|p v].
  - by subst t.
  - destruct Hsel as (Hpos & _). split; [lia|]. split; [lia|done].
Qed.

(** X4. Whatever the overrides did, and whatever the deadlines and the clock
    are, a [Reschedule] that returns has programmed a well-formed
    [timeval]: [tv_sec] is not negative and [tv_usec] lies between 0 and
    999999, so that [ASSERT(timeToNextEvent >= 0)] has held and the cast of
    line 206 has changed nothing. The value is the all-zero one, which
    disarms the interval timer, exactly when the set is empty at the return:
    a set with members never goes without a wakeup. *)
Theorem Reschedule_never_disarms overrides fuel w w' :
  Reschedule overrides fuel w = Ok w' →
  0 <= fst (itimer w') ∧ 0 <= snd (itimer w') < MICRO_SEC_IN_SEC ∧
  (itimer w' = (0, 0) ↔ timers w' = []) ∧
  (timers w' ≠ [] → 1 <= armed_delay w').
Proof.
  intros Hres. apply Reschedule_settled in Hres.
  destruct (st_itimer _ _ Hres) as (t & Hsel & Hit).
  apply selection_pass_positive in Hsel as [Hpos Hzero].
  rewrite (armed_delay_selected _ _ Hit), Hit. simpl.
  unfold BoxTimeToSeconds, MICRO_SEC_IN_SEC.
  pose proof (Z.quot_rem' t 1000000) as Hqr.
  pose proof (Z.rem_bound_pos t 1000000 Hpos) as Hrem.
  assert (0 <= t ÷ 1000000) as Hquot by (apply Z.quot_pos; lia).
  split; [done|]. split; [lia|]. split.
  - rewrite <- Hzero. split.
    + intros [= Hq Hr]. lia.
    + intros ->. done.
  - intros Hne. destruct (decide (t = 0)) as [Ht|]; [|lia].
    by apply Hzero in Ht.
Qed.

Lemma Reschedule_never_disarms_witness :
  ∃ w', Reschedule idle 4 three_timers = Ok w' ∧
    0 <= fst (itimer w') ∧ 0 <= snd (itimer w') < MICRO_SEC_IN_SEC ∧
    (itimer w' = (0, 0) ↔ timers w' = []) ∧
    (timers w' ≠ [] → 1 <= armed_delay w').
Proof.
  eexists. split; [reflexivity|].
  apply (Reschedule_never_disarms idle 4 three_timers). reflexivity.
Defined.

(** ** A setitimer that fails (lines 209-213) *)

Lemma schedule_next_refused timeNow w v :
  spTimers w = Some v →
  Forall (λ p, is_Some (heap w !! p)) v →
  setitimer_ok w = false →
  schedule_next timeNow w
  = Threw CommonException_Internal (TRACE TrSetitimerWarning (deliver w)).
Proof.
  intros Hv Halive Hok. unfold schedule_next. rewrite Hv.
  destruct (selection_pass_alive timeNow w v 0 Halive) as [t Hsel].
  rewrite Hsel.
  rewrite (proj2 (Z.leb_le 0 t)) by (by eapply selection_pass_nonneg).
  simpl. unfold setitimer. by rewrite deliver_setitimer_ok, Hok.
Qed.

(** X5. When the OS turns [setitimer] down, [Reschedule] throws
    CommonException(Internal), and it does so after the expiry pass: the
    due members have been traced, dispatched and erased all the same, the
    members that are not due are what is left of the set, the interval
    timer holds what it held, and the warning is the last thing traced. No
    other exception comes out of the lines behind the expiry pass. *)
Theorem Reschedule_setitimer_refused overrides fuel w v :
  passive overrides → returning overrides →
  spTimers w = Some v → members_alive w → setitimer_ok w = false →
  (length v < fuel)%nat →
  (∃ w' ex,
     Reschedule overrides fuel w = Threw CommonException_Internal w' ∧
     timers w' = filter (λ p, is_due w (clock w) p = false) v ∧
     itimer w' = itimer w ∧
     trace w' = TrSetitimerWarning :: ex ++ trace w ∧
     ∀ q, q ∈ v → is_due w (clock w) q = true →
       TrExpired (clock w) q ∈ ex ∧
       ∀ t, heap w !! q = Some t → vptr t = None →
            heap w' !! q = Some (set_mExpired true t)) ∧
  (∀ timeNow w1 e w2, schedule_next timeNow w1 = Threw e w2 →
     e = CommonException_Internal).
Proof.
  intros Hpassive Hret Hv Halive Hok Hfuel. split;
    [|intros timeNow w1 e w2 Hthrew;
      by destruct (schedule_next_Threw _ _ _ _ Hthrew)].
  unfold members_alive, timers in Halive. rewrite Hv in Halive.
  simpl in Halive.
  rewrite Reschedule_unfold by (by rewrite Hv).
  set (w0 := deliver (set_sRescheduleNeeded false w)).
  assert (Hv0 : spTimers w0 = Some v) by (subst w0; by rewrite deliver_spTimers).
  assert (Hh0 : heap w0 = heap w) by (subst w0; by rewrite deliver_heap).
  assert (Hd0 : ∀ q, is_due w0 (clock w) q = is_due w (clock w) q).
  { intros q. unfold is_due. by rewrite Hh0. }
  destruct (expiry_pass_returns _ Hpassive fuel (clock w) w0 v Hret)
    as [w1 Hpass]; try done.
  { by rewrite Hh0. }
  rewrite Hpass. simpl.
  apply (expiry_pass_Ok _ Hpassive _ _ _ _ v Hv0) in Hpass as Hep.
  set (v1 := filter (λ p, is_due w0 (clock w) p = false) v).
  assert (Hv1 : spTimers (deliver w1) = Some v1).
  { by rewrite deliver_spTimers, (ep_timers _ _ _ _ Hep). }
  rewrite (schedule_next_refused _ _ v1 Hv1).
  - destruct (ep_trace _ _ _ _ Hep) as (ex & Hex & Hin).
    eexists; exists ex. split; [done|]. simpl. autorewrite with world.
    split.
    { unfold timers. simpl. autorewrite with world.
      rewrite (ep_timers _ _ _ _ Hep). simpl.
      apply list_filter_iff. intros q. by rewrite Hd0. }
    split.
    { rewrite (ep_itimer _ _ _ _ Hep). subst w0. by rewrite deliver_itimer. }
    split.
    { rewrite Hex. subst w0. by rewrite deliver_trace. }
    intros q Hq Hdue. rewrite <- Hd0 in Hdue. split; [by apply Hin|].
    intros t Ht Hplain.
    destruct (ep_heap_due _ _ _ _ Hep q Hq Hdue)
      as (t0 & t' & Ht0 & Ht' & _ & _ & Hb).
    rewrite Hh0, Ht in Ht0. injection Ht0 as <-. by rewrite Ht', Hb.
  - rewrite Forall_forall. intros q [_ Hq]%list_elem_of_filter.
    rewrite deliver_heap. apply (expired_post_alive _ _ _ _ q Hep).
    rewrite Hh0. rewrite Forall_forall in Halive. by apply Halive.
  - rewrite deliver_setitimer_ok, (ep_setitimer_ok _ _ _ _ Hep).
    subst w0. by rewrite deliver_setitimer_ok.
Qed.

Lemma refused_alive : members_alive refused.
Proof. unfold members_alive. compute_done. Qed.

Lemma Reschedule_setitimer_refused_witness :
  (∃ w' ex,
     Reschedule idle 4 refused = Threw CommonException_Internal w' ∧
     timers w' = filter (λ p, is_due refused (clock refused) p = false)
                   [1; 2; 3]%nat ∧
     itimer w' = itimer refused ∧
     trace w' = TrSetitimerWarning :: ex ++ trace refused ∧
     ∀ q, q ∈ [1; 2; 3]%nat → is_due refused (clock refused) q = true →
       TrExpired (clock refused) q ∈ ex ∧
       ∀ t, heap refused !! q = Some t → vptr t = None →
            heap w' !! q = Some (set_mExpired true t)) ∧
  (∀ timeNow w1 e w2, schedule_next timeNow w1 = Threw e w2 →
     e = CommonException_Internal).
Proof.
  apply (Reschedule_setitimer_refused idle 4 refused [1; 2; 3]%nat).
  - exact idle_passive.
  - exact idle_returning.
  - reflexivity.
  - exact refused_alive.
  - reflexivity.
  - simpl. lia.
Defined.

(** The run of the witness: timers 1 and 2 have gone, timer 1 is expired,
    and the interval timer still holds the 7 s it held. *)
Example refused_run :
  ∃ w', Reschedule idle 4 refused = Threw CommonException_Internal w' ∧
    timers w' = [3%nat] ∧ itimer w' = (7, 0) ∧
    heap w' !! 1%nat = Some (mkTimer 500 true None) ∧
    sRescheduleNeeded w' = false ∧
    trace w' = [TrSetitimerWarning; TrNotExpired 1000 3 1;
                TrExpired 1000 2; TrFired 1; TrExpired 1000 1].
Proof. eexists. split; [by vm_compute|]. by vm_compute. Qed.

(** ** The order of the dispatches (lines 142-176) *)

(** The scan writes "has expired" and "has not expired" to the trace, and
    nothing else. *)
Lemma scan_fired timeNow v : ∀ i w,
  match scan timeNow v i w with
  | ScanHit _ _ w1 | ScanEnd w1 => fired (trace w1) = fired (trace w)
  | ScanUndefined => True
  end.
Proof.
  induction v as [|p v IH]; intros i w; simpl; [done|].
  destruct (heap w !! p) as [t|]; [|done].
  destruct (to_int64 (GetExpiryTime t - timeNow) <=? 0); [done|].
  specialize (IH (S i) (TRACE (TrNotExpired timeNow p
                 (to_int64 (GetExpiryTime t - timeNow))) w)).
  by destruct (scan _ _ _ _).
Qed.

Lemma filter_all_false {A} (P : A → Prop) `{∀ x, Decision (P x)} (l : list A) :
  Forall (λ x, ¬ P x) l → filter P l = [].
Proof.
  induction 1 as [|x l Hx Hl IH]; [done|].
  by rewrite filter_cons_False by done.
Qed.

(** The expiry pass over a vector whose due members are plain timers: no
    override is called, whatever the overrides are. *)
Lemma expiry_pass_fired overrides fuel : ∀ timeNow w v,
  spTimers w = Some v →
  Forall (λ p, is_Some (heap w !! p)) v →
  (∀ p t, p ∈ v → heap w !! p = Some t → is_due w timeNow p = true →
          vptr t = None) →
  (length v < fuel)%nat →
  ∃ w', expiry_pass overrides fuel timeNow w = Ok w' ∧
    fired (trace w')
    = reverse (filter (λ p, is_due w timeNow p = true) v)
      ++ fired (trace w) ∧
    spTimers w' = Some (filter (λ p, is_due w timeNow p = false) v) ∧
    (∀ q, is_Some (heap w !! q) → is_Some (heap w' !! q)) ∧
    setitimer_ok w' = setitimer_ok w.
Proof.
  induction fuel as [|fuel IH]; intros timeNow w v Hv Halive Hplain Hfuel;
    [lia|].
  simpl. rewrite Hv.
  pose proof (scan_spec timeNow v 0 (deliver w)) as Hscan.
  pose proof (scan_fired timeNow v 0 (deliver w)) as Hfired.
  destruct (scan timeNow v 0 (deliver w)) as [j p w1|w1|].
  - destruct Hscan as (pre & post & ex & Hsplit & -> & Hpre & Hdue & Hw1).
    simpl. rewrite deliver_is_due in Hdue. rewrite deliver_trace in Hfired.
    assert (Hin : p ∈ v) by (subst v; apply elem_of_middle; by left).
    rewrite Forall_forall in Halive.
    destruct (Halive p Hin) as [t Ht].
    pose proof (Hplain p t Hin Ht Hdue) as Hnone.
    assert (Ht1 : heap w1 !! p = Some t).
    { subst w1. simpl. by rewrite deliver_heap. }
    destruct (Timer_OnExpire_spec p w1 t Ht1)
      as (w2 & Hcall & Hfr & Ht2 & Htr2 & _).
    unfold OnExpire. rewrite Ht1, Hnone, Hcall. simpl.
    rewrite Hw1 in Hfr.
    rewrite (expiry_step timeNow w v pre p post ex w2 Hv Hsplit Hfr).
    simpl.
    set (w3 := set_spTimers (Some (pre ++ post)) (deliver w2)) in *.
    assert (Hheap3 : ∀ q, q ≠ p → heap w3 !! q = heap w !! q).
    { intros q Hq. subst w3. simpl. rewrite deliver_heap.
      rewrite (frame_others _ _ _ Hfr q Hq). simpl. by rewrite deliver_heap. }
    assert (Ht3 : heap w3 !! p = Some (set_mExpired true t)).
    { subst w3. simpl. by rewrite deliver_heap. }
    assert (Hdue3 : ∀ q, is_due w3 timeNow q = is_due w timeNow q).
    { intros q. transitivity (is_due w2 timeNow q).
      - unfold is_due. subst w3. simpl. by rewrite deliver_heap.
      - rewrite (frame_is_due _ _ _ timeNow q Hfr).
        unfold is_due. simpl. by rewrite deliver_heap. }
    assert (Halive3 : ∀ q, is_Some (heap w !! q) → is_Some (heap w3 !! q)).
    { intros q Hq. destruct (decide (q = p)) as [->|Hne].
      - by rewrite Ht3.
      - by rewrite Hheap3. }
    destruct (IH timeNow w3 (pre ++ post)) as (w' & Hpass & Hf & Hs & Ha & Hok).
    { done. }
    { rewrite Forall_forall. intros q Hq. apply Halive3, Halive.
      subst v. apply elem_of_middle. by right. }
    { intros q t3 Hq Hq3 Hd3. destruct (decide (q = p)) as [->|Hne].
      - rewrite Ht3 in Hq3. by injection Hq3 as <-.
      - rewrite Hheap3 in Hq3 by done. rewrite Hdue3 in Hd3.
        apply (Hplain q t3); try done. subst v. apply elem_of_middle.
        by right. }
    { subst v. rewrite length_app in *. simpl in Hfuel. lia. }
    exists w'. split; [done|]. split; [|split; [|split]].
    + rewrite Hf. subst v.
      rewrite (list_filter_iff _ (λ q, is_due w timeNow q = true))
        by (intros q; by rewrite Hdue3).
      rewrite !filter_app, filter_cons_True by done.
      assert (Hnone_pre : filter (λ q, is_due w timeNow q = true) pre = []).
      { apply filter_all_false. eapply Forall_impl; [exact Hpre|]. simpl.
        intros q [_ Hq]. rewrite deliver_is_due in Hq. by rewrite Hq. }
      rewrite Hnone_pre. simpl. rewrite reverse_cons, <- app_assoc. f_equal.
      subst w3. simpl. rewrite deliver_trace, Htr2. simpl.
      by rewrite Hfired.
    + rewrite Hs. f_equal. subst v.
      rewrite (list_filter_iff _ (λ q, is_due w timeNow q = false))
        by (intros q; by rewrite Hdue3).
      by rewrite !filter_app, filter_cons_False by (rewrite Hdue; done).
    + intros q Hq. by apply Ha, Halive3.
    + rewrite Hok. subst w3. simpl.
      rewrite deliver_setitimer_ok, (frame_setitimer_ok _ _ _ Hfr). simpl.
      by rewrite deliver_setitimer_ok.
  - destruct Hscan as (Hall & ex & Hw1). exists w1. split; [done|].
    assert (Hnd : Forall (λ q, is_due w timeNow q = false) v).
    { eapply Forall_impl; [exact Hall|]. simpl. intros q [_ Hq].
      by rewrite deliver_is_due in Hq. }
    split; [|split; [|split]].
    + rewrite deliver_trace in Hfired. rewrite Hfired.
      rewrite filter_all_false; [done|].
      eapply Forall_impl; [exact Hnd|]. simpl. intros q Hq. by rewrite Hq.
    + subst w1. simpl. rewrite deliver_spTimers, Hv. f_equal. symmetry.
      by apply filter_all_true.
    + intros q. subst w1. simpl. by rewrite deliver_heap.
    + subst w1. simpl. by rewrite deliver_setitimer_ok.
  - destruct Hscan as (q & Hq & Hnone). rewrite deliver_heap in Hnone.
    rewrite Forall_forall in Halive. destruct (Halive q Hq) as [t Ht].
    congruence.
Qed.

(** X6. When the due members are plain timers, [Reschedule] returns whatever
    the overrides are, and [Timer::OnExpire] has run once for every entry of
    the vector whose timer is due, in the order of the vector (the trace has
    the newest event first): a timer that was added several times fires
    once per entry, although the first dispatch has set [mExpired], which
    the scan does not look at. The entries that are not due are what is
    left, in their order. *)
Theorem Reschedule_fires_in_vector_order overrides fuel w v :
  spTimers w = Some v → members_alive w → setitimer_ok w = true →
  (∀ p t, p ∈ v → heap w !! p = Some t → is_due w (clock w) p = true →
          vptr t = None) →
  (length v < fuel)%nat →
  ∃ w', Reschedule overrides fuel w = Ok w' ∧
    fired (trace w')
    = reverse (filter (λ p, is_due w (clock w) p = true) v)
      ++ fired (trace w) ∧
    timers w' = filter (λ p, is_due w (clock w) p = false) v.
Proof.
  intros Hv Halive Hok Hplain Hfuel.
  unfold members_alive, timers in Halive. rewrite Hv in Halive.
  simpl in Halive.
  rewrite Reschedule_unfold by (by rewrite Hv).
  set (w0 := deliver (set_sRescheduleNeeded false w)).
  assert (Hh0 : heap w0 = heap w) by (subst w0; by rewrite deliver_heap).
  assert (Hd0 : ∀ q, is_due w0 (clock w) q = is_due w (clock w) q).
  { intros q. unfold is_due. by rewrite Hh0. }
  destruct (expiry_pass_fired overrides fuel (clock w) w0 v)
    as (w1 & Hpass & Hf & Hs & Ha & Hok1); try done.
  { subst w0. by rewrite deliver_spTimers. }
  { by rewrite Hh0. }
  { intros p t Hp Ht Hd. rewrite Hh0 in Ht. rewrite Hd0 in Hd.
    by apply (Hplain p t). }
  rewrite Hpass. simpl.
  set (v1 := filter (λ p, is_due w0 (clock w) p = false) v) in *.
  destruct (schedule_next_returns (clock w) (deliver w1) v1)
    as [w' Hsched].
  { by rewrite deliver_spTimers. }
  { rewrite Forall_forall. intros q [_ Hq]%list_elem_of_filter.
    rewrite deliver_heap. apply Ha. rewrite Hh0.
    rewrite Forall_forall in Halive. by apply Halive. }
  { rewrite deliver_setitimer_ok, Hok1. subst w0.
    by rewrite deliver_setitimer_ok. }
  exists w'. split; [done|]. apply schedule_next_Ok in Hsched as Hsc.
  split.
  - rewrite (sc_trace _ _ _ Hsc), deliver_trace, Hf. subst w0.
    rewrite deliver_trace. simpl. f_equal. f_equal.
    apply list_filter_iff. intros q. by rewrite Hd0.
  - unfold timers. rewrite (sc_spTimers _ _ _ Hsc), deliver_spTimers, Hs.
    simpl. apply list_filter_iff. intros q. by rewrite Hd0.
Qed.

Lemma overdue_duplicates_alive : members_alive overdue_duplicates.
Proof. unfold members_alive. compute_done. Qed.

Lemma Reschedule_fires_in_vector_order_witness :
  ∃ w', Reschedule throwing 6 overdue_duplicates = Ok w' ∧
    fired (trace w')
    = reverse (filter (λ p, is_due overdue_duplicates
                              (clock overdue_duplicates) p = true)
                 [2; 1; 2; 3; 2]%nat)
      ++ fired (trace overdue_duplicates) ∧
    timers w' = filter (λ p, is_due overdue_duplicates
                               (clock overdue_duplicates) p = false)
                  [2; 1; 2; 3; 2]%nat.
Proof.
  apply (Reschedule_fires_in_vector_order throwing 6 overdue_duplicates
           [2; 1; 2; 3; 2]%nat).
  - reflexivity.
  - exact overdue_duplicates_alive.
  - reflexivity.
  - intros p t Hp Ht _. rewrite !elem_of_cons, elem_of_nil in Hp.
    destruct Hp as [->|[->|[->|[->|[->|[]]]]]]; vm_compute in Ht;
      by injection Ht as <-.
  - simpl. lia.
Defined.

(** The run of the witness: timer 2, registered three times, has fired
    three times, timer 1 between its first and its second firing. *)
Example overdue_duplicates_run :
  ∃ w', Reschedule idle 6 overdue_duplicates = Ok w' ∧
    fired (trace w') = [2; 2; 1; 2]%nat ∧ timers w' = [3%nat] ∧
    heap w' !! 2%nat = Some (mkTimer 900 true None).
Proof. eexists. split; [by vm_compute|]. by vm_compute. Qed.

(** ** Reschedule twice *)

(** A [Reschedule] that returns has had its [setitimer] accepted. *)
Lemma Reschedule_accepted overrides fuel w w' :
  Reschedule overrides fuel w = Ok w' → setitimer_ok w' = true.
Proof.
  destruct (spTimers w) as [v|] eqn:Hv;
    [|by rewrite Reschedule_no_set].
  rewrite Reschedule_unfold by (by rewrite Hv).
  destruct (expiry_pass _ _ _ _) as [w1| | |]; try done. simpl.
  intros Hsc%schedule_next_Ok.
  rewrite (sc_setitimer_ok _ _ _ Hsc). apply (sc_accepted _ _ _ Hsc).
Qed.

(** With no due member the one scan of the expiry pass fires nothing. *)
Lemma expiry_pass_quiescent_fired overrides fuel timeNow w v :
  spTimers w = Some v →
  Forall (λ q, is_Some (heap w !! q) ∧ is_due w timeNow q = false) v →
  ∃ w1, expiry_pass overrides (S fuel) timeNow w = Ok w1 ∧
        fired (trace w1) = fired (trace w).
Proof.
  intros Hv Hall. simpl. rewrite Hv.
  pose proof (scan_spec timeNow v 0 (deliver w)) as Hscan.
  pose proof (scan_fired timeNow v 0 (deliver w)) as Hfired.
  rewrite deliver_trace in Hfired.
  destruct (scan timeNow v 0 (deliver w)) as [j p w1|w1|].
  - destruct Hscan as (pre & post & ex & -> & _ & _ & Hdue & _).
    rewrite deliver_is_due in Hdue. rewrite Forall_forall in Hall.
    destruct (Hall p) as [_ Hnd]; [apply elem_of_middle; by left|].
    congruence.
  - by exists w1.
  - destruct Hscan as (q & Hq & Hnone). rewrite deliver_heap in Hnone.
    rewrite Forall_forall in Hall. destruct (Hall q Hq) as [[t Ht] _].
    congruence.
Qed.

(** X7. [Reschedule] is idempotent while the clock stands still: when it has
    returned (the overrides having left the scheduler alone), a second
    [Reschedule] at the same time returns too, with one run of the expiry
    loop, calls no [OnExpire] whatever the overrides are by then, and
    leaves the set, the objects and the interval timer as the first one
    left them. *)
Theorem Reschedule_idempotent overrides any fuel fuel' w w' :
  passive overrides →
  Reschedule overrides fuel w = Ok w' →
  ∃ w'', Reschedule any (S fuel') w' = Ok w'' ∧
    spTimers w'' = spTimers w' ∧ heap w'' = heap w' ∧
    itimer w'' = itimer w' ∧ clock w'' = clock w' ∧
    fired (trace w'') = fired (trace w').
Proof.
  intros Hpassive Hres.
  destruct (spTimers w) as [v|] eqn:Hv;
    [|by rewrite Reschedule_no_set in Hres].
  pose proof (Reschedule_Ok _ Hpassive _ _ _ _ Hv Hres) as Hrs.
  pose proof (Reschedule_accepted _ _ _ _ Hres) as Hok.
  pose proof (rs_settled _ _ _ Hrs) as Hst.
  rewrite <- (rs_clock _ _ _ Hrs) in Hst.
  destruct (st_set _ _ Hst) as [v' Hv'].
  assert (Hnd : Forall (λ q, is_Some (heap w' !! q) ∧
                             is_due w' (clock w') q = false) v').
  { pose proof (st_none_due _ _ Hst) as Hall. unfold timers in Hall.
    by rewrite Hv' in Hall. }
  destruct (Reschedule_quiescent any fuel' w' v' Hv' Hnd Hok)
    as (w'' & Hres2 & Hun & Hst2).
  exists w''. split; [done|].
  split; [apply (un_spTimers _ _ Hun)|].
  split; [apply (un_heap _ _ Hun)|].
  split; [|split; [apply (un_clock _ _ Hun)|]].
  - apply (settled_itimer (clock w')); try done.
    + apply (un_spTimers _ _ Hun).
    + apply (un_heap _ _ Hun).
  - rewrite Reschedule_unfold in Hres2 by (by rewrite Hv').
    destruct (expiry_pass_quiescent_fired any fuel' (clock w')
                (deliver (set_sRescheduleNeeded false w')) v')
      as (w1 & Hpass & Hf).
    { by rewrite deliver_spTimers. }
    { eapply Forall_impl; [exact Hnd|]. simpl. intros q.
      by rewrite deliver_heap, deliver_is_due. }
    rewrite Hpass in Hres2. simpl in Hres2.
    apply schedule_next_Ok in Hres2 as Hsc.
    rewrite (sc_trace _ _ _ Hsc), deliver_trace, Hf.
    by rewrite deliver_trace.
Qed.

Lemma Reschedule_idempotent_witness :
  ∃ w', Reschedule idle 4 three_timers = Ok w' ∧
    ∃ w'', Reschedule throwing 1 w' = Ok w'' ∧
      spTimers w'' = spTimers w' ∧ heap w'' = heap w' ∧
      itimer w'' = itimer w' ∧ clock w'' = clock w' ∧
      fired (trace w'') = fired (trace w').
Proof.
  eexists. split; [reflexivity|].
  apply (Reschedule_idempotent idle throwing 4 0 three_timers).
  - exact idle_passive.
  - reflexivity.
Defined.

(** ** Sound processes stay sound *)

Lemma sound_TRACE n e w : sound n w → sound n (TRACE e w).
Proof. intros [? ? ? ? ?]. by constructor. Qed.

Lemma sound_insert n w p t :
  sound n w → in_range (mExpires t) →
  sound n (set_heap (<[p := t]> (heap w)) w).
Proof.
  intros Hs Ht. constructor; simpl.
  - apply (sd_set _ _ Hs).
  - apply (sd_length _ _ Hs).
  - unfold members_alive. simpl. change (timers (set_heap _ w)) with (timers w).
    eapply Forall_impl; [apply (sd_alive _ _ Hs)|]. simpl. intros q.
    apply alive_insert.
  - apply (sd_ok _ _ Hs).
  - by apply times_in_range_insert; [apply (sd_range _ _ Hs)|].
Qed.

Section Sound.

Variable overrides : nat → nat → World → Result.
Hypothesis Hpassive : passive overrides.
Hypothesis Hreturning : returning overrides.

Lemma Reschedule_sound fuel n w :
  sound n w → (n < fuel)%nat →
  ∃ w', Reschedule overrides fuel w = Ok w' ∧
    rescheduled (timers w) w w' ∧ sound n w'.
Proof.
  intros Hs Hfuel.
  destruct (Reschedule_total overrides fuel w (timers w))
    as (w' & Hres & Hrs); try done.
  { apply (sound_timers n w Hs). }
  { apply (sd_alive _ _ Hs). }
  { apply (sd_ok _ _ Hs). }
  { pose proof (sd_length _ _ Hs). lia. }
  exists w'. split; [done|]. split; [done|].
  apply (rescheduled_sound n _ _ _ Hrs).
  - apply (sd_length _ _ Hs).
  - apply (sd_ok _ _ Hs).
  - apply (sd_range _ _ Hs).
Qed.

Lemma Remove_sound fuel n rTimer w :
  sound n w → (n < fuel)%nat →
  ∃ w', Remove overrides fuel rTimer w = Ok w' ∧
    rescheduled (filter (λ p, p ≠ rTimer) (timers w))
      (set_spTimers (Some (filter (λ p, p ≠ rTimer) (timers w))) w) w' ∧
    sound n w'.
Proof.
  intros Hs Hfuel.
  destruct (Remove_total overrides Hpassive Hreturning fuel rTimer w (timers w))
    as (w' & Hrem & Hrs); try done.
  { apply (sound_timers n w Hs). }
  { apply (sd_alive _ _ Hs). }
  { apply (sd_ok _ _ Hs). }
  { pose proof (sd_length _ _ Hs). lia. }
  exists w'. split; [done|]. split; [done|].
  apply (rescheduled_sound n _ _ _ Hrs).
  - pose proof (length_filter (λ p, p ≠ rTimer) (timers w)).
    pose proof (sd_length _ _ Hs). lia.
  - apply (sd_ok _ _ Hs).
  - apply (sd_range _ _ Hs).
Qed.

Lemma Add_sound fuel n rTimer w :
  sound n w → is_Some (heap w !! rTimer) → (n + 1 < fuel)%nat →
  ∃ w', Add overrides fuel rTimer w = Ok w' ∧
    rescheduled (timers w ++ [rTimer])
      (set_spTimers (Some (timers w ++ [rTimer])) w) w' ∧
    sound (n + 1) w'.
Proof.
  intros Hs Hp Hfuel.
  destruct (Add_total overrides Hpassive Hreturning fuel rTimer w (timers w))
    as (w' & Hadd & Hrs); try done.
  { apply (sound_timers n w Hs). }
  { apply (sd_alive _ _ Hs). }
  { apply (sd_ok _ _ Hs). }
  { pose proof (sd_length _ _ Hs). lia. }
  exists w'. split; [done|]. split; [done|].
  apply (rescheduled_sound (n + 1) _ _ _ Hrs).
  - rewrite length_app. simpl. pose proof (sd_length _ _ Hs). lia.
  - apply (sd_ok _ _ Hs).
  - apply (sd_range _ _ Hs).
Qed.

End Sound.

Lemma sound_weaken n m w : sound n w → (n <= m)%nat → sound m w.
Proof.
  intros [? ? ? ? ?] Hle. constructor; try done. lia.
Qed.

(** [Reschedule] neither makes nor frees an object. *)
Lemma rescheduled_domain v w w' q :
  rescheduled v w w' → is_Some (heap w' !! q) ↔ is_Some (heap w !! q).
Proof.
  intros Hrs.
  destruct (decide (q ∈ v ∧ is_due w (clock w) q = true)) as [[Hq Hd]|Hn].
  - destruct (rs_heap_due _ _ _ Hrs q Hq Hd) as (t & t' & -> & -> & _).
    by split.
  - by rewrite (rs_heap_rest _ _ _ Hrs q Hn).
Qed.

(** X8. In a sound process (a set of live timers, times in range, an OS that
    accepts [setitimer]) none of the operations on timers runs into
    undefined behaviour, fails an assertion or runs out of the fuel of one
    run of the expiry loop per member, as long as the overrides leave the
    scheduler alone and return; and each of them leaves a sound process
    again, which has at most one member more: [Reschedule], the
    constructor (with a timeout whose deadline is in range), the copy
    constructor and the assignment (from and to live timers) and the
    destructor, after which the storage is gone and the set holds no
    pointer to it. *)
Theorem timers_stay_sound overrides fuel n w :
  passive overrides → returning overrides →
  sound n w → (n + 1 < fuel)%nat →
  (∃ w', Reschedule overrides fuel w = Ok w' ∧ sound n w') ∧
  (∀ this timeoutSecs,
     0 <= timeoutSecs → in_range (clock w + timeoutSecs * 1000000) →
     ∃ w', Timer_ctor overrides fuel this timeoutSecs w = Ok w' ∧
       sound (n + 1) w' ∧ is_Some (heap w' !! this)) ∧
  (∀ this rToCopy, is_Some (heap w !! rToCopy) →
     ∃ w', Timer_copy_ctor overrides fuel this rToCopy w = Ok w' ∧
       sound (n + 1) w' ∧ is_Some (heap w' !! this)) ∧
  (∀ this rToCopy,
     is_Some (heap w !! this) → is_Some (heap w !! rToCopy) →
     ∃ w', Timer_assign overrides fuel this rToCopy w = Ok w' ∧
       sound (n + 1) w' ∧ is_Some (heap w' !! this)) ∧
  (∀ this,
     ∃ w', Timer_dtor overrides fuel this w = Ok w' ∧
       sound n w' ∧ heap w' !! this = None ∧ (this ∉ timers w')).
Proof.
  intros Hpassive Hret Hs Hfuel.
  assert (Hzero : in_range 0) by (unfold in_range; lia).
  split; [|split; [|split; [|split]]].
  - destruct (Reschedule_sound _ Hpassive Hret fuel n w Hs) as (w' & ? & _ & ?);
      [lia|]. by exists w'.
  - intros this timeoutSecs HT Hsum. unfold Timer_ctor, GetCurrentBoxTime.
    rewrite new_deadline by (try done; apply (sd_range _ _ Hs)).
    set (obj := mkTimer (clock w + timeoutSecs * 1000000) false None).
    assert (Hs1 : sound n (set_heap (<[this := obj]> (heap w)) w))
      by (by apply sound_insert).
    destruct (timeoutSecs =? 0) eqn:HT0.
    + eexists. split; [done|]. split.
      * apply (sound_weaken n); [|lia].
        apply (sound_insert n (TRACE _ _)); [|done]. by apply sound_TRACE.
      * simpl. rewrite lookup_insert_eq. by eexists.
    + destruct (Add_sound _ Hpassive Hret fuel n this
                  (TRACE (TrInit this timeoutSecs (mExpires obj))
                     (set_heap (<[this := obj]> (heap w)) w)))
        as (w' & Hadd & Hrs & Hs'); try done.
      { by apply sound_TRACE. }
      { simpl. rewrite lookup_insert_eq. by eexists. }
      exists w'. split; [done|]. split; [done|].
      apply (rescheduled_domain _ _ _ this Hrs). simpl.
      rewrite lookup_insert_eq. by eexists.
  - intros this rToCopy [from Hfrom]. unfold Timer_copy_ctor. rewrite Hfrom.
    set (obj := mkTimer (mExpires from) (mExpired from) None).
    assert (Hobj : in_range (mExpires obj)).
    { apply (times_in_range_lookup w rToCopy from); [|done].
      apply (sd_range _ _ Hs). }
    set (w1 := TRACE (trace_from this rToCopy obj)
                 (set_heap (<[this := obj]> (heap w)) w)).
    assert (Hs1 : sound n w1) by (by apply sound_TRACE, sound_insert).
    assert (Hthis : is_Some (heap w1 !! this)).
    { subst w1. simpl. rewrite lookup_insert_eq. by eexists. }
    destruct (negb (mExpired obj) && negb (mExpires obj =? 0)).
    + destruct (Add_sound _ Hpassive Hret fuel n this w1)
        as (w' & Hadd & Hrs & Hs'); try done.
      exists w'. split; [done|]. split; [done|].
      by apply (rescheduled_domain _ _ _ this Hrs).
    + exists w1. split; [done|]. split; [|done].
      apply (sound_weaken n); [done|lia].
  - intros this rToCopy Hthis [from Hfrom]. unfold Timer_assign.
    rewrite Hfrom.
    set (wt := TRACE (trace_from this rToCopy from) w).
    destruct (Remove_sound _ Hpassive Hret fuel n this wt)
      as (w1 & Hrem & Hrs & Hs1); [by apply sound_TRACE|lia|].
    rewrite Hrem. simpl.
    destruct (proj2 (rescheduled_domain _ _ _ this Hrs)) as [t1 Ht1];
      [done|].
    destruct (proj2 (rescheduled_domain _ _ _ rToCopy Hrs)) as [from1 Hfrom1];
      [simpl; by rewrite Hfrom|].
    rewrite Ht1, Hfrom1.
    set (t' := set_mExpired (mExpired from1)
                 (set_mExpires (mExpires from1) t1)).
    assert (Ht' : in_range (mExpires t')).
    { apply (times_in_range_lookup w1 rToCopy from1); [|done].
      apply (sd_range _ _ Hs1). }
    set (w2 := set_heap (<[this := t']> (heap w1)) w1).
    assert (Hs2 : sound n w2) by (by apply sound_insert).
    assert (Hthis2 : is_Some (heap w2 !! this)).
    { subst w2. simpl. rewrite lookup_insert_eq. by eexists. }
    destruct (negb (mExpired from1) && negb (mExpires from1 =? 0)).
    + destruct (Add_sound _ Hpassive Hret fuel n this w2)
        as (w' & Hadd & Hrs' & Hs'); try done.
      exists w'. split; [done|]. split; [done|].
      by apply (rescheduled_domain _ _ _ this Hrs').
    + exists w2. split; [done|]. split; [|done].
      apply (sound_weaken n); [done|lia].
  - intros this.
    destruct (Timer_dtor_spec _ Hpassive Hret fuel n this w Hs)
      as (w' & Hd & Hnone & Hnot & _ & Hs' & _); [lia|].
    by exists w'.
Qed.

Lemma mixed_in_range : in_range (clock mixed + 5 * 1000000).
Proof. by vm_compute. Qed.

Lemma timers_stay_sound_witness :
  (∃ w', Reschedule idle 4 mixed = Ok w' ∧ sound 1 w') ∧
  (∀ this timeoutSecs,
     0 <= timeoutSecs → in_range (clock mixed + timeoutSecs * 1000000) →
     ∃ w', Timer_ctor idle 4 this timeoutSecs mixed = Ok w' ∧
       sound (1 + 1) w' ∧ is_Some (heap w' !! this)) ∧
  (∀ this rToCopy, is_Some (heap mixed !! rToCopy) →
     ∃ w', Timer_copy_ctor idle 4 this rToCopy mixed = Ok w' ∧
       sound (1 + 1) w' ∧ is_Some (heap w' !! this)) ∧
  (∀ this rToCopy,
     is_Some (heap mixed !! this) → is_Some (heap mixed !! rToCopy) →
     ∃ w', Timer_assign idle 4 this rToCopy mixed = Ok w' ∧
       sound (1 + 1) w' ∧ is_Some (heap w' !! this)) ∧
  (∀ this,
     ∃ w', Timer_dtor idle 4 this mixed = Ok w' ∧
       sound 1 w' ∧ heap w' !! this = None ∧ (this ∉ timers w')).
Proof.
  apply (timers_stay_sound idle 4 1 mixed).
  - exact idle_passive.
  - exact idle_returning.
  - exact mixed_sound.
  - simpl. lia.
Defined.

(** ** The destructor (lines 266-276) *)

(** What a [Reschedule] over plain due timers has fired, for use below. *)
Lemma Reschedule_fired overrides fuel w v :
  spTimers w = Some v → members_alive w → setitimer_ok w = true →
  (∀ p t, p ∈ v → heap w !! p = Some t → is_due w (clock w) p = true →
          vptr t = None) →
  (length v < fuel)%nat →
  ∃ w', Reschedule overrides fuel w = Ok w' ∧
    fired (trace w')
    = reverse (filter (λ p, is_due w (clock w) p = true) v)
      ++ fired (trace w) ∧
    timers w' = filter (λ p, is_due w (clock w) p = false) v.
Proof.
  intros Hv Halive Hok Hplain Hfuel.
  unfold members_alive, timers in Halive. rewrite Hv in Halive.
  simpl in Halive.
  rewrite Reschedule_unfold by (by rewrite Hv).
  set (w0 := deliver (set_sRescheduleNeeded false w)).
  assert (Hh0 : heap w0 = heap w) by (subst w0; by rewrite deliver_heap).
  assert (Hd0 : ∀ q, is_due w0 (clock w) q = is_due w (clock w) q).
  { intros q. unfold is_due. by rewrite Hh0. }
  destruct (expiry_pass_fired overrides fuel (clock w) w0 v)
    as (w1 & Hpass & Hf & Hs & Ha & Hok1); try done.
  { subst w0. by rewrite deliver_spTimers. }
  { by rewrite Hh0. }
  { intros p t Hp Ht Hd. rewrite Hh0 in Ht. rewrite Hd0 in Hd.
    by apply (Hplain p t). }
  rewrite Hpass. simpl.
  set (v1 := filter (λ p, is_due w0 (clock w) p = false) v) in *.
  destruct (schedule_next_returns (clock w) (deliver w1) v1)
    as [w' Hsched].
  { by rewrite deliver_spTimers. }
  { rewrite Forall_forall. intros q [_ Hq]%list_elem_of_filter.
    rewrite deliver_heap. apply Ha. rewrite Hh0.
    rewrite Forall_forall in Halive. by apply Halive. }
  { rewrite deliver_setitimer_ok, Hok1. subst w0.
    by rewrite deliver_setitimer_ok. }
  exists w'. split; [done|]. apply schedule_next_Ok in Hsched as Hsc.
  split.
  - rewrite (sc_trace _ _ _ Hsc), deliver_trace, Hf. subst w0.
    rewrite deliver_trace. simpl. f_equal. f_equal.
    apply list_filter_iff. intros q. by rewrite Hd0.
  - unfold timers. rewrite (sc_spTimers _ _ _ Hsc), deliver_spTimers, Hs.
    simpl. apply list_filter_iff. intros q. by rewrite Hd0.
Qed.

Lemma filter_ext_elem {A} (P Q : A → Prop) `{∀ x, Decision (P x)}
  `{∀ x, Decision (Q x)} (l : list A) :
  (∀ x, x ∈ l → P x ↔ Q x) → filter P l = filter Q l.
Proof.
  induction l as [|x l IH]; intros Hext; [done|].
  assert (Hx : P x ↔ Q x) by (apply Hext; by left).
  assert (Hl : filter P l = filter Q l).
  { apply IH. intros y Hy. apply Hext. by right. }
  destruct (decide (P x)) as [HP|HP].
  - rewrite !filter_cons_True by tauto. by rewrite Hl.
  - rewrite !filter_cons_False by tauto. done.
Qed.

Section Unregister.

Variable overrides : nat → nat → World → Result.
Hypothesis Hpassive : passive overrides.
Hypothesis Hreturning : returning overrides.

(** What [Remove] leaves in a sound process: the entries of the other
    timers that are not due, in their order; the timer removed, the timers
    out of the set and the timers that are not due are as they were. *)
Lemma Remove_exact fuel n rTimer w :
  sound n w → (n < fuel)%nat →
  ∃ w', Remove overrides fuel rTimer w = Ok w' ∧ sound n w' ∧
    timers w' = filter (λ p, is_due w (clock w) p = false)
                  (filter (λ p, p ≠ rTimer) (timers w)) ∧
    clock w' = clock w ∧
    (∀ q, q = rTimer ∨ q ∉ timers w ∨ is_due w (clock w) q = false →
          heap w' !! q = heap w !! q) ∧
    (∃ ex, trace w' = ex ++ trace w) ∧
    settled (clock w) w'.
Proof.
  intros Hs Hfuel.
  destruct (Remove_sound _ Hpassive Hreturning fuel n rTimer w Hs Hfuel)
    as (w' & Hrem & Hrs & Hs').
  exists w'. split; [done|]. split; [done|].
  split; [apply (rescheduled_timers _ _ _ Hrs)|].
  split; [apply (rs_clock _ _ _ Hrs)|].
  split; [|split].
  - intros q Hq. apply (rs_heap_rest _ _ _ Hrs q).
    intros [[Hne Hin]%list_elem_of_filter Hd].
    destruct Hq as [->|[Hq|Hq]]; [done|done|]. simpl in Hd.
    unfold is_due in Hd, Hq. simpl in Hd. congruence.
  - destruct (rs_trace _ _ _ Hrs) as (ex & Hex & _). by exists ex.
  - apply (rs_settled _ _ _ Hrs).
Qed.

End Unregister.

(** X9. The destructor of a timer in a sound process returns; the storage is
    gone, and the set is left with the entries of the other timers that are
    not due, in their order. The dying timer is taken out before the expiry
    pass: the destructor is a [Reschedule] of the set without it, so that
    it is in the set at no [OnExpire] of that pass and does not fire any
    more even when its deadline has been reached. The other members that
    are due are dispatched by that [Reschedule], each having its [OnExpire]
    called while it is in the set; when they are plain timers, what has
    fired during the destructor is exactly the due entries of the other
    timers, in the order of the vector. The timers that are out of the set
    or not due are as they were. *)
Theorem Timer_dtor_unregisters overrides fuel n this w :
  passive overrides → returning overrides →
  sound n w → (n < fuel)%nat →
  ∃ w' ex, Timer_dtor overrides fuel this w = Ok w' ∧
    heap w' !! this = None ∧
    timers w' = filter (λ p, is_due w (clock w) p = false)
                  (filter (λ p, p ≠ this) (timers w)) ∧
    trace w' = ex ++ TrDestroyed this :: trace w ∧
    (∀ q, q ≠ this → q ∉ timers w ∨ is_due w (clock w) q = false →
          heap w' !! q = heap w !! q) ∧
    sound n w' ∧
    Timer_dtor overrides fuel this w
    = (let* w1 := Reschedule overrides fuel
                    (set_spTimers
                       (Some (filter (λ p, p ≠ this) (timers w)))
                       (TRACE (TrDestroyed this) w)) in
       Ok (set_heap (delete this (heap w1)) w1)) ∧
    (∀ q, q ≠ this → q ∈ timers w → is_due w (clock w) q = true →
       (q ∉ timers w') ∧
       ∃ w1 w2,
         OnExpire overrides q w1 = Ok w2 ∧ q ∈ timers w1 ∧
         (this ∉ timers w1) ∧
         (∃ ex1, trace w1 = TrExpired (clock w) q :: ex1
                            ++ TrDestroyed this :: trace w) ∧
         (∃ ex2, trace w' = ex2 ++ trace w2) ∧
         heap w' !! q = heap w2 !! q) ∧
    ((∀ p t, p ∈ timers w → p ≠ this → heap w !! p = Some t →
             is_due w (clock w) p = true → vptr t = None) →
     fired (trace w')
     = reverse (filter (λ p, is_due w (clock w) p = true)
                  (filter (λ p, p ≠ this) (timers w)))
       ++ fired (trace w)).
Proof.
  intros Hpassive Hret Hs Hfuel.
  set (wd := TRACE (TrDestroyed this) w).
  set (vr := filter (λ p, p ≠ this) (timers w)).
  set (wr := set_spTimers (Some vr) wd).
  assert (Hvd : spTimers wd = Some (timers w)) by apply (sound_timers n w Hs).
  assert (Hunfold : Timer_dtor overrides fuel this w
    = (let* w1 := Reschedule overrides fuel wr in
       Ok (set_heap (delete this (heap w1)) w1))).
  { unfold Timer_dtor. fold wd.
    by rewrite (Remove_unfold _ _ _ _ (timers w) Hvd). }
  destruct (Remove_exact _ Hpassive Hret fuel n this wd)
    as (w1 & Hrem & Hs1 & Htimers & Hclock & Hheap & [ex Hex] & _);
    [by apply sound_TRACE|done|].
  assert (Hres : Reschedule overrides fuel wr = Ok w1).
  { unfold wr, vr. by rewrite <- (Remove_unfold _ _ _ _ (timers w) Hvd). }
  rewrite Hunfold, Hres. simpl. eexists; exists ex. split; [done|]. simpl.
  assert (Hnot : this ∉ timers w1).
  { rewrite Htimers. intros [_ Hin]%list_elem_of_filter.
    by apply list_elem_of_filter in Hin as [Hne _]. }
  split; [by rewrite lookup_delete_eq|]. split; [done|]. split; [done|].
  split; [|split; [|split; [done|split]]].
  - intros q Hne Hq. rewrite lookup_delete_ne by done.
    apply Hheap. right. exact Hq.
  - constructor; simpl.
    + apply (sd_set _ _ Hs1).
    + apply (sd_length _ _ Hs1).
    + unfold members_alive. simpl. rewrite Forall_forall. intros q Hq.
      change (q ∈ timers w1) in Hq.
      rewrite lookup_delete_ne by (intros ->; done).
      pose proof (sd_alive _ _ Hs1) as Hal. unfold members_alive in Hal.
      rewrite Forall_forall in Hal. by apply Hal.
    + apply (sd_ok _ _ Hs1).
    + destruct (sd_range _ _ Hs1) as [Hnow Hr]. split; [done|]. simpl.
      by apply map_Forall_delete.
  - intros q Hne Hq Hdue.
    assert (Hqr : q ∈ vr) by (by apply list_elem_of_filter).
    split.
    { change (q ∉ timers w1). rewrite Htimers.
      intros [Hnd _]%list_elem_of_filter.
      change (is_due w (clock w) q = false) in Hnd. congruence. }
    destruct (Reschedule_dispatched _ Hpassive fuel wr w1 vr eq_refl Hres
                q Hqr Hdue)
      as (wa & wb & Hcall & Hmem & Htr1 & Htr2 & Hhq & Hsub).
    exists wa; exists wb. split; [done|]. split; [done|]. split.
    { intros Hin. apply Hsub in Hin.
      by apply list_elem_of_filter in Hin as [Hx _]. }
    split; [done|]. split; [done|].
    by rewrite lookup_delete_ne by done.
  - intros Hplain.
    destruct (Reschedule_fired overrides fuel wr vr)
      as (w1' & Hres' & Hfired & _); try done.
    + unfold members_alive. change (timers wr) with vr.
      rewrite Forall_forall. intros q [_ Hq]%list_elem_of_filter.
      pose proof (sd_alive _ _ Hs) as Hal. unfold members_alive in Hal.
      rewrite Forall_forall in Hal. by apply Hal.
    + apply (sd_ok _ _ Hs).
    + intros p t [Hne Hp]%list_elem_of_filter Ht Hd.
      by apply (Hplain p t).
    + pose proof (length_filter (λ p, p ≠ this) (timers w)).
      pose proof (sd_length _ _ Hs). subst vr. lia.
    + rewrite Hres in Hres'. injection Hres' as <-. exact Hfired.
Qed.

Lemma overdue_source_sound : sound 2 overdue_source.
Proof.
  constructor.
  - by eexists.
  - simpl. lia.
  - unfold members_alive. compute_done.
  - reflexivity.
  - split; [by vm_compute|]. compute_done.
Qed.

Lemma overdue_pair_sound : sound 3 overdue_pair.
Proof.
  constructor.
  - by eexists.
  - simpl. lia.
  - unfold members_alive. compute_done.
  - reflexivity.
  - split; [by vm_compute|]. compute_done.
Qed.

Lemma Timer_dtor_unregisters_witness :
  ∃ w' ex, Timer_dtor dutiful 4 2 overdue_pair = Ok w' ∧
    heap w' !! 2%nat = None ∧
    timers w' = filter (λ p, is_due overdue_pair
                               (clock overdue_pair) p = false)
                  (filter (λ p, p ≠ 2%nat) (timers overdue_pair)) ∧
    trace w' = ex ++ TrDestroyed 2 :: trace overdue_pair ∧
    (∀ q, q ≠ 2%nat →
          q ∉ timers overdue_pair ∨
          is_due overdue_pair (clock overdue_pair) q = false →
          heap w' !! q = heap overdue_pair !! q) ∧
    sound 3 w' ∧
    Timer_dtor dutiful 4 2 overdue_pair
    = (let* w1 := Reschedule dutiful 4
                    (set_spTimers
                       (Some (filter (λ p, p ≠ 2%nat)
                                (timers overdue_pair)))
                       (TRACE (TrDestroyed 2) overdue_pair)) in
       Ok (set_heap (delete 2%nat (heap w1)) w1)) ∧
    (∀ q, q ≠ 2%nat → q ∈ timers overdue_pair →
       is_due overdue_pair (clock overdue_pair) q = true →
       (q ∉ timers w') ∧
       ∃ w1 w2,
         OnExpire dutiful q w1 = Ok w2 ∧ q ∈ timers w1 ∧
         (2%nat ∉ timers w1) ∧
         (∃ ex1, trace w1 = TrExpired (clock overdue_pair) q :: ex1
                            ++ TrDestroyed 2 :: trace overdue_pair) ∧
         (∃ ex2, trace w' = ex2 ++ trace w2) ∧
         heap w' !! q = heap w2 !! q) ∧
    fired (trace w')
    = reverse (filter (λ p, is_due overdue_pair
                              (clock overdue_pair) p = true)
                 (filter (λ p, p ≠ 2%nat) (timers overdue_pair)))
      ++ fired (trace overdue_pair).
Proof.
  destruct (Timer_dtor_unregisters dutiful 4 3 2 overdue_pair)
    as (w' & ex & Hd & Hgone & Hset & Htr & Hrest & Hs & Heq & Hothers
        & Hfired).
  - exact dutiful_passive.
  - exact dutiful_returning.
  - exact overdue_pair_sound.
  - lia.
  - exists w'; exists ex. repeat (split; [assumption|]). apply Hfired.
    intros p t Hp Hne Ht _. change (timers overdue_pair) with [1; 2; 3]%nat in Hp.
    rewrite !elem_of_cons, elem_of_nil in Hp.
    destruct Hp as [->|[->|[->|[]]]]; [|done|];
      vm_compute in Ht; by injection Ht as <-.
Defined.

(** The run of the witness: timer 2, overdue, is destroyed without having
    fired, and timer 1, overdue as well, fires during the destructor;
    timer 3 is left and the interval timer is armed for it. *)
Example overdue_pair_destroyed :
  ∃ w', Timer_dtor dutiful 4 2 overdue_pair = Ok w' ∧
    timers w' = [3%nat] ∧ fired (trace w') = [1%nat] ∧
    heap w' !! 1%nat = Some (mkTimer 600 true None) ∧
    heap w' !! 2%nat = None ∧
    trace w' = [TrNotExpired 1000 3 5000000; TrFired 1; TrExpired 1000 1;
                TrDestroyed 2] ∧
    itimer w' = (5, 0).
Proof. eexists. split; [by vm_compute|]. by vm_compute. Qed.

(** With no other member due: timer 2, overdue, is destroyed without
    having fired; timer 1 is left. *)
Example overdue_destroyed :
  ∃ w', Timer_dtor idle 4 2 overdue_source = Ok w' ∧
    timers w' = [1%nat] ∧ fired (trace w') = [] ∧
    trace w' = [TrNotExpired 1000 1 5000000; TrDestroyed 2] ∧
    itimer w' = (5, 0).
Proof. eexists. split; [by vm_compute|]. by vm_compute. Qed.

(** ** Add and Remove together (lines 81-118) *)

(** X10. [Timers::Add] of a timer whose deadline is still to come appends one
    entry for it behind the members that are not due, whether it is a
    member already or not: there is no check for duplicates. A
    [Timers::Remove] of the same timer then takes out that entry and every
    older one, so that the pair does not give back the set as it was when
    the timer had been a member before; the timer itself is untouched. *)
Theorem Add_then_Remove overrides fuel n rTimer w t :
  passive overrides → returning overrides →
  sound n w → (n + 1 < fuel)%nat →
  heap w !! rTimer = Some t → clock w < mExpires t →
  ∃ w1 w2,
    Add overrides fuel rTimer w = Ok w1 ∧
    timers w1
    = filter (λ p, is_due w (clock w) p = false) (timers w) ++ [rTimer] ∧
    Remove overrides fuel rTimer w1 = Ok w2 ∧
    timers w2
    = filter (λ p, p ≠ rTimer)
        (filter (λ p, is_due w (clock w) p = false) (timers w)) ∧
    heap w2 !! rTimer = Some t.
Proof.
  intros Hpassive Hret Hs Hfuel Ht Hfut.
  destruct (Add_sound _ Hpassive Hret fuel n rTimer w Hs)
    as (w1 & Hadd & Hrs & Hs1); [by rewrite Ht|done|].
  assert (Hnd : is_due w (clock w) rTimer = false).
  { apply (is_due_future _ _ _ t); try done.
    - apply (sd_range _ _ Hs).
    - apply (times_in_range_lookup w rTimer t); [apply (sd_range _ _ Hs)|done]. }
  assert (Htimers1 : timers w1
    = filter (λ p, is_due w (clock w) p = false) (timers w) ++ [rTimer]).
  { rewrite (rescheduled_timers _ _ _ Hrs), filter_app.
    by rewrite (filter_cons_True _ rTimer) by done. }
  assert (Hheap1 : heap w1 !! rTimer = Some t).
  { rewrite (rs_heap_rest _ _ _ Hrs rTimer); [done|].
    intros [_ Hd]. unfold is_due in Hd, Hnd. simpl in Hd. congruence. }
  destruct (Remove_exact _ Hpassive Hret fuel (n + 1) rTimer w1 Hs1)
    as (w2 & Hrem & _ & Htimers2 & _ & Hheap2 & _); [done|].
  exists w1; exists w2. split; [done|]. split; [done|]. split; [done|].
  split.
  - rewrite Htimers2, Htimers1, filter_app.
    rewrite (filter_cons_False _ rTimer) by (intros H; by apply H).
    rewrite filter_nil, app_nil_r. apply filter_all_true.
    pose proof (st_none_due _ _ (rs_settled _ _ _ Hrs)) as Hall.
    rewrite Htimers1 in Hall. rewrite Forall_forall in Hall.
    rewrite Forall_forall. intros q [_ Hq]%list_elem_of_filter.
    rewrite (rs_clock _ _ _ Hrs). apply Hall. rewrite elem_of_app. by left.
  - rewrite Hheap2 by (by left). done.
Qed.

Lemma Add_then_Remove_witness :
  ∃ w1 w2,
    Add idle 5 1 two_armed = Ok w1 ∧
    timers w1
    = filter (λ p, is_due two_armed (clock two_armed) p = false)
        (timers two_armed) ++ [1%nat] ∧
    Remove idle 5 1 w1 = Ok w2 ∧
    timers w2
    = filter (λ p, p ≠ 1%nat)
        (filter (λ p, is_due two_armed (clock two_armed) p = false)
           (timers two_armed)) ∧
    heap w2 !! 1%nat = Some (mkTimer 5001000 false None).
Proof.
  apply (Add_then_Remove idle 5 2 1 two_armed).
  - exact idle_passive.
  - exact idle_returning.
  - exact two_armed_sound.
  - simpl. lia.
  - reflexivity.
  - simpl. lia.
Defined.

(** The run of the witness: timer 1 is a member twice after the [Add], and
    not at all after the [Remove]. *)
Example Add_then_Remove_run :
  ∃ w1 w2, Add idle 5 1 two_armed = Ok w1 ∧ timers w1 = [1; 2; 1]%nat ∧
    Remove idle 5 1 w1 = Ok w2 ∧ timers w2 = [2%nat] ∧
    timers two_armed = [1; 2]%nat.
Proof.
  eexists; eexists. split; [by vm_compute|]. split; [by vm_compute|].
  split; [by vm_compute|]. by vm_compute.
Qed.

(** ** A timer in a scope: constructor, then destructor *)

Lemma is_due_insert_ne w this obj timeNow q :
  q ≠ this →
  is_due (set_heap (<[this := obj]> (heap w)) w) timeNow q
  = is_due w timeNow q.
Proof. intros Hne. unfold is_due. simpl. by rewrite lookup_insert_ne. Qed.

(** X11. Making a timer at a fresh address and destroying it again, with no
    time passing in between, leaves what a [Reschedule] would have left:
    the storage is gone again, the set holds the members that were not
    due, in their order, and no pointer to the timer, whatever the timeout
    was (0 included, when the timer never was a member); the timers that
    are out of the set or not due are as they were. *)
Theorem Timer_scope overrides fuel n this timeoutSecs w :
  passive overrides → returning overrides →
  sound n w → (n + 1 < fuel)%nat →
  heap w !! this = None →
  0 <= timeoutSecs → in_range (clock w + timeoutSecs * 1000000) →
  ∃ w1 w2,
    Timer_ctor overrides fuel this timeoutSecs w = Ok w1 ∧
    Timer_dtor overrides fuel this w1 = Ok w2 ∧
    heap w2 !! this = None ∧
    timers w2 = filter (λ p, is_due w (clock w) p = false) (timers w) ∧
    (∀ q, q ∉ timers w ∨ is_due w (clock w) q = false →
          heap w2 !! q = heap w !! q) ∧
    clock w2 = clock w.
Proof.
  intros Hpassive Hret Hs Hfuel Hfresh HT Hsum.
  assert (Hnot : this ∉ timers w).
  { apply not_member_of_dead; [apply (sd_alive _ _ Hs)|done]. }
  assert (Hmem : ∀ q, q ∈ timers w → q ≠ this) by (by intros q Hq ->).
  assert (Hkeep : filter (λ p, p ≠ this) (timers w) = timers w).
  { apply filter_all_true. rewrite Forall_forall. exact Hmem. }
  unfold Timer_ctor, GetCurrentBoxTime.
  rewrite new_deadline by (try done; apply (sd_range _ _ Hs)).
  set (obj := mkTimer (clock w + timeoutSecs * 1000000) false None).
  assert (Hs0 : sound n (set_heap (<[this := obj]> (heap w)) w))
    by (by apply sound_insert).
  destruct (timeoutSecs =? 0) eqn:HT0.
  - (* an inert timer: the set has not been touched *)
    set (w1 := set_heap (<[this := set_mExpires 0 obj]> _) _).
    assert (Hs1 : sound n w1).
    { apply (sound_insert n (TRACE _ _)); [by apply sound_TRACE|].
      unfold in_range. simpl. lia. }
    assert (Hdue1 : ∀ q, q ≠ this →
              is_due w1 (clock w) q = is_due w (clock w) q).
    { intros q Hne. unfold is_due. subst w1. simpl.
      by rewrite !lookup_insert_ne. }
    unfold Timer_dtor.
    destruct (Remove_exact _ Hpassive Hret fuel n this
                (TRACE (TrDestroyed this) w1))
      as (w2 & Hrem & Hs2 & Htimers & Hclock & Hheap & _);
      [by apply sound_TRACE|lia|].
    exists w1. eexists. split; [done|]. rewrite Hrem. simpl.
    split; [done|]. simpl.
    split; [by rewrite lookup_delete_eq|]. split; [|split; [|done]].
    + change (timers (set_heap _ w2)) with (timers w2).
      rewrite Htimers. change (timers (TRACE _ w1)) with (timers w).
      rewrite Hkeep. apply filter_ext_elem. intros q Hq.
      change (is_due w1 (clock w) q = false ↔ is_due w (clock w) q = false).
      by rewrite Hdue1 by (by apply Hmem).
    + intros q Hq. destruct (decide (q = this)) as [->|Hne].
      { by rewrite lookup_delete_eq. }
      rewrite lookup_delete_ne by done. rewrite Hheap.
      * subst w1. simpl. by rewrite !lookup_insert_ne.
      * right. destruct Hq as [Hq|Hq]; [by left|right].
        change (is_due w1 (clock w) q = false). by rewrite Hdue1.
  - (* an armed timer: added, then removed *)
    apply Z.eqb_neq in HT0.
    set (wt := TRACE (TrInit this timeoutSecs (clock w + timeoutSecs * 1000000))
                 (set_heap (<[this := obj]> (heap w)) w)).
    assert (Hdue_t : ∀ q, q ≠ this →
              is_due wt (clock w) q = is_due w (clock w) q).
    { intros q Hne. by apply is_due_insert_ne. }
    assert (Hnd_this : is_due wt (clock w) this = false).
    { apply (is_due_future _ _ _ obj).
      - subst wt. simpl. by rewrite lookup_insert_eq.
      - apply (sd_range _ _ Hs).
      - done.
      - simpl. lia. }
    destruct (Add_sound _ Hpassive Hret fuel n this wt)
      as (w1 & Hadd & Hrs & Hs1); [by apply sound_TRACE| |done|].
    { subst wt. simpl. rewrite lookup_insert_eq. by eexists. }
    change (timers wt) with (timers w) in Hrs.
    assert (Htimers1 : timers w1
      = filter (λ p, is_due w (clock w) p = false) (timers w) ++ [this]).
    { rewrite (rescheduled_timers _ _ _ Hrs), filter_app.
      rewrite (filter_cons_True _ this) by done. f_equal.
      apply filter_ext_elem. intros q Hq.
      change (is_due wt (clock w) q = false ↔ is_due w (clock w) q = false).
      by rewrite Hdue_t by (by apply Hmem). }
    assert (Hclock1 : clock w1 = clock w) by apply (rs_clock _ _ _ Hrs).
    assert (Hnd1 : Forall (λ q, is_due w1 (clock w) q = false) (timers w1)).
    { eapply Forall_impl; [apply (st_none_due _ _ (rs_settled _ _ _ Hrs))|].
      simpl. by intros q [_ Hq]. }
    unfold Timer_dtor.
    destruct (Remove_exact _ Hpassive Hret fuel (n + 1) this
                (TRACE (TrDestroyed this) w1))
      as (w2 & Hrem & Hs2 & Htimers & Hclock & Hheap & _);
      [by apply sound_TRACE|lia|].
    exists w1. eexists. split; [done|]. rewrite Hrem. simpl.
    split; [done|]. simpl.
    split; [by rewrite lookup_delete_eq|]. split; [|split].
    + change (timers (set_heap _ w2)) with (timers w2).
      rewrite Htimers. change (timers (TRACE _ w1)) with (timers w1).
      change (clock (TRACE _ w1)) with (clock w1). rewrite Hclock1.
      rewrite Htimers1, filter_app.
      rewrite (filter_cons_False _ this) by (intros H; by apply H).
      rewrite filter_nil, app_nil_r.
      rewrite (filter_all_true (λ p, p ≠ this)).
      * apply filter_all_true. rewrite Forall_forall. intros q Hq.
        rewrite Forall_forall in Hnd1.
        change (is_due w1 (clock w) q = false). apply Hnd1.
        rewrite Htimers1, elem_of_app. by left.
      * rewrite Forall_forall. intros q [_ Hq]%list_elem_of_filter.
        by apply Hmem.
    + intros q Hq. destruct (decide (q = this)) as [->|Hne].
      { by rewrite lookup_delete_eq. }
      rewrite lookup_delete_ne by done. rewrite Hheap.
      * simpl. rewrite (rs_heap_rest _ _ _ Hrs q).
        -- subst wt. simpl. by rewrite lookup_insert_ne.
        -- intros [Hin Hd]. simpl in Hd.
           change (is_due wt (clock w) q = true) in Hd.
           rewrite Hdue_t in Hd by done.
           rewrite elem_of_app, list_elem_of_singleton in Hin.
           destruct Hin as [Hin|Hin]; [|done].
           destruct Hq as [Hq|Hq]; [done|congruence].
      * right. destruct (decide (q ∈ timers w1)) as [Hin|Hout].
        -- right. rewrite Forall_forall in Hnd1.
           change (is_due w1 (clock w1) q = false). rewrite Hclock1.
           by apply Hnd1.
        -- by left.
    + by rewrite Hclock.
Qed.

Lemma running_sound : sound 1 running.
Proof.
  constructor.
  - by eexists.
  - simpl. lia.
  - exact running_alive.
  - reflexivity.
  - exact running_in_range.
Qed.

Lemma Timer_scope_witness :
  ∃ w1 w2,
    Timer_ctor idle 4 2 3 running = Ok w1 ∧
    Timer_dtor idle 4 2 w1 = Ok w2 ∧
    heap w2 !! 2%nat = None ∧
    timers w2 = filter (λ p, is_due running (clock running) p = false)
                  (timers running) ∧
    (∀ q, q ∉ timers running ∨ is_due running (clock running) q = false →
          heap w2 !! q = heap running !! q) ∧
    clock w2 = clock running.
Proof.
  apply (Timer_scope idle 4 1 2 3 running).
  - exact idle_passive.
  - exact idle_returning.
  - exact running_sound.
  - simpl. lia.
  - reflexivity.
  - lia.
  - by vm_compute.
Defined.

(** The run of the witness: the interval timer is set for the 3 s of the
    new timer while it lives, and for the 5 s of timer 1 again afterwards. *)
Example Timer_scope_run :
  ∃ w1 w2, Timer_ctor idle 4 2 3 running = Ok w1 ∧ itimer w1 = (3, 0) ∧
    timers w1 = [1; 2]%nat ∧
    Timer_dtor idle 4 2 w1 = Ok w2 ∧ itimer w2 = (5, 0) ∧
    timers w2 = [1%nat] ∧ heap w2 = heap running.
Proof.
  eexists; eexists. split; [by vm_compute|]. split; [by vm_compute|].
  split; [by vm_compute|]. split; [by vm_compute|]. split; [by vm_compute|].
  split; [by vm_compute|]. by vm_compute.
Qed.

(** * Properties of the test helpers (lib/common/Test.cpp) *)

(** ** Files and directories (lines 27-55) *)

(** [S_IFDIR] is one bit, so the mask gives it back or gives 0. *)
Lemma land_S_IFDIR m :
  Z.land m S_IFDIR = (if Z.testbit m 14 then S_IFDIR else 0).
Proof.
  change S_IFDIR with (2 ^ 14). apply Z.bits_inj'. intros n Hn.
  rewrite Z.land_spec, Z.pow2_bits_eqb by lia.
  destruct (Z.eqb_spec 14 n) as [<-|Hne].
  - destruct (Z.testbit m 14); [by rewrite Z.pow2_bits_true|].
    by rewrite Z.bits_0.
  - rewrite andb_false_r.
    destruct (Z.testbit m 14); [by rewrite Z.pow2_bits_false|].
    by rewrite Z.bits_0.
Qed.

(** X12. The three tests on a path agree with each other, whatever [stat]
    reports: a path is never both a file and a directory for them, it is one
    of the two exactly when [stat] succeeds, whatever kind of thing it is
    (they look at one bit of [st_mode]), and it is a file that is not empty
    exactly when it is a file and its size is positive. *)
Theorem stat_tests_agree (fs : FileSystem) (Filename : string) :
  TestFileExists fs Filename && TestDirExists fs Filename = false ∧
  TestFileExists fs Filename || TestDirExists fs Filename
  = bool_decide (is_Some (fs Filename)) ∧
  TestFileNotEmpty fs Filename
  = TestFileExists fs Filename &&
    from_option (λ st, bool_decide (0 < st_size st)) false (fs Filename).
Proof.
  unfold TestFileExists, TestDirExists, TestFileNotEmpty.
  destruct (fs Filename) as [st|]; simpl; [|done].
  rewrite land_S_IFDIR.
  destruct (Z.testbit (st_mode st) 14); simpl.
  - done.
  - split; [done|]. split; [done|].
    destruct (Z.gtb_spec (st_size st) 0).
    + by rewrite bool_decide_true by lia.
    + by rewrite bool_decide_false by lia.
Qed.

(** X13. [TestGetFileSize] returns the size of what is at the path, directories
    included, and -1 when [stat] fails; as long as the sizes fit an [int],
    -1 therefore means that there is nothing at the path, as the comment
    of line 46 has it, and a file is not empty for [TestFileNotEmpty]
    exactly when it is a file with a positive [TestGetFileSize]. *)
Theorem TestGetFileSize_missing (fs : FileSystem) (Filename : string) :
  (∀ st, fs Filename = Some st → 0 <= st_size st < 2 ^ 31) →
  (TestGetFileSize fs Filename = -1 ↔ fs Filename = None) ∧
  (∀ st, fs Filename = Some st → TestGetFileSize fs Filename = st_size st) ∧
  TestFileNotEmpty fs Filename
  = TestFileExists fs Filename && (TestGetFileSize fs Filename >? 0).
Proof.
  intros Hfit.
  unfold TestGetFileSize, TestFileNotEmpty, TestFileExists.
  destruct (fs Filename) as [st|] eqn:Hst; [|done].
  specialize (Hfit st eq_refl).
  assert (Hsize : to_int (st_size st) = st_size st).
  { unfold to_int. rewrite Z.mod_small by lia. lia. }
  rewrite Hsize. split; [|split].
  - split; [lia|done].
  - by intros st' [= <-].
  - done.
Qed.

Lemma TestGetFileSize_missing_witness :
  (TestGetFileSize some_files "testfiles/a" = -1
   ↔ some_files "testfiles/a" = None) ∧
  (∀ st, some_files "testfiles/a" = Some st →
         TestGetFileSize some_files "testfiles/a" = st_size st) ∧
  TestFileNotEmpty some_files "testfiles/a"
  = TestFileExists some_files "testfiles/a" &&
    (TestGetFileSize some_files "testfiles/a" >? 0).
Proof.
  apply (TestGetFileSize_missing some_files "testfiles/a").
  intros st Hst. vm_compute in Hst. injection Hst as <-. simpl. lia.
Defined.

(** Beyond an [int] the -1 is not to be relied on: a file of 2^32 - 1
    bytes has the size -1. *)
Example TestGetFileSize_wraps :
  TestGetFileSize (λ _, Some (mkStat 33188 (2 ^ 32 - 1))) "huge" = -1 ∧
  TestFileNotEmpty (λ _, Some (mkStat 33188 (2 ^ 32 - 1))) "huge" = true ∧
  TestGetFileSize some_files "testfiles" = 4096 ∧
  TestFileNotEmpty some_files "testfiles" = false.
Proof. by vm_compute. Qed.

(** ** ConvertPaths (lines 57-79) *)

Lemma chars_app s1 s2 : chars (s1 +:+ s2) = chars s1 ++ chars s2.
Proof. induction s1 as [|c s1 IH]; simpl; [done|]. by rewrite IH. Qed.

Lemma chars_inj s1 : ∀ s2, chars s1 = chars s2 → s1 = s2.
Proof.
  induction s1 as [|c s1 IH]; intros [|c2 s2]; simpl; try done.
  intros [= -> Heq]. by rewrite (IH s2).
Qed.

Lemma chars_length s : length (chars s) = String.length s.
Proof. induction s as [|c s IH]; simpl; [done|]. by rewrite IH. Qed.

(** The loop appends the converted characters in their order. *)
Lemma ConvertPaths_loop_chars rest : ∀ converted,
  chars (ConvertPaths_loop rest converted)
  = chars converted
    ++ map (λ c, if bool_decide (c = "/"%char) then "\"%char else c)
         (chars rest).
Proof.
  induction rest as [|c rest IH]; intros converted; simpl.
  - by rewrite app_nil_r.
  - rewrite IH, chars_app. simpl. by rewrite <- app_assoc.
Qed.

(** X14. [ConvertPaths] changes a string character by character: in the WIN32
    build every slash becomes a backslash and every other character stays,
    in the other build the string is returned as it is. So the length is
    kept, no slash is left in the WIN32 build, a string without a slash is
    not changed, converting twice is converting once, and the conversion of
    two strings put together is the conversions put together. *)
Theorem ConvertPaths_by_character (WIN32 : bool) (s s' : string) :
  chars (ConvertPaths WIN32 s)
  = map (λ c, if WIN32 && bool_decide (c = "/"%char) then "\"%char else c)
      (chars s) ∧
  String.length (ConvertPaths WIN32 s) = String.length s ∧
  (WIN32 = true → "/"%char ∉ chars (ConvertPaths WIN32 s)) ∧
  ("/"%char ∉ chars s → ConvertPaths WIN32 s = s) ∧
  ConvertPaths WIN32 (ConvertPaths WIN32 s) = ConvertPaths WIN32 s ∧
  ConvertPaths WIN32 (s +:+ s')
  = ConvertPaths WIN32 s +:+ ConvertPaths WIN32 s'.
Proof.
  set (conv := λ c : ascii,
         if WIN32 && bool_decide (c = "/"%char) then "\"%char else c).
  assert (Hchars : ∀ r, chars (ConvertPaths WIN32 r) = map conv (chars r)).
  { intros r. unfold ConvertPaths, conv. destruct WIN32; simpl.
    - by rewrite ConvertPaths_loop_chars.
    - by rewrite map_id. }
  assert (Hfix : ∀ l : list ascii, "/"%char ∉ l → map conv l = l).
  { induction l as [|c l IH]; intros Hno; [done|]. simpl.
    apply not_elem_of_cons in Hno as [Hc Hl]. rewrite IH by done.
    unfold conv. rewrite bool_decide_false by done.
    by rewrite andb_false_r. }
  assert (Hnone : WIN32 = true → ∀ l : list ascii, "/"%char ∉ map conv l).
  { intros -> l. induction l as [|c l IH]; simpl; [apply not_elem_of_nil|].
    apply not_elem_of_cons. split; [|done]. unfold conv. simpl.
    case_bool_decide; [done|]. congruence. }
  split; [apply Hchars|]. split; [|split; [|split; [|split]]].
  - by rewrite <- !chars_length, Hchars, length_map.
  - intros HW. rewrite Hchars. by apply Hnone.
  - intros Hno. apply chars_inj. rewrite Hchars. by apply Hfix.
  - apply chars_inj. rewrite !Hchars. destruct WIN32 eqn:HW.
    + apply Hfix. by apply Hnone.
    + unfold conv. simpl. by rewrite !map_id.
  - apply chars_inj. by rewrite chars_app, !Hchars, chars_app, map_app.
Qed.

(** A run: a command line on each of the two builds. *)
Example ConvertPaths_run :
  ConvertPaths true "../../bin/bbackupd/bbackupd -c testfiles/a.conf"
  = "..\..\bin\bbackupd\bbackupd -c testfiles\a.conf" ∧
  ConvertPaths false "../../bin/bbackupd/bbackupd -c testfiles/a.conf"
  = "../../bin/bbackupd/bbackupd -c testfiles/a.conf".
Proof. by vm_compute. Qed.

(** ** Waiting for a server (lines 90-154 and 214-281) *)

Lemma quiet_refl s : quiet s s.
Proof. by constructor. Qed.

(** Running a function of Test.cpp on a test program. *)
Ltac run :=
  unfold mbind, Test_bind, mret, Test_ret, EMU_STAT, ask, log, sleep,
    opened, fclose; simpl.

Lemma ServerIsAlive_quiet outside pid s :
  quiet s (ServerIsAlive outside pid s).2 ∧
  (pid = 0 → (ServerIsAlive outside pid s).1 = false) ∧
  ((∀ t, kill outside t pid 0 = -1) →
   (ServerIsAlive outside pid s).1 = false) ∧
  (pid ≠ 0 → (∀ t, kill outside t pid 0 ≠ -1) →
   (ServerIsAlive outside pid s).1 = true).
Proof.
  unfold ServerIsAlive. destruct (Z.eqb_spec pid 0) as [->|Hne].
  - split; [apply quiet_refl|]. by repeat split.
  - run. split; [constructor; simpl; lia || done|].
    split; [done|]. split.
    + intros Hdead. by rewrite Hdead.
    + intros _ Halive. specialize (Halive (asked s)).
      by destruct (Z.eqb_spec (kill outside (asked s) pid 0) (-1)).
Qed.

Lemma known_and_dead_quiet outside pidIfKnown s :
  quiet s (known_and_dead outside pidIfKnown s).2 ∧
  (pidIfKnown = 0 → (known_and_dead outside pidIfKnown s).1 = false) ∧
  (pidIfKnown ≠ 0 → (∀ t, kill outside t pidIfKnown 0 = -1) →
   (known_and_dead outside pidIfKnown s).1 = true) ∧
  ((∀ t, kill outside t pidIfKnown 0 ≠ -1) →
   (known_and_dead outside pidIfKnown s).1 = false).
Proof.
  unfold known_and_dead.
  destruct (ServerIsAlive_quiet outside pidIfKnown s)
    as (Hq & _ & Hdead & Halive).
  destruct (Z.eqb_spec pidIfKnown 0) as [->|Hne].
  - split; [apply quiet_refl|]. by repeat split.
  - run.
    destruct (ServerIsAlive outside pidIfKnown s) as [b s'] eqn:Hb.
    simpl in *. split; [done|]. split; [done|]. split.
    + intros _ Hd. by rewrite Hdead.
    + intros Ha. by rewrite Halive.
Qed.

(** The loop sleeps a second per run of its body at most, and does
    nothing else to the test program. *)
Lemma wait_loop_slept outside pidFile pidIfKnown n : ∀ s,
  (slept s <= slept (wait_loop outside pidFile pidIfKnown n s).2
   <= slept s + n)%nat ∧
  (asked s <= asked (wait_loop outside pidFile pidIfKnown n s).2)%nat ∧
  streams (wait_loop outside pidFile pidIfKnown n s).2 = streams s ∧
  events (wait_loop outside pidFile pidIfKnown n s).2 = events s.
Proof.
  induction n as [|n IH]; intros s; simpl.
  - run. repeat split; lia.
  - run. destruct (TestFileNotEmpty (files outside (asked s)) pidFile).
    + simpl. repeat split; lia.
    + destruct (known_and_dead_quiet outside pidIfKnown
                  {| asked := S (asked s); slept := slept s;
                     streams := streams s; events := events s |})
        as ([Ha Hs Hst He] & _).
      destruct (known_and_dead _ _ _) as [dead s1]. simpl in *.
      destruct dead; simpl.
      * repeat split; try done; lia.
      * match goal with
        | |- context [wait_loop _ _ _ n ?s2] =>
            destruct (IH s2) as (Hsl & Has & Hstr & Hev)
        end.
        simpl in *. rewrite Hstr, Hev. repeat split; try done; lia.
Qed.

(** [ReadPidFile] takes no time; a value other than -1 is what [fscanf]
    has read from a file that was not empty, and leaves neither a failure
    nor a stream behind. *)
Lemma ReadPidFile_read outside pidFile s :
  slept (ReadPidFile outside pidFile s).2 = slept s ∧
  (asked s < asked (ReadPidFile outside pidFile s).2)%nat ∧
  ((ReadPidFile outside pidFile s).1 ≠ -1 →
   TestFileNotEmpty (files outside (asked s)) pidFile = true ∧
   fscanf_d outside (asked s + 2) pidFile
   = Some (ReadPidFile outside pidFile s).1 ∧
   streams (ReadPidFile outside pidFile s).2 = streams s ∧
   events (ReadPidFile outside pidFile s).2 = events s ∧
   asked (ReadPidFile outside pidFile s).2 = (asked s + 3)%nat).
Proof.
  unfold ReadPidFile. run.
  destruct (TestFileNotEmpty (files outside (asked s)) pidFile); simpl.
  - destruct (fopen outside (S (asked s)) pidFile); simpl.
    + replace (asked s + 2)%nat with (S (S (asked s))) by lia.
      destruct (fscanf_d outside (S (S (asked s))) pidFile) as [pid|];
        simpl.
      * repeat split; try done; lia.
      * repeat split; try done; lia.
    + repeat split; try done; lia.
  - repeat split; try done; lia.
Qed.

(** Without a pid file, and without a known server that has died, the loop
    runs its 15 times and sleeps 15 seconds. *)
Lemma wait_loop_missing outside pidFile pidIfKnown n :
  (∀ t, TestFileNotEmpty (files outside t) pidFile = false) →
  (pidIfKnown = 0 ∨ ∀ t, kill outside t pidIfKnown 0 ≠ -1) →
  ∀ s, slept (wait_loop outside pidFile pidIfKnown n s).2
       = (slept s + n)%nat.
Proof.
  intros Hmissing Halive. induction n as [|n IH]; intros s; simpl.
  - run. lia.
  - run. rewrite Hmissing.
    destruct (known_and_dead_quiet outside pidIfKnown
                {| asked := S (asked s); slept := slept s;
                   streams := streams s; events := events s |})
      as ([Ha Hs Hst He] & Hzero & _ & Hlives).
    assert (Hnot : (known_and_dead outside pidIfKnown
                {| asked := S (asked s); slept := slept s;
                   streams := streams s; events := events s |}).1 = false).
    { destruct Halive as [Hp|Hk]; [by apply Hzero|by apply Hlives]. }
    destruct (known_and_dead _ _ _) as [dead s1]. simpl in *. subst dead.
    rewrite IH. simpl. lia.
Qed.

(** With a known server that has died, the loop does not sleep. *)
Lemma wait_loop_dead outside pidFile pidIfKnown n :
  pidIfKnown ≠ 0 → (∀ t, kill outside t pidIfKnown 0 = -1) →
  ∀ s, slept (wait_loop outside pidFile pidIfKnown n s).2 = slept s.
Proof.
  intros Hp Hdead. destruct n as [|n]; intros s; simpl; [done|]. run.
  destruct (TestFileNotEmpty (files outside (asked s)) pidFile); [done|].
  destruct (known_and_dead_quiet outside pidIfKnown
              {| asked := S (asked s); slept := slept s;
                 streams := streams s; events := events s |})
    as ([Ha Hs Hst He] & _ & Hd & _).
  specialize (Hd Hp Hdead).
  destruct (known_and_dead _ _ _) as [dead s1]. simpl in *. by subst dead.
Qed.

(** With a pid file that is there, the loop does not sleep either. *)
Lemma wait_loop_there outside pidFile pidIfKnown n :
  (∀ t, TestFileNotEmpty (files outside t) pidFile = true) →
  ∀ s, slept (wait_loop outside pidFile pidIfKnown n s).2 = slept s.
Proof.
  intros Hthere. destruct n as [|n]; intros s; simpl; [done|]. run.
  by rewrite Hthere.
Qed.

(** From here on the loop is taken as a whole. *)
#[local] Opaque wait_loop.

(** X15. [WaitForServerStartup] fails its ASSERT on a NULL [pidFile]. On any
    other it returns, whatever the outside does, having slept 16 seconds
    at most. What it returns is -1 or a process id; with a known process
    id it is -1 or that id. A process id is returned only when [fscanf]
    has read it from the pid file after at least one second of sleep, and
    then no failure has been recorded and no stream is left open. *)
Theorem WaitForServerStartup_returns outside pidFile pidIfKnown s :
  WaitForServerStartup outside None pidIfKnown s
  = Raised CommonException_AssertFailed s ∧
  ∃ r s',
    WaitForServerStartup outside (Some pidFile) pidIfKnown s
    = Returned r s' ∧
    (slept s <= slept s' <= slept s + 16)%nat ∧
    (pidIfKnown ≠ 0 → r = -1 ∨ r = pidIfKnown) ∧
    (r ≠ -1 →
     (∃ t, (asked s < t < asked s')%nat ∧
           fscanf_d outside t pidFile = Some r) ∧
     (slept s < slept s')%nat ∧ streams s' = streams s ∧
     events s' = TraceStarted :: TraceWaiting :: events s).
Proof.
  split; [done|]. unfold WaitForServerStartup, wait_for_pid. run.
  set (s0 := {| asked := asked s; slept := slept s; streams := streams s;
                events := TraceWaiting :: events s |}).
  destruct (wait_loop_slept outside pidFile pidIfKnown 15 s0)
    as (Hsl1 & Has1 & Hstr1 & Hev1).
  destruct (wait_loop outside pidFile pidIfKnown 15 s0) as [[] s1].
  simpl in *.
  destruct (known_and_dead_quiet outside pidIfKnown s1)
    as ([Ha2 Hs2 Hst2 He2] & _).
  destruct (known_and_dead outside pidIfKnown s1) as [dead s2].
  simpl in *. destruct dead; simpl.
  { eexists; eexists. split; [done|]. simpl.
    split; [lia|]. split; [by left|done]. }
  destruct (TestFileNotEmpty (files outside (asked s2)) pidFile); simpl;
    [|eexists; eexists; split; [done|]; simpl;
      split; [lia|]; split; [by left|done]].
  set (s3 := {| asked := S (S (asked s2)); slept := (slept s2 + 1)%nat;
                streams := streams s2;
                events := TraceStarted :: events s2 |}).
  destruct (ReadPidFile_read outside pidFile s3) as (Hsl4 & Has4 & Hread).
  destruct (ReadPidFile outside pidFile s3) as [pid s4]. simpl in *.
  destruct (Z.eqb_spec pidIfKnown 0) as [Hp|Hp]; simpl.
  - eexists; eexists. split; [done|]. split; [lia|]. split; [done|].
    intros Hpid.
    destruct (Hread Hpid) as (_ & Hscan & Hstr4 & Hev4 & Hask4).
    split; [eexists; split; [|exact Hscan]; lia|].
    split; [lia|]. split; [congruence|]. rewrite Hev4. simpl. congruence.
  - destruct (Z.eqb_spec pid pidIfKnown) as [Heq|Hneq]; simpl.
    + eexists; eexists. split; [done|]. split; [lia|].
      split; [by right|].
      intros Hpid.
      destruct (Hread Hpid) as (_ & Hscan & Hstr4 & Hev4 & Hask4).
      split; [eexists; split; [|exact Hscan]; lia|].
      split; [lia|]. split; [congruence|]. rewrite Hev4. simpl.
      congruence.
    + eexists; eexists. split; [done|]. simpl. split; [lia|].
      split; [by left|done].
Qed.

(** X16. [WaitForServerStartup] gives up with -1 in two ways. When the known
    server is dead, it says so at once, without a sleep and whether there is
    a pid file or not. When no pid file that is not empty ever shows up,
    and the server is not known or stays alive, it sleeps 15 seconds and
    then reports that the server did not save its pid file. Either way one
    failure is recorded. *)
Theorem WaitForServerStartup_gives_up outside pidFile pidIfKnown s :
  (pidIfKnown ≠ 0 → (∀ t, kill outside t pidIfKnown 0 = -1) →
   ∃ s', WaitForServerStartup outside (Some pidFile) pidIfKnown s
         = Returned (-1) s' ∧
     slept s' = slept s ∧ streams s' = streams s ∧
     events s' = FailServerDied :: TraceWaiting :: events s) ∧
  ((∀ t, TestFileNotEmpty (files outside t) pidFile = false) →
   (pidIfKnown = 0 ∨ ∀ t, kill outside t pidIfKnown 0 ≠ -1) →
   ∃ s', WaitForServerStartup outside (Some pidFile) pidIfKnown s
         = Returned (-1) s' ∧
     slept s' = (slept s + 15)%nat ∧ streams s' = streams s ∧
     events s' = FailNoPidFile :: TraceWaiting :: events s).
Proof.
  set (s0 := {| asked := asked s; slept := slept s; streams := streams s;
                events := TraceWaiting :: events s |}).
  destruct (wait_loop_slept outside pidFile pidIfKnown 15 s0)
    as (_ & _ & Hstr1 & Hev1).
  split.
  - intros Hp Hdead.
    pose proof (wait_loop_dead outside pidFile pidIfKnown 15 Hp Hdead s0)
      as Hsl1.
    unfold WaitForServerStartup, wait_for_pid. run. fold s0.
    destruct (wait_loop outside pidFile pidIfKnown 15 s0) as [[] s1].
    simpl in *.
    destruct (known_and_dead_quiet outside pidIfKnown s1)
      as ([Ha2 Hs2 Hst2 He2] & _ & Hd & _).
    specialize (Hd Hp Hdead).
    destruct (known_and_dead outside pidIfKnown s1) as [dead s2].
    simpl in *. subst dead. simpl. eexists. split; [done|]. simpl.
    split; [congruence|]. split; congruence.
  - intros Hmissing Halive.
    pose proof (wait_loop_missing outside pidFile pidIfKnown 15
                  Hmissing Halive s0) as Hsl1.
    unfold WaitForServerStartup, wait_for_pid. run. fold s0.
    destruct (wait_loop outside pidFile pidIfKnown 15 s0) as [[] s1].
    simpl in *.
    destruct (known_and_dead_quiet outside pidIfKnown s1)
      as ([Ha2 Hs2 Hst2 He2] & Hzero & _ & Hlives).
    assert (Hnot : (known_and_dead outside pidIfKnown s1).1 = false).
    { destruct Halive as [Hp|Hk]; [by apply Hzero|by apply Hlives]. }
    destruct (known_and_dead outside pidIfKnown s1) as [dead s2].
    simpl in *. subst dead. simpl. rewrite Hmissing. simpl.
    eexists. split; [done|]. simpl.
    split; [congruence|]. split; congruence.
Qed.

Lemma WaitForServerStartup_gives_up_witness :
  (∃ s', WaitForServerStartup no_pid_file (Some "testfiles/bbackupd.pid")
           4711 starting
         = Returned (-1) s' ∧
     slept s' = slept starting ∧ streams s' = streams starting ∧
     events s' = FailServerDied :: TraceWaiting :: events starting) ∧
  (∃ s', WaitForServerStartup no_pid_file (Some "testfiles/bbackupd.pid")
           0 starting
         = Returned (-1) s' ∧
     slept s' = (slept starting + 15)%nat ∧
     streams s' = streams starting ∧
     events s' = FailNoPidFile :: TraceWaiting :: events starting).
Proof.
  split.
  - apply (WaitForServerStartup_gives_up no_pid_file
             "testfiles/bbackupd.pid" 4711 starting); [lia|done].
  - apply (WaitForServerStartup_gives_up no_pid_file
             "testfiles/bbackupd.pid" 0 starting); [done|by left].
Defined.

(** With a pid file that is there, can be opened and holds a number,
    [ReadPidFile] returns the number and leaves the test program as it
    was. *)
Lemma ReadPidFile_reads outside pidFile pid s :
  (∀ t, TestFileNotEmpty (files outside t) pidFile = true) →
  (∀ t, fopen outside t pidFile = true) →
  (∀ t, fscanf_d outside t pidFile = Some pid) →
  (ReadPidFile outside pidFile s).1 = pid ∧
  slept (ReadPidFile outside pidFile s).2 = slept s ∧
  streams (ReadPidFile outside pidFile s).2 = streams s ∧
  events (ReadPidFile outside pidFile s).2 = events s.
Proof.
  intros Hthere Hopen Hscan. unfold ReadPidFile. run.
  rewrite Hthere. simpl. rewrite Hopen. simpl. by rewrite Hscan.
Qed.

(** X17. With a pid file that is there from the start, can be opened and holds a
    number, [WaitForServerStartup] returns that number after the one second
    of line 263, as long as the server is not known, or is known by that
    number and alive; no failure is recorded and no stream is left open. *)
Theorem WaitForServerStartup_finds_pid outside pidFile pidIfKnown pid s :
  (∀ t, TestFileNotEmpty (files outside t) pidFile = true) →
  (∀ t, fopen outside t pidFile = true) →
  (∀ t, fscanf_d outside t pidFile = Some pid) →
  pidIfKnown = 0 ∨ (pidIfKnown = pid ∧ ∀ t, kill outside t pid 0 ≠ -1) →
  ∃ s', WaitForServerStartup outside (Some pidFile) pidIfKnown s
        = Returned pid s' ∧
    slept s' = (slept s + 1)%nat ∧ streams s' = streams s ∧
    events s' = TraceStarted :: TraceWaiting :: events s.
Proof.
  intros Hthere Hopen Hscan Hknown.
  set (s0 := {| asked := asked s; slept := slept s; streams := streams s;
                events := TraceWaiting :: events s |}).
  destruct (wait_loop_slept outside pidFile pidIfKnown 15 s0)
    as (_ & _ & Hstr1 & Hev1).
  pose proof (wait_loop_there outside pidFile pidIfKnown 15 Hthere s0)
    as Hsl1.
  unfold WaitForServerStartup, wait_for_pid. run. fold s0.
  destruct (wait_loop outside pidFile pidIfKnown 15 s0) as [[] s1].
  simpl in *.
  destruct (known_and_dead_quiet outside pidIfKnown s1)
    as ([Ha2 Hs2 Hst2 He2] & Hzero & _ & Hlives).
  assert (Hnot : (known_and_dead outside pidIfKnown s1).1 = false).
  { destruct Hknown as [Hp|[-> Hk]]; [by apply Hzero|by apply Hlives]. }
  destruct (known_and_dead outside pidIfKnown s1) as [dead s2].
  simpl in *. subst dead. simpl. rewrite Hthere. simpl.
  set (s3 := {| asked := S (S (asked s2)); slept := (slept s2 + 1)%nat;
                streams := streams s2;
                events := TraceStarted :: events s2 |}).
  destruct (ReadPidFile_reads outside pidFile pid s3 Hthere Hopen Hscan)
    as (Hpid & Hsl4 & Hstr4 & Hev4).
  destruct (ReadPidFile outside pidFile s3) as [pid' s4]. simpl in *.
  subst pid'.
  assert (Hsame : negb (pidIfKnown =? 0) && negb (pid =? pidIfKnown) = false).
  { destruct Hknown as [->|[-> _]]; [done|].
    by rewrite Z.eqb_refl, andb_false_r. }
  rewrite Hsame. eexists. split; [done|].
  split; [congruence|]. split; [congruence|]. rewrite Hev4. simpl.
  congruence.
Qed.

Lemma WaitForServerStartup_finds_pid_witness :
  ∃ s', WaitForServerStartup ready_pid_file (Some "testfiles/bbackupd.pid")
          4711 starting
        = Returned 4711 s' ∧
    slept s' = (slept starting + 1)%nat ∧ streams s' = streams starting ∧
    events s' = TraceStarted :: TraceWaiting :: events starting.
Proof.
  apply (WaitForServerStartup_finds_pid ready_pid_file
           "testfiles/bbackupd.pid" 4711 4711 starting); try done.
  right. done.
Defined.

#[local] Transparent wait_loop.

(** Runs: the pid file shows up at the fourth look at the outside, which
    is after two seconds of sleep when the server is not known, and after
    one when it is, for the look at the process; and a pid file that holds
    another number than the one of the known server. *)
Example WaitForServerStartup_runs :
  WaitForServerStartup late_pid_file (Some "testfiles/bbackupd.pid") 0
    starting
  = Returned 4711
      {| asked := 10; slept := 3; streams := 0;
         events := [TraceStarted; TraceWaiting] |} ∧
  WaitForServerStartup late_pid_file (Some "testfiles/bbackupd.pid") 4711
    starting
  = Returned 4711
      {| asked := 10; slept := 2; streams := 0;
         events := [TraceStarted; TraceWaiting] |} ∧
  WaitForServerStartup ready_pid_file (Some "testfiles/bbackupd.pid") 4712
    starting
  = Returned (-1)
      {| asked := 7; slept := 1; streams := 0;
         events := [FailWrongPid;
                    ErrorWrongPid "testfiles/bbackupd.pid" 4712 4711;
                    TraceStarted; TraceWaiting] |}.
Proof. by vm_compute. Qed.

(** ** ReadPidFile (lines 134-154) *)

(** X18. [ReadPidFile] leaves a stream open in one case, and in that one
    always: when the pid file is there, not empty, and can be opened, and
    [fscanf] reads no number from it (the return of line 149 comes before
    the [fclose]). -1 is returned with a failure recorded, except when -1
    is the number that the file holds: then it is returned as a process id,
    with no failure. *)
Theorem ReadPidFile_leaks_stream outside pidFile s :
  (streams (ReadPidFile outside pidFile s).2 = S (streams s) ↔
   TestFileNotEmpty (files outside (asked s)) pidFile = true ∧
   fopen outside (asked s + 1) pidFile = true ∧
   fscanf_d outside (asked s + 2) pidFile = None) ∧
  (streams (ReadPidFile outside pidFile s).2 ≠ S (streams s) →
   streams (ReadPidFile outside pidFile s).2 = streams s) ∧
  (events (ReadPidFile outside pidFile s).2 = events s ↔
   TestFileNotEmpty (files outside (asked s)) pidFile = true ∧
   fopen outside (asked s + 1) pidFile = true ∧
   fscanf_d outside (asked s + 2) pidFile
   = Some (ReadPidFile outside pidFile s).1) ∧
  (events (ReadPidFile outside pidFile s).2 ≠ events s →
   (ReadPidFile outside pidFile s).1 = -1 ∧
   ∃ e, is_failure e = true ∧
        events (ReadPidFile outside pidFile s).2 = e :: events s).
Proof.
  assert (Hcons : ∀ (e : TestEvent) l, e :: l ≠ l).
  { intros e l Heq. apply (f_equal length) in Heq. simpl in Heq. lia. }
  unfold ReadPidFile. run.
  replace (asked s + 1)%nat with (S (asked s)) by lia.
  replace (asked s + 2)%nat with (S (S (asked s))) by lia.
  destruct (TestFileNotEmpty (files outside (asked s)) pidFile); simpl.
  - destruct (fopen outside (S (asked s)) pidFile); simpl.
    + destruct (fscanf_d outside (S (S (asked s))) pidFile) as [pid|];
        simpl.
      * split; [split; [lia|by intros (_ & _ & ?)]|].
        split; [done|]. split; [done|]. done.
      * split; [done|]. split; [done|].
        split; [split; [by intros ?%Hcons|by intros (_ & _ & ?)]|].
        intros _. split; [done|]. by exists FailCouldntRead.
    + split; [split; [lia|by intros (_ & ? & _)]|].
      split; [done|].
      split; [split; [by intros ?%Hcons|by intros (_ & ? & _)]|].
      intros _. split; [done|]. by exists FailCouldntRead.
  - split; [split; [lia|by intros (? & _)]|].
    split; [done|].
    split; [split; [by intros ?%Hcons|by intros (? & _)]|].
    intros _. split; [done|]. by exists FailNoPidFilePerhaps.
Qed.

(** A run: a pid file that holds no number. *)
Example garbled_pid_file_read :
  ReadPidFile garbled_pid_file "testfiles/bbackupd.pid" starting
  = (-1, {| asked := 3; slept := 0; streams := 1;
            events := [FailCouldntRead] |}).
Proof. by vm_compute. Qed.
